(** * movie-lib-tools: the YTS search-and-match engine (src/yts.py)

    A shallow embedding of the mirror registry, the resilient search
    client, the title normalizer, the candidate selector, the
    quality-upgrade resolver and the CSV batch drivers, followed by the
    properties stated for them.

    Conventions.
    - A Python [str] is a list of Unicode code points ([pystr]).
    - A Python [float] that is only compared, doubled or initialised from
      a decimal literal is an exact rational ([Q]); every value the code
      computes this way is a dyadic rational, on which float comparison
      and rational comparison agree.
    - A dict whose iteration order matters is an association list in
      insertion order.
    - Code that can raise returns a [result]; the network is an oracle
      passed as a parameter, and requests and sleeps are recorded in a
      trace. *)

From Stdlib Require Import List ZArith NArith QArith Qpower Bool Lia String Ascii.
From Stdlib Require Import Sorting.Sorted Permutation DecimalString.
Import ListNotations.

Set Implicit Arguments.

(* ================================================================== *)
(** * Part I. The program *)
(* ================================================================== *)

(** ** Python strings *)

Definition codepoint := N.
Bind Scope N_scope with codepoint.
Definition pystr := list codepoint.

(** A string literal of the source. *)
Definition lit (s : string) : pystr :=
  map N_of_ascii (list_ascii_of_string s).

Fixpoint str_eqb (a b : pystr) : bool :=
  match a, b with
  | [], [] => true
  | x :: a', y :: b' => N.eqb x y && str_eqb a' b'
  | _, _ => false
  end.

(** [a < b] on [str]: lexicographic on code points. *)
Fixpoint str_ltb (a b : pystr) : bool :=
  match a, b with
  | _, [] => false
  | [], _ :: _ => true
  | x :: a', y :: b' => N.ltb x y || (N.eqb x y && str_ltb a' b')
  end.

(** [bool(s)]: a string is truthy when it is not empty. *)
Definition truthy (s : pystr) : bool :=
  match s with [] => false | _ :: _ => true end.

(** [x or ''] for a value that is a string or [None]. *)
Definition or_empty (o : option pystr) : pystr :=
  match o with Some s => s | None => [] end.

(** *** Character tables

    [isspace] is the complete list of code points for which
    [str.isspace()] holds (the same set the [re] module uses for [\s] and
    [str.strip()] strips).  [isalnum], [isdigit] and [lower_cp] are the
    entries of the Unicode character database for the code points below
    U+0080, for the white space, and for U+0130 (LATIN CAPITAL LETTER I
    WITH DOT ABOVE) and U+0307 (COMBINING DOT ABOVE), the [charted] code
    points; any other code point is taken for a caseless symbol.  The
    labels, identifiers, column names and mirror roots the program
    compares are ASCII. *)

Definition in_range (lo hi c : N) : bool := (N.leb lo c && N.leb c hi)%bool.

Definition isspace (c : codepoint) : bool :=
  (in_range 9 13 c || in_range 28 32 c || N.eqb c 0x85 || N.eqb c 0xA0
   || N.eqb c 0x1680 || in_range 0x2000 0x200A c || in_range 0x2028 0x2029 c
   || N.eqb c 0x202F || N.eqb c 0x205F || N.eqb c 0x3000)%bool.

Definition isdigit (c : codepoint) : bool := in_range 48 57 c.

Definition isupper_ascii (c : codepoint) : bool := in_range 65 90 c.

Definition isalnum (c : codepoint) : bool :=
  (isdigit c || isupper_ascii c || in_range 97 122 c || N.eqb c 0x130)%bool.

(** [\w] of the [re] module on [str] patterns: alphanumeric or underscore. *)
Definition isword (c : codepoint) : bool := (isalnum c || N.eqb c 95)%bool.

(** Full lower-case mapping of one code point; U+0130 is the one code
    point whose lower case is two code points, [i] and U+0307. *)
Definition lower_cp (c : codepoint) : pystr :=
  if isupper_ascii c then [(c + 32)%N]
  else if N.eqb c 0x130 then [0x69%N; 0x307%N]
  else [c].

(** [s.lower()] *)
Definition str_lower (s : pystr) : pystr := flat_map lower_cp s.

(** The code points on which the three tables above are the database's. *)
Definition charted (c : codepoint) : bool :=
  (N.ltb c 128 || isspace c || N.eqb c 0x130 || N.eqb c 0x307)%bool.

(** [s.lstrip()], [s.rstrip()], [s.strip()] and [s.rstrip('/')]. *)
Fixpoint dropwhile (p : codepoint -> bool) (s : pystr) : pystr :=
  match s with
  | [] => []
  | c :: t => if p c then dropwhile p t else s
  end.

Definition rstrip_by (p : codepoint -> bool) (s : pystr) : pystr :=
  rev (dropwhile p (rev s)).

Definition str_strip (s : pystr) : pystr :=
  rstrip_by isspace (dropwhile isspace s).

(** [s.startswith(p)], [s.endswith(p)] and [p in s]. *)
Fixpoint startswith (s p : pystr) : bool :=
  match p, s with
  | [], _ => true
  | x :: p', y :: s' => N.eqb x y && startswith s' p'
  | _ :: _, [] => false
  end.

Definition endswith (s p : pystr) : bool := startswith (rev s) (rev p).

Fixpoint contains (s p : pystr) : bool :=
  startswith s p ||
  match s with
  | [] => false
  | _ :: t => contains t p
  end.

(** [sep.join(parts)] *)
Fixpoint join (sep : pystr) (parts : list pystr) : pystr :=
  match parts with
  | [] => []
  | [p] => p
  | p :: rest => p ++ sep ++ join sep rest
  end.

(** [s.split(c)] for a one-character separator. *)
Fixpoint split_on (c : codepoint) (s : pystr) : list pystr :=
  match s with
  | [] => [[]]
  | x :: t =>
      if N.eqb x c then [] :: split_on c t
      else match split_on c t with
           | [] => [[x]]
           | w :: ws => (x :: w) :: ws
           end
  end.

(** ** Exceptions *)

Inductive exn_class :=
| NameResolutionError | ConnectionError | HTTPError | Timeout
| ValueError | KeyError | UnicodeEncodeError | OtherError.

(** An exception object: its class, [str(e)], [__cause__] and
    [__context__]. *)
#[local] Set Warnings "-register-all".
Inductive exn :=
| Exn (cls : exn_class) (msg : pystr) (cause context : option exn).

(** The outcome of a call: a value, an [Exception], or a
    [KeyboardInterrupt] (which [except Exception] does not catch). *)
Inductive result (A : Type) :=
| Ok (a : A)
| Raise (e : exn)
| Interrupt.
Arguments Ok {A} a.
Arguments Raise {A} e.
Arguments Interrupt {A}.

Definition bind {A B} (m : result A) (k : A -> result B) : result B :=
  match m with
  | Ok a => k a
  | Raise e => Raise e
  | Interrupt => Interrupt
  end.

Notation "x <- m ;; k" := (bind m (fun x => k))
  (at level 61, m at next level, right associativity).

(** ** Data model *)

(** One entry of a movie's ["torrents"] list; [None] is an absent key. *)
Record Torrent := {
  t_quality : option pystr;
  t_type : option pystr;
  t_size : option pystr;
  t_seeds : option Z;
  t_peers : option Z;
  t_hash : option pystr
}.

Record YTSMovie := {
  id : Z;
  title : pystr;
  year : Z;
  url : pystr;
  torrents : list Torrent;
  rating : Q;
  imdb_code : pystr
}.

(** ** Preference configuration *)

Definition RATING_UHD_THRESHOLD : Q := 7.
Definition PREF_QUALITIES_HIGH : list pystr :=
  [lit "2160p"; lit "1080p"; lit "720p"].
Definition PREF_QUALITIES_DEFAULT : list pystr :=
  [lit "1080p"; lit "720p"].

Definition QUALITY_RANK : list (pystr * Q) :=
  [(lit "720p", 1); (lit "1080p", 2); (lit "1440p", 5 # 2);
   (lit "2160p", 3); (lit "4k", 3); (lit "uhd", 3)].

(** ** Dictionaries in insertion order *)

Fixpoint dict_get {V} (d : list (pystr * V)) (k : pystr) : option V :=
  match d with
  | [] => None
  | (k', v) :: d' => if str_eqb k' k then Some v else dict_get d' k
  end.

(** [d[k] = v]: an existing key keeps its position. *)
Fixpoint dict_set {V} (d : list (pystr * V)) (k : pystr) (v : V)
  : list (pystr * V) :=
  match d with
  | [] => [(k, v)]
  | (k', v') :: d' =>
      if str_eqb k' k then (k', v) :: d' else (k', v') :: dict_set d' k v
  end.

(** [d.get(k, default)] *)
Definition dict_get_or {V} (d : list (pystr * V)) (k : pystr) (dflt : V) : V :=
  match dict_get d k with Some v => v | None => dflt end.

(** [QUALITY_RANK.get(q, 0)] *)
Definition quality_rank (q : pystr) : Q := dict_get_or QUALITY_RANK q 0.

(** [a > b] on the ranks. *)
Definition Qgtb (a b : Q) : bool := negb (Qle_bool a b).

(** ** The quality-upgrade resolver *)

(** [by_quality.setdefault(q, []).append(t)] *)
Fixpoint setdefault_append (d : list (pystr * list Torrent)) (q : pystr)
  (t : Torrent) : list (pystr * list Torrent) :=
  match d with
  | [] => [(q, [t])]
  | (k, arr) :: d' =>
      if str_eqb k q then (k, arr ++ [t]) :: d'
      else (k, arr) :: setdefault_append d' q t
  end.

(** The first loop of [_choose_next_quality]. *)
Definition group_by_quality (ts : list Torrent) : list (pystr * list Torrent) :=
  fold_left
    (fun d t =>
       let q := str_lower (or_empty (t_quality t)) in
       if truthy q then setdefault_append d q t else d)
    ts [].

(** [list.sort(key=...)] is stable: an element goes in front of the first
    one whose key is not smaller. *)
Fixpoint insert_by_key {A} (key : A -> nat) (x : A) (l : list A) : list A :=
  match l with
  | [] => [x]
  | y :: l' =>
      if Nat.leb (key x) (key y) then x :: l else y :: insert_by_key key x l'
  end.

Definition sort_by_key {A} (key : A -> nat) (l : list A) : list A :=
  fold_right (insert_by_key key) [] l.

(** [lambda t: 0 if (t.get('type') or '').lower() == 'bluray' else 1] *)
Definition bluray_key (t : Torrent) : nat :=
  if str_eqb (str_lower (or_empty (t_type t))) (lit "bluray") then 0 else 1.

(** The second loop: every group sorted, bluray first. *)
Definition sort_groups (d : list (pystr * list Torrent))
  : list (pystr * list Torrent) :=
  map (fun kv => (fst kv, sort_by_key bluray_key (snd kv))) d.

(** [qk in by_quality] and [by_quality[qk][0]]; the lists of [by_quality]
    are never empty ([first_of_group] below), so the index is in range. *)
Definition dict_mem {V} (d : list (pystr * V)) (k : pystr) : bool :=
  match dict_get d k with Some _ => true | None => false end.

Definition first_of (d : list (pystr * list Torrent)) (k : pystr)
  : option Torrent :=
  match dict_get d k with Some arr => hd_error arr | None => None end.

(** The ladder loop: [Some] is the [return] inside the loop, [None] means
    the loop ran to its end. *)
Fixpoint ladder (pref : list pystr) (by_quality : list (pystr * list Torrent))
  (cur_rank : Q) : option (pystr * option Torrent) :=
  match pref with
  | [] => None
  | want :: rest =>
      let qk := str_lower want in
      let rank := quality_rank qk in
      if (Qgtb rank cur_rank && dict_mem by_quality qk)%bool
      then Some (want, first_of by_quality qk)
      else ladder rest by_quality cur_rank
  end.

(** The fallback's [candidates] list of [(rank, qk, arr[0])]. *)
Fixpoint fallback_candidates (by_quality : list (pystr * list Torrent))
  (cur_rank : Q) : list (Q * pystr * option Torrent) :=
  match by_quality with
  | [] => []
  | (qk, arr) :: d' =>
      let rank := quality_rank qk in
      if Qgtb rank cur_rank
      then (rank, qk, hd_error arr) :: fallback_candidates d' cur_rank
      else fallback_candidates d' cur_rank
  end.

(** Tuple comparison [a < b]: first the ranks, then the labels.  The labels
    of two candidates differ (they are keys of one dict), so the
    comparison never reaches the third component. *)
Definition cand_ltb (a b : Q * pystr * option Torrent) : bool :=
  let '(ra, qa, _) := a in
  let '(rb, qb, _) := b in
  (Qgtb rb ra || (Qeq_bool ra rb && str_ltb qa qb))%bool.

(** [candidates.sort(reverse=True)] *)
Fixpoint insert_desc (x : Q * pystr * option Torrent)
  (l : list (Q * pystr * option Torrent)) : list (Q * pystr * option Torrent) :=
  match l with
  | [] => [x]
  | y :: l' => if cand_ltb x y then y :: insert_desc x l' else x :: l
  end.

Definition sort_desc (l : list (Q * pystr * option Torrent))
  : list (Q * pystr * option Torrent) :=
  fold_right insert_desc [] l.

Definition _choose_next_quality (m : YTSMovie) (cur_rank : Q)
  : pystr * option Torrent :=
  let by_quality := sort_groups (group_by_quality (torrents m)) in
  let pref :=
    if Qle_bool RATING_UHD_THRESHOLD (rating m)
    then PREF_QUALITIES_HIGH else PREF_QUALITIES_DEFAULT in
  match ladder pref by_quality cur_rank with
  | Some r => r
  | None =>
      match sort_desc (fallback_candidates by_quality cur_rank) with
      | (_, qk, tor) :: _ => (qk, tor)
      | [] => ([], None)
      end
  end.

(** The candidate of the scenario: rating 8.0, 1080p/web, 2160p/bluray,
    720p/web. *)
Definition mk_torrent (q ty : string) : Torrent :=
  {| t_quality := Some (lit q); t_type := Some (lit ty); t_size := None;
     t_seeds := None; t_peers := None; t_hash := None |}.

Definition scenario_movie : YTSMovie :=
  {| id := 1; title := lit "Example"; year := 2020; url := [];
     torrents := [mk_torrent "1080p" "web"; mk_torrent "2160p" "bluray";
                  mk_torrent "720p" "web"];
     rating := 8; imdb_code := [] |}.

(** ** Title normalizer *)

(** [re.sub(r"[._]+", " ", s)]: every maximal run of dots and underscores
    becomes one space; [in_run] says that the previous character belonged
    to the run being replaced. *)
Definition is_dot_or_underscore (c : codepoint) : bool :=
  (N.eqb c 46 || N.eqb c 95)%bool.

Fixpoint sub_runs (p : codepoint -> bool) (in_run : bool) (s : pystr) : pystr :=
  match s with
  | [] => []
  | c :: t =>
      if p c then (if in_run then sub_runs p true t
                   else 32%N :: sub_runs p true t)
      else c :: sub_runs p false t
  end.

(** [re.sub(r"\((\d{4})\)", '', s)]: scanning from the left, a match
    ["(dddd)"] is dropped and the scan goes on behind it. *)
Fixpoint sub_paren_year (s : pystr) : pystr :=
  match s with
  | [] => []
  | c :: t =>
      match t with
      | d1 :: d2 :: d3 :: d4 :: r :: rest =>
          if (N.eqb c 40 && isdigit d1 && isdigit d2 && isdigit d3
              && isdigit d4 && N.eqb r 41)%bool
          then sub_paren_year rest
          else c :: sub_paren_year t
      | _ => c :: sub_paren_year t
      end
  end.

(** [re.sub(r"[^\w\s]", " ", s)] *)
Definition sub_punct (s : pystr) : pystr :=
  map (fun c => if (isword c || isspace c)%bool then c else 32%N) s.

Definition _sanitize_title (s : pystr) : pystr :=
  let s := sub_runs is_dot_or_underscore false s in
  let s := sub_paren_year s in
  let s := sub_punct s in
  str_lower (str_strip (sub_runs isspace false s)).

(** ** Mirror registry *)

Definition _YTS_DEFAULT_BASES : list pystr :=
  [lit "https://www.yts-official.to/api/v2";
   lit "https://yts.rs/api/v2";
   lit "https://yts.lt/api/v2";
   lit "https://yts.mx/api/v2";
   lit "https://yts.pm/api/v2";
   lit "https://yts.ag/api/v2";
   lit "https://yts.am/api/v2"].

Definition api_segment : pystr := lit "/api/v2".

Definition is_slash (c : codepoint) : bool := N.eqb c 47.

(** The body of the loop over [env.split(',')], for one stripped,
    non-empty [b]. *)
Definition normalize_base (b : pystr) : pystr :=
  if endswith b api_segment then rstrip_by is_slash b
  else rstrip_by is_slash b ++ api_segment.

(** The loop over [env.split(',')]: [bases] is the list built so far. *)
Fixpoint configured_loop (raws : list pystr) (bases : list pystr) : list pystr :=
  match raws with
  | [] => bases
  | raw :: rest =>
      let b := str_strip raw in
      if truthy b then configured_loop rest (bases ++ [normalize_base b])
      else configured_loop rest bases
  end.

(** The de-duplication loop: [seen] and [uniq] as in the source. *)
Fixpoint dedup_loop (bases seen uniq : list pystr) : list pystr :=
  match bases with
  | [] => uniq
  | b :: rest =>
      if existsb (str_eqb b) seen then dedup_loop rest seen uniq
      else dedup_loop rest (b :: seen) (uniq ++ [b])
  end.

(** [getenv] is the value of [YTS_API_BASE], [None] when unset. *)
Definition _yts_bases (getenv : option pystr) : list pystr :=
  let env := str_strip (or_empty getenv) in
  let bases :=
    if truthy env then configured_loop (split_on 44 env) [] else [] in
  dedup_loop (bases ++ _YTS_DEFAULT_BASES) [] [].

(** ** Resilient search client *)

(** [_is_dns_error]: walks [__cause__ or __context__].  The [visited] set
    of the source stops the walk on a cyclic chain; the chains of [exn]
    are finite. *)
Fixpoint _is_dns_error (e : exn) : bool :=
  match e with
  | Exn cls msg cause context =>
      match cls with
      | NameResolutionError => true
      | _ =>
          if (contains msg (lit "nodename nor servname provided")
              || contains msg (lit "Name or service not known"))%bool
          then true
          else match cause with
               | Some c => _is_dns_error c
               | None =>
                   match context with
                   | Some c => _is_dns_error c
                   | None => false
                   end
               end
      end
  end.

(** What one pass through the [try] block comes to:
    - [Failed e]: [sess.get], [raise_for_status] or the parsing of the
      movies raised the exception [e];
    - [NotJson]: [_json_from_response] returned [None];
    - [Json movies elapsed]: the parsed movies, and the seconds the
      request took;
    - [Interrupted]: a [KeyboardInterrupt] arrived. *)
Inductive outcome :=
| Failed (e : exn)
| NotJson
| Json (movies : list YTSMovie) (elapsed : Q)
| Interrupted.

(** What the client does to the outside world. *)
Inductive event :=
| Get (base : pystr) (attempt : Z)
| Sleep (base : pystr) (attempt : Z) (seconds : Q).

Inductive loop_exit :=
| Return_ (movies : list YTSMovie)
| Break
| KeyboardInterrupt.

Section SearchClient.
(** [fetch base attempt] is the outcome of the [attempt]-th request of
    this call to the mirror [base]. *)
Variable fetch : pystr -> Z -> outcome.
Variable retries : Z.
Variable slow_after : Q.

(** The [while True] loop on one mirror; [attempt] and [backoff] are the
    variables of the source.  An iteration goes round again only when
    [attempt <= retries], so [S (Z.to_nat retries)] iterations are
    enough ([attempt_loop_fuel] below) and the case [O] is not reached. *)
Fixpoint attempt_loop (fuel : nat) (base : pystr) (attempt : Z) (backoff : Q)
  : loop_exit * list event :=
  match fuel with
  | O => (Break, [])
  | S fuel' =>
      let attempt := (attempt + 1)%Z in
      let again :=
        let '(x, tr) := attempt_loop fuel' base attempt (backoff * 2) in
        (x, Get base attempt :: Sleep base attempt backoff :: tr) in
      match fetch base attempt with
      | Interrupted => (KeyboardInterrupt, [Get base attempt])
      | NotJson => (Break, [Get base attempt])
      | Json movies elapsed =>
          if (Qle_bool slow_after elapsed && (attempt <=? retries)%Z)%bool
          then again
          else (Return_ movies, [Get base attempt])
      | Failed e =>
          if _is_dns_error e then (Break, [Get base attempt])
          else if (attempt <=? retries)%Z then again
          else (Break, [Get base attempt])
      end
  end.

(** The [for base in bases] loop, and the [return []] behind it. *)
Fixpoint mirror_loop (bases : list pystr)
  : result (list YTSMovie) * list event :=
  match bases with
  | [] => (Ok [], [])
  | base :: rest =>
      match attempt_loop (S (Z.to_nat retries)) base 0 (3 # 4) with
      | (Return_ movies, tr) => (Ok movies, tr)
      | (KeyboardInterrupt, tr) => (Interrupt, tr)
      | (Break, tr) =>
          let '(r, tr') := mirror_loop rest in (r, tr ++ tr')
      end
  end.
End SearchClient.

(** ** The world outside the program

    The mirrors and the identity services are reached over the network;
    a [World] fixes what they answer.  [http_get url query attempt] is the
    outcome of the [attempt]-th request of one search for [query] at [url];
    [sequence_ratio a b] is [difflib.SequenceMatcher(None, a, b).ratio()];
    the three resolvers are [_tmdb_search], [_omdb_lookup] and
    [_pick_best_imdb(_imdb_suggest(title), title, year)].  The [timeout]
    argument only reaches the network and [verbose] only prints; both are
    left out. *)
Record World := {
  YTS_API_BASE : option pystr;
  http_get : pystr -> pystr -> Z -> outcome;
  sequence_ratio : pystr -> pystr -> Q;
  tmdb_search : pystr -> option Z -> result (pystr * option Z * option pystr);
  omdb_lookup : pystr -> option Z -> result (pystr * option Z * option pystr);
  imdb_suggest_pick :
    pystr -> option Z -> result (pystr * option Z * option pystr)
}.

(** [str(n)] for an [int]. *)
Definition str_of_Z (n : Z) : pystr :=
  lit (NilZero.string_of_int (Z.to_int n)).

(** [bool(year)] for an [Optional[int]]. *)
Definition year_truthy (y : option Z) : bool :=
  match y with Some v => negb (v =? 0)%Z | None => false end.

Definition _build_query (title : pystr) (year : option Z) : pystr :=
  match year with
  | Some y => if year_truthy year then title ++ lit " " ++ str_of_Z y else title
  | None => title
  end.

Section Engine.
Variable W : World.
Variable retries : Z.
Variable slow_after : Q.

Definition yts_search (title : pystr) (year : option Z)
  : result (list YTSMovie) * list event :=
  let q := _build_query (_sanitize_title title) year in
  mirror_loop
    (fun base attempt =>
       http_get W (base ++ lit "/list_movies.json") q attempt)
    retries slow_after (_yts_bases (YTS_API_BASE W)).

Definition yts_search_by_imdb (imdb_id : pystr)
  : result (list YTSMovie) * list event :=
  if truthy imdb_id then
    mirror_loop
      (fun base attempt =>
         http_get W (base ++ lit "/list_movies.json") imdb_id attempt)
      retries slow_after (_yts_bases (YTS_API_BASE W))
  else (Ok [], []).

(** ** Candidate selector *)

Definition _title_similarity (a b : pystr) : Q :=
  sequence_ratio W (_sanitize_title a) (_sanitize_title b).

(** [a < b] on tuples of floats. *)
Fixpoint tuple_ltb (a b : list Q) : bool :=
  match a, b with
  | x :: a', y :: b' => if Qeq_bool x y then tuple_ltb a' b' else Qgtb y x
  | [], _ :: _ => true
  | _, [] => false
  end.

(** [max(l, key=key)]: the first of the greatest elements. *)
Fixpoint max_from {A} (key : A -> list Q) (best : A) (l : list A) : A :=
  match l with
  | [] => best
  | x :: l' =>
      if tuple_ltb (key best) (key x) then max_from key x l'
      else max_from key best l'
  end.

Definition py_max {A} (key : A -> list Q) (l : list A) : option A :=
  match l with
  | [] => None
  | x :: l' => Some (max_from key x l')
  end.

Definition score (title_ : pystr) (year_ : option Z) (m : YTSMovie) : list Q :=
  let sim := _title_similarity title_ (title m) in
  let year_bonus :=
    match year_ with
    | Some y =>
        if year_truthy year_ then
          let yd := if negb (year m =? 0)%Z then Z.abs (year m - y) else 9999%Z in
          - inject_Z yd
        else 0
    | None => 0
    end in
  [rating m; sim; year_bonus].

Definition _best_match (movies : list YTSMovie) (title_ : pystr)
  (year_ : option Z) : option YTSMovie :=
  match movies with
  | [] => None
  | _ :: _ =>
      let same_year :=
        match year_ with
        | Some y =>
            if year_truthy year_
            then filter (fun m => (year m =? y)%Z) movies else []
        | None => []
        end in
      match same_year with
      | _ :: _ =>
          py_max (fun m => [rating m; _title_similarity title_ (title m)])
                 same_year
      | [] => py_max (score title_ year_) movies
      end
  end.

(** The [for m in movies] loop of both drivers: the first movie whose
    [imdb_code], lower-cased, is the lower-cased [imdb_id]. *)
Fixpoint first_imdb_match (movies : list YTSMovie) (imdb_id : pystr)
  : option YTSMovie :=
  match movies with
  | [] => None
  | m :: rest =>
      if str_eqb (str_lower (imdb_code m)) (str_lower imdb_id) then Some m
      else first_imdb_match rest imdb_id
  end.

(** Lines 876-880 of [task]: [imdb_id] is [None] or a string. *)
Definition task_select (movies : list YTSMovie) (best_title : pystr)
  (best_year : option Z) (imdb_id : option pystr) : option YTSMovie :=
  if truthy (or_empty imdb_id) then
    match first_imdb_match movies (or_empty imdb_id) with
    | Some m => Some m
    | None => _best_match movies best_title best_year
    end
  else _best_match movies best_title best_year.

(** Lines 552-559 of [yts_lookup_from_jf_csv]; [year_] is
    [int(year) if year else None], evaluated when [_best_match] is
    called. *)
Definition jf_select (movies : list YTSMovie) (title_ : pystr)
  (year_ : result (option Z)) (imdb_id : pystr)
  : result (option YTSMovie) :=
  let match_ :=
    if truthy imdb_id then first_imdb_match movies imdb_id else None in
  match match_ with
  | Some m => Ok (Some m)
  | None => y <- year_ ;; Ok (_best_match movies title_ y)
  end.
End Engine.

(** ** Current quality *)

Definition QUALITY_TOKENS : list (pystr * Q) :=
  [(lit "2160p", 3); (lit "4k", 3); (lit "uhd", 3); (lit "1440p", 5 # 2);
   (lit "1080p", 2); (lit "1024p", 3 # 2); (lit "720p", 1)].

Fixpoint first_token (tokens : list (pystr * Q)) (s : pystr) : Q :=
  match tokens with
  | [] => 0
  | (token, rank) :: rest =>
      if contains s token then rank else first_token rest s
  end.

Definition _detect_current_quality (name : pystr) : Q :=
  first_token QUALITY_TOKENS (str_lower name).

Definition _rank_from_height (height : option Z) : Q :=
  match height with
  | None => 0
  | Some h =>
      if (h =? 0)%Z then 0
      else if (2160 <=? h)%Z then 3
      else if (1440 <=? h)%Z then 5 # 2
      else if (1080 <=? h)%Z then 2
      else if (720 <=? h)%Z then 1
      else 0
  end.

(** ** Locator *)

(** [s.encode('utf-8', 'strict')] for one code point of a [str] (below
    U+110000): the surrogates have no encoding. *)
#[local] Open Scope N_scope.
Definition utf8_encode_cp (c : codepoint) : result (list N) :=
  if c <? 0x80 then Ok [c]
  else if c <? 0x800 then Ok [0xC0 + c / 64; 0x80 + c mod 64]
  else if c <? 0x10000 then
    if in_range 0xD800 0xDFFF c
    then Raise (Exn UnicodeEncodeError (lit "surrogates not allowed") None None)
    else Ok [0xE0 + c / 4096; 0x80 + (c / 64) mod 64; 0x80 + c mod 64]
  else Ok [0xF0 + c / 262144; 0x80 + (c / 4096) mod 64;
           0x80 + (c / 64) mod 64; 0x80 + c mod 64].

Fixpoint utf8_encode (s : pystr) : result (list N) :=
  match s with
  | [] => Ok []
  | c :: t => b <- utf8_encode_cp c ;; bs <- utf8_encode t ;; Ok (b ++ bs)
  end.

Definition hex_digit (n : N) : codepoint :=
  if n <? 10 then 48 + n else 55 + n.

(** [urllib.parse.quote(s)] with its default [safe='/']. *)
Definition quote_byte (b : N) : pystr :=
  if (isdigit b || isupper_ascii b || in_range 97 122 b || N.eqb b 95
      || N.eqb b 46 || N.eqb b 45 || N.eqb b 126 || N.eqb b 47)%bool
  then [b]
  else [37; hex_digit (b / 16); hex_digit (b mod 16)].

Definition quote (s : pystr) : result pystr :=
  bs <- utf8_encode s ;; Ok (flat_map quote_byte bs).

#[local] Close Scope N_scope.

Definition magnet_from_torrent (title_ : pystr) (t : Torrent) : result pystr :=
  let name :=
    title_ ++ lit "." ++ or_empty (t_quality t) ++ lit "."
           ++ or_empty (t_type t) in
  let xt := lit "urn:btih:" ++ or_empty (t_hash t) in
  dn <- quote name ;; Ok (lit "magnet:?xt=" ++ xt ++ lit "&dn=" ++ dn).

(** ** Rows *)

(** A row of [csv.DictReader]. *)
Definition Row := list (pystr * pystr).

(** [row.get(k) or ''] and [row.get(k, '')]. *)
Definition get (row : Row) (k : string) : pystr := dict_get_or row (lit k) [].

(** [a or b] on strings. *)
Definition py_or (a b : pystr) : pystr := if truthy a then a else b.

(** [int(s)] for a [str] of charted code points: white space around, a
    sign, decimal digits with single underscores between them. *)
Fixpoint int_digits (s : pystr) (acc : Z) (after_digit : bool) : option Z :=
  match s with
  | [] => if after_digit then Some acc else None
  | c :: t =>
      if isdigit c then int_digits t (acc * 10 + Z.of_N (c - 48))%Z true
      else if (N.eqb c 95 && after_digit)%bool then int_digits t acc false
      else None
  end.

Definition py_int (s : pystr) : result Z :=
  let s := str_strip s in
  let parsed :=
    match s with
    | 43%N :: r => int_digits r 0%Z false
    | 45%N :: r => option_map Z.opp (int_digits r 0%Z false)
    | _ => int_digits s 0%Z false
    end in
  match parsed with
  | Some v => Ok v
  | None =>
      Raise (Exn ValueError (lit "invalid literal for int() with base 10")
                 None None)
  end.

(** [int(year) if year else None] *)
Definition int_or_none (year_ : pystr) : result (option Z) :=
  if truthy year_ then v <- py_int year_ ;; Ok (Some v) else Ok None.

Definition add_cols : list pystr :=
  [lit "yts_title"; lit "yts_year"; lit "yts_url";
   lit "yts_quality_available"; lit "yts_next_quality"; lit "magnet"].

(** The header: the keys of the first row, then the enrichment columns
    that are not among them. *)
Definition make_header (rows : list Row) : list pystr :=
  let orig := match rows with [] => [] | r :: _ => map fst r end in
  fold_left (fun h c => if existsb (str_eqb c) h then h else h ++ [c])
            add_cols orig.

(** [{k: row.get(k, '') for k in header}] *)
Definition project (header : list pystr) (row : Row) : Row :=
  fold_left (fun d k => dict_set d k (dict_get_or row k [])) header [].

(** [out_row.update(enriched)] *)
Definition update (out_row enriched : Row) : Row :=
  fold_left (fun d kv => dict_set d (fst kv) (snd kv)) enriched out_row.

(** [f"{q}.{typ}"] for one torrent. *)
Definition quality_label (t : Torrent) : pystr :=
  or_empty (t_quality t) ++ lit "." ++ or_empty (t_type t).

(** [sorted(set(l))]: the distinct strings of [l], ascending. *)
Fixpoint insert_str (x : pystr) (l : list pystr) : list pystr :=
  match l with
  | [] => [x]
  | y :: l' => if str_ltb y x then y :: insert_str x l' else x :: l
  end.

Fixpoint set_of (l : list pystr) : list pystr :=
  match l with
  | [] => []
  | x :: l' => if existsb (str_eqb x) l' then set_of l' else x :: set_of l'
  end.

Definition sorted_set (l : list pystr) : list pystr :=
  fold_right insert_str [] (set_of l).

(** ** Batch drivers *)

Section Batch.
Variable W : World.
Variable retries : Z.
Variable slow_after : Q.

(** *** [yts_lookup_from_csv] *)

(** [pre_match], [tmdb_key] and [omdb_key] after the defaults of the
    first lines have been filled in. *)
Variable pre_match : pystr.
Variable tmdb_key : pystr.
Variable omdb_key : option pystr.

(** [iid or imdb_id] *)
Definition id_or (a b : option pystr) : option pystr :=
  if truthy (or_empty a) then a else b.

Definition base_title_of (row : Row) : pystr :=
  str_strip
    (last (split_on 47
             (py_or (get row "title")
                (py_or (get row "title_guess")
                   (py_or (get row "folder_path") []))))
          []).

(** [mode == "..."] *)
Definition mode_is (mode : pystr) (m : string) : bool := str_eqb mode (lit m).

Definition task (row : Row) : result (option YTSMovie) :=
  let base_title := base_title_of row in
  y <- int_or_none (get row "year") ;;
  let mode := str_lower (py_or pre_match (lit "none")) in
  let st0 := (base_title, y, @None pystr) in
  (* tmdb: the only resolver inside a [try] *)
  st1 <-
    (if ((mode_is mode "tmdb" || mode_is mode "auto")
         && (truthy tmdb_key || mode_is mode "tmdb"))%bool
     then match tmdb_search W base_title y with
          | Ok (t, yy, iid) => Ok (t, yy, id_or iid None)
          | Raise _ => Ok st0
          | Interrupt => Interrupt
          end
     else Ok st0) ;;
  let imdb1 := snd st1 in
  st2 <-
    (if ((mode_is mode "omdb" || mode_is mode "auto")
         && (truthy (or_empty omdb_key) || mode_is mode "omdb")
         && negb (truthy (or_empty imdb1)))%bool
     then r <- omdb_lookup W base_title y ;;
          let '(t, yy, iid) := r in Ok (t, yy, id_or iid imdb1)
     else Ok st1) ;;
  let imdb2 := snd st2 in
  st3 <-
    (if ((mode_is mode "imdb-suggest" || mode_is mode "auto")
         && negb (truthy (or_empty imdb2)))%bool
     then r <- imdb_suggest_pick W base_title y ;;
          let '(t, yy, iid) := r in
          if (truthy t
              && (truthy (or_empty iid)
                  || negb (str_eqb (str_lower t) (str_lower base_title))
                  || (year_truthy yy
                      && negb (match yy, y with
                               | Some a, Some b => (a =? b)%Z
                               | None, None => true
                               | _, _ => false
                               end))))%bool
          then Ok (t, yy, id_or iid imdb2)
          else Ok st2
     else Ok st2) ;;
  let '(best_title, best_year, imdb_id) := st3 in
  movies <- fst (yts_search W retries slow_after best_title best_year) ;;
  Ok (task_select W movies best_title best_year imdb_id).

(** The loop over [match.torrents] of [process_one]. *)
Fixpoint torrents_loop (mtitle : pystr) (cur_rank : Q) (ts : list Torrent)
  (all_q kept_q kept_mag : list pystr)
  : result (list pystr * list pystr * list pystr) :=
  match ts with
  | [] => Ok (all_q, kept_q, kept_mag)
  | t :: rest =>
      let q := or_empty (t_quality t) in
      let all_q := all_q ++ [quality_label t] in
      let rank := quality_rank (str_lower q) in
      if Qgtb rank cur_rank then
        mag <- magnet_from_torrent mtitle t ;;
        torrents_loop mtitle cur_rank rest all_q
                      (kept_q ++ [quality_label t]) (kept_mag ++ [mag])
      else torrents_loop mtitle cur_rank rest all_q kept_q kept_mag
  end.

Definition empty_combined (src : pystr) : list pystr :=
  [src; []; []; []; []; []; []].

Definition process_one (row : Row) : result (list pystr) :=
  let src := py_or (get row "path") (py_or (get row "folder_path") []) in
  let cur_rank := _detect_current_quality src in
  match task row with
  | Raise _ => Ok (empty_combined src)
  | Interrupt => Interrupt
  | Ok None => Ok (empty_combined src)
  | Ok (Some match_) =>
      qs <- torrents_loop (title match_) cur_rank (torrents match_) [] [] [] ;;
      let '(all_q, _, _) := qs in
      let '(next_q, next_t) := _choose_next_quality match_ cur_rank in
      next_mag <-
        match next_t with
        | Some t => magnet_from_torrent (title match_) t
        | None => Ok []
        end ;;
      Ok [src; title match_; str_of_Z (year match_); url match_;
          join (lit "|") (sorted_set all_q); next_q; next_mag]
  end.

(** The enrichment a row already carries. *)
Definition carried (row : Row) : Row :=
  map (fun c => (c, dict_get_or row c [])) add_cols.

(** A row is skipped when it carries enrichment and [--refresh] is not
    given. *)
Definition skips (refresh : bool) (row : Row) : bool :=
  (negb refresh
   && (truthy (get row "yts_next_quality") || truthy (get row "magnet")
       || truthy (get row "yts_title")))%bool.

(** The body of the write loop for one row: the row written, or the
    [KeyboardInterrupt] raised again. *)
Definition write_row (refresh : bool) (header : list pystr) (row : Row)
  : result Row :=
  enriched <-
    (if skips refresh row
     then Ok (carried row)
     else match process_one row with
          | Ok combined =>
              Ok [(lit "yts_title", nth 1 combined []);
                  (lit "yts_year", nth 2 combined []);
                  (lit "yts_url", nth 3 combined []);
                  (lit "yts_quality_available", nth 4 combined []);
                  (lit "yts_next_quality", nth 5 combined []);
                  (lit "magnet", nth 6 combined [])]
          | Interrupt => Interrupt
          | Raise _ => Ok (carried row)
          end) ;;
  Ok (update (project header row) enriched).

(** The write loop: the rows written so far, and how the loop ended. *)
Fixpoint write_loop (refresh : bool) (header : list pystr) (rows : list Row)
  : list Row * result unit :=
  match rows with
  | [] => ([], Ok tt)
  | row :: rest =>
      match write_row refresh header row with
      | Ok out_row =>
          let '(written, r) := write_loop refresh header rest in
          (out_row :: written, r)
      | Raise e => ([], Raise e)
      | Interrupt => ([], Interrupt)
      end
  end.

Definition yts_lookup_from_csv (refresh : bool) (rows : list Row)
  : list Row * result unit :=
  write_loop refresh (make_header rows) rows.

(** *** [yts_lookup_from_jf_csv] *)

(** [max_height] as an [int], when it is a string of digits. *)
Definition height_of (row : Row) : option Z :=
  let h := get row "max_height" in
  if (truthy h && forallb isdigit h)%bool then
    match py_int h with Ok v => Some v | _ => None end
  else None.

Definition jf_row (header : list pystr) (row : Row) : result Row :=
  let title_ := py_or (get row "name") (py_or (get row "title") []) in
  let year_ := get row "year" in
  let imdb_id := str_strip (get row "imdb_id") in
  let height := height_of row in
  let cur_rank := _rank_from_height height in
  if match height with Some h => (720 <=? h)%Z | None => false end
  then Ok (update (project header row)
                  (filter (fun kv => negb (dict_mem (project header row) (fst kv)))
                          (map (fun c => (c, [])) add_cols)))
  else
    movies <-
      (if truthy imdb_id
       then fst (yts_search_by_imdb W retries slow_after imdb_id)
       else y <- int_or_none year_ ;;
            fst (yts_search W retries slow_after title_ y)) ;;
    match_ <- jf_select W movies title_ (int_or_none year_) imdb_id ;;
    enriched <-
      match match_ with
      | None => Ok (map (fun c => (c, [])) add_cols)
      | Some m =>
          let all_q := map quality_label (torrents m) in
          let '(want_q, next_tor) := _choose_next_quality m cur_rank in
          mag <-
            match next_tor with
            | Some t => magnet_from_torrent (title m) t
            | None => Ok []
            end ;;
          Ok [(lit "yts_title", title m);
              (lit "yts_year",
               if (year m =? 0)%Z then [] else str_of_Z (year m));
              (lit "yts_url", url m);
              (lit "yts_quality_available", join (lit ",") all_q);
              (lit "yts_next_quality", want_q);
              (lit "magnet", mag)]
      end ;;
    Ok (update (project header row) enriched).

Fixpoint jf_loop (header : list pystr) (rows : list Row)
  : list Row * result unit :=
  match rows with
  | [] => ([], Ok tt)
  | row :: rest =>
      match jf_row header row with
      | Ok out_row =>
          let '(written, r) := jf_loop header rest in
          (out_row :: written, r)
      | Raise e => ([], Raise e)
      | Interrupt => ([], Interrupt)
      end
  end.

Definition yts_lookup_from_jf_csv (rows : list Row) : list Row * result unit :=
  jf_loop (make_header rows) rows.
End Batch.

(** ** Console tables *)

(** [s.ljust(width)] *)
Definition ljust (s : pystr) (width : nat) : pystr :=
  s ++ repeat 32%N (width - List.length s).

(** The [widths] of [_render_table]: for each column, the greatest
    length among its heading and its values. *)
Definition table_widths (rows : list Row) (columns : list (pystr * pystr))
  : list nat :=
  map (fun col =>
         fold_left
           (fun max_len row =>
              Nat.max max_len (List.length (dict_get_or row (snd col) [])))
           rows (List.length (fst col)))
      columns.

Definition fmt_row (columns : list (pystr * pystr)) (widths : list nat)
  (row : Row) : pystr :=
  join (lit " | ")
       (map (fun cw => ljust (dict_get_or row (snd (fst cw)) []) (snd cw))
            (combine columns widths)).

(** [[header_line, sep_line, *body]] *)
Definition table_lines (rows : list Row) (columns : list (pystr * pystr))
  : list pystr :=
  let widths := table_widths rows columns in
  let header_line :=
    join (lit " | ")
         (map (fun cw => ljust (fst (fst cw)) (snd cw))
              (combine columns widths)) in
  let sep_line := join (lit "-+-") (map (fun w => repeat 45%N w) widths) in
  header_line :: sep_line :: map (fmt_row columns widths) rows.

Definition _render_table (rows : list Row) (columns : list (pystr * pystr))
  : pystr :=
  match rows with
  | [] => []
  | _ :: _ => join [10%N] (table_lines rows columns)
  end.

(** ** Notions of the statements and of their proofs *)

(** What holds of every list of [by_quality]: it is not empty, its key is
    not empty, and its torrents are torrents of the movie whose
    lower-cased quality is the key. *)
Definition group_ok (ts : list Torrent) (kv : pystr * list Torrent) : Prop :=
  snd kv <> [] /\ fst kv <> [] /\
  forall t, In t (snd kv) ->
            In t ts /\ str_lower (or_empty (t_quality t)) = fst kv.

(** The lower case of a code point other than U+0130 is one code point. *)
Definition lower1 (c : codepoint) : codepoint :=
  if isupper_ascii c then (c + 32)%N else c.

(** What the normalizer lets through before it lower-cases: a space, or
    an alphanumeric code point other than U+0130. *)
Definition kept (c : codepoint) : Prop :=
  c = 32%N \/ (isalnum c = true /\ c <> 0x130%N).

(** What a normalized title is made of: a space, or a lower-case
    alphanumeric code point. *)
Definition settled (c : codepoint) : Prop :=
  c = 32%N \/ (isalnum c = true /\ c <> 0x130%N /\ isupper_ascii c = false).

(** No white space but single spaces; [after_space] forbids a space at
    the front. *)
Fixpoint single_spaced (after_space : bool) (s : pystr) : bool :=
  match s with
  | [] => true
  | c :: t =>
      if isspace c
      then (N.eqb c 32 && negb after_space && single_spaced true t)%bool
      else single_spaced false t
  end.

(** The normalizer up to, and without, the final [lower()]. *)
Definition prepared (s : pystr) : pystr :=
  str_strip
    (sub_runs isspace false
       (sub_punct (sub_paren_year (sub_runs is_dot_or_underscore false s)))).

(** [a < b] on strings, as a relation. *)
Definition str_lt (a b : pystr) : Prop := str_ltb a b = true.

(** The requests and sleeps of one mirror on which [retries_made]
    retries follow the first attempt: the attempts are numbered from
    [attempt + 1], and the sleep after attempt [k] lasts
    [0.75 * 2^(k-1)] seconds. *)
Fixpoint paced_attempts (base : pystr) (attempt : Z) (retries_made : nat)
  : list event :=
  match retries_made with
  | O => [Get base (attempt + 1)%Z]
  | S n =>
      Get base (attempt + 1)%Z
        :: Sleep base (attempt + 1)%Z (Qmake (3 * 2 ^ attempt) 4)
        :: paced_attempts base (attempt + 1)%Z n
  end.

(** The trace of a search that visits the first mirrors of [bases] and
    makes [ns] retries on them, mirror by mirror. *)
Fixpoint paced_search (bases : list pystr) (ns : list nat) : list event :=
  match bases, ns with
  | base :: bases', n :: ns' =>
      paced_attempts base 0 n ++ paced_search bases' ns'
  | _, _ => []
  end.

(** Two external identifiers are the same up to case. *)
Definition same_id (m : YTSMovie) (imdb_id : pystr) : Prop :=
  str_lower (imdb_code m) = str_lower imdb_id.

(** "Duplicates removed keeping the first occurrence": the head stays and
    its later copies go. *)
Fixpoint keep_first (l : list pystr) : list pystr :=
  match l with
  | [] => []
  | x :: t => x :: filter (fun y => negb (str_eqb y x)) (keep_first t)
  end.

(** [b in l] for a list of strings. *)
Definition mem (b : pystr) (l : list pystr) : bool := existsb (str_eqb b) l.

(** The configured roots: the non-empty, stripped items of the
    comma-separated value. *)
Definition configured_roots (getenv : option pystr) : list pystr :=
  filter truthy (map str_strip (split_on 44 (str_strip (or_empty getenv)))).

(** A world in which no mirror serves the API and no identity service
    refines anything. *)
Definition silent_world : World :=
  {| YTS_API_BASE := None;
     http_get := fun _ _ _ => NotJson;
     sequence_ratio := fun _ _ => 0;
     tmdb_search := fun t y => Ok (t, y, None);
     omdb_lookup := fun t y => Ok (t, y, None);
     imdb_suggest_pick := fun t y => Ok (t, y, None) |}.

Definition mk_movie (n : Z) (t : string) (y : Z) (r : Q) (code : string)
  (ts : list Torrent) : YTSMovie :=
  {| id := n; title := lit t; year := y; url := lit "https://yts.mx/movies/x";
     torrents := ts; rating := r; imdb_code := lit code |}.

(** Three candidates: the second and the third carry the wanted
    identifier, the first has the best rating. *)
Definition three_candidates : list YTSMovie :=
  [mk_movie 1 "The Matrix Revisited" 2001 9 "tt0295432" [];
   mk_movie 2 "Matrix" 1999 1 "TT0133093" [];
   mk_movie 3 "The Matrix" 1999 (87 # 10) "tt0133093" []].

(** A world without name resolution: every request fails with a
    connection error caused by a [NameResolutionError]. *)
Definition no_dns_world : World :=
  {| YTS_API_BASE := Some (lit "https://yts.example, yts.rs/");
     http_get := fun _ _ _ =>
       Failed (Exn ConnectionError (lit "Max retries exceeded")
                   (Some (Exn NameResolutionError
                              (lit "Failed to resolve host") None None))
                   None);
     sequence_ratio := fun _ _ => 0;
     tmdb_search := fun t y => Ok (t, y, None);
     omdb_lookup := fun t y => Ok (t, y, None);
     imdb_suggest_pick := fun t y => Ok (t, y, None) |}.

(** A world whose mirrors time out twice, then answer slowly once, then
    answer at once. *)
Definition flaky_world : World :=
  {| YTS_API_BASE := None;
     http_get := fun _ _ attempt =>
       if (attempt <=? 2)%Z
       then Failed (Exn Timeout (lit "Read timed out.") None None)
       else if (attempt =? 3)%Z then Json [] 9 else Json [] (1 # 2);
     sequence_ratio := fun _ _ => 0;
     tmdb_search := fun t y => Ok (t, y, None);
     omdb_lookup := fun t y => Ok (t, y, None);
     imdb_suggest_pick := fun t y => Ok (t, y, None) |}.

(** A world whose mirrors all return the one movie [m]. *)
Definition world_returning (m : YTSMovie) : World :=
  {| YTS_API_BASE := None;
     http_get := fun _ _ _ => Json [m] (1 # 10);
     sequence_ratio := fun _ _ => 1;
     tmdb_search := fun t y => Ok (t, y, None);
     omdb_lookup := fun t y => Ok (t, y, None);
     imdb_suggest_pick := fun t y => Ok (t, y, None) |}.

Definition mk_row (fields : list (string * string)) : Row :=
  map (fun kv => (lit (fst kv), lit (snd kv))) fields.

(** A movie with two 1080p web encodes. *)
Definition two_encodes : YTSMovie :=
  mk_movie 7 "Heat" 1995 (83 # 10) "tt0113277"
    [mk_torrent "1080p" "web"; mk_torrent "720p" "web";
     mk_torrent "1080p" "web"].

(** The same movie with its torrents in another order. *)
Definition two_encodes_reordered : YTSMovie :=
  mk_movie 7 "Heat" 1995 (83 # 10) "tt0113277"
    [mk_torrent "720p" "web"; mk_torrent "1080p" "web";
     mk_torrent "1080p" "web"].

#[local] Open Scope string_scope.

Definition jf_heat_row : Row :=
  mk_row [("name", "Heat"); ("year", "1995"); ("max_height", "480");
          ("imdb_id", EmptyString)].

Definition csv_heat_row : Row :=
  mk_row [("title", "Heat"); ("year", "1995");
          ("path", "/movies/Heat (1995)/Heat.avi")].

(** A row whose year is not a number. *)
Definition bad_year_row : Row :=
  mk_row [("title", "Heat"); ("year", "19xx");
          ("path", "/movies/Heat/Heat.avi"); ("yts_url", "https://old")].

#[local] Close Scope string_scope.


Definition enriched_row : Row :=
  mk_row [("title", "Heat"); ("year", "1995");
          ("path", "/movies/Heat (1995)/Heat.avi");
          ("yts_title", "Heat"); ("yts_year", "1995");
          ("yts_url", "https://yts.mx/movies/heat-1995");
          ("yts_quality_available", "720p.bluray");
          ("yts_next_quality", "720p");
          ("magnet", "magnet:?xt=urn:btih:AB")]%string.

(** The value of one column in the rows a driver wrote. *)
Definition column (c : string) (out : list Row * result unit)
  : list (option pystr) :=
  map (fun row => dict_get row (lit c)) (fst out).

(** ** Notions of the further properties *)

(** [(t.get("quality") or '').lower()] *)
Definition lowered_quality (t : Torrent) : pystr :=
  str_lower (or_empty (t_quality t)).

(** [(t.get("type") or '').lower() == "bluray"] *)
Definition is_bluray (t : Torrent) : bool :=
  str_eqb (str_lower (or_empty (t_type t))) (lit "bluray").

(** The torrents of quality [k], in the order of the movie's list. *)
Definition group_of (ts : list Torrent) (k : pystr) : list Torrent :=
  filter (fun t => (truthy (lowered_quality t)
                    && str_eqb (lowered_quality t) k)%bool) ts.

(** A group with its bluray torrents in front, both parts in list
    order. *)
Definition bluray_first (g : list Torrent) : list Torrent :=
  filter is_bluray g ++ filter (fun t => negb (is_bluray t)) g.

(** The ladder that applies to a movie. *)
Definition ladder_of (m : YTSMovie) : list pystr :=
  if Qle_bool RATING_UHD_THRESHOLD (rating m)
  then PREF_QUALITIES_HIGH else PREF_QUALITIES_DEFAULT.

(** A quality is an upgrade a movie offers when it ranks above the
    current rank and one of the movie's torrents has it. *)
Definition offers (m : YTSMovie) (cur_rank : Q) (k : pystr) : Prop :=
  cur_rank < quality_rank k /\ group_of (torrents m) k <> [].

(** A movie rated below the threshold whose best encodes are outside its
    ladder. *)
Definition low_rated_movie : YTSMovie :=
  {| id := 2; title := lit "Example"; year := 2020; url := [];
     torrents := [mk_torrent "1440p" "web"; mk_torrent "2160P" "web";
                  mk_torrent "2160p" "bluray"];
     rating := 5; imdb_code := [] |}.

(** The test of the [same_year] comprehension of [_best_match]: a target
    year was given (and is not 0) and the movie has it. *)
Definition wanted_year (year_ : option Z) (m : YTSMovie) : bool :=
  match year_ with
  | Some y => (year_truthy year_ && (year m =? y)%Z)%bool
  | None => false
  end.

(** The outcomes after which the client asks the same mirror again (when
    retries are left): an exception that is not a name-resolution failure,
    and an answer that took [slow_after] seconds or more. *)
Definition retryable (slow_after : Q) (o : outcome) : bool :=
  match o with
  | Failed e => negb (_is_dns_error e)
  | Json _ elapsed => Qle_bool slow_after elapsed
  | NotJson | Interrupted => false
  end.



(** The code points U+D800 to U+DFFF, which UTF-8 does not encode. *)
Definition is_surrogate (c : codepoint) : bool := in_range 0xD800 0xDFFF c.

(** The [name] of [magnet_from_torrent]. *)
Definition magnet_name (title_ : pystr) (t : Torrent) : pystr :=
  title_ ++ lit "." ++ or_empty (t_quality t) ++ lit "."
         ++ or_empty (t_type t).

(** The characters of a quoted string: the ASCII letters and digits, and
    [_ . - ~ / %]. *)
Definition url_safe (c : codepoint) : bool :=
  (isdigit c || isupper_ascii c || in_range 97 122 c || N.eqb c 95
   || N.eqb c 46 || N.eqb c 45 || N.eqb c 126 || N.eqb c 47
   || N.eqb c 37)%bool.

(** [list(rows[0].keys()) if rows else []] *)
Definition orig_header (rows : list Row) : list pystr :=
  match rows with [] => [] | r :: _ => map fst r end.

(** A world in which every request is interrupted from the keyboard. *)
Definition interrupted_world : World :=
  {| YTS_API_BASE := None;
     http_get := fun _ _ _ => Interrupted;
     sequence_ratio := fun _ _ => 0;
     tmdb_search := fun t y => Ok (t, y, None);
     omdb_lookup := fun t y => Ok (t, y, None);
     imdb_suggest_pick := fun t y => Ok (t, y, None) |}.

#[local] Open Scope string_scope.
(** A library row that is already at 1080 lines. *)
Definition jf_good_row : Row :=
  mk_row [("name", "Heat"); ("year", "1995"); ("max_height", "1080");
          ("imdb_id", "tt0113277"); ("magnet", "magnet:?xt=urn:btih:AB")].
#[local] Close Scope string_scope.

(* ================================================================== *)
(** * Part II. Properties *)
(* ================================================================== *)

(** ** Strings and ranks *)

Lemma str_eqb_eq (a b : pystr) : str_eqb a b = true <-> a = b.
Proof.
  revert b; induction a as [|x a IH]; intros [|y b]; simpl;
    try (split; [discriminate | intros H; discriminate H]); try tauto.
  rewrite andb_true_iff, N.eqb_eq, IH.
  split; [intros [-> ->]; reflexivity | intros H; inversion H; auto].
Qed.

Lemma str_eqb_refl (a : pystr) : str_eqb a a = true.
Proof. apply str_eqb_eq; reflexivity. Qed.

Lemma str_eqb_neq (a b : pystr) : str_eqb a b = false <-> a <> b.
Proof.
  rewrite <- str_eqb_eq. destruct (str_eqb a b); split; congruence.
Qed.

Lemma Qgtb_lt (a b : Q) : Qgtb a b = true <-> b < a.
Proof.
  unfold Qgtb. rewrite negb_true_iff.
  destruct (Qle_bool a b) eqn:E.
  - apply Qle_bool_iff in E. split; [discriminate|].
    intros H. exfalso. exact (Qlt_not_le _ _ H E).
  - split; [intros _|reflexivity].
    apply Qnot_le_lt. intros H. apply Qle_bool_iff in H. congruence.
Qed.

Lemma in_range_spec (lo hi c : N) :
  in_range lo hi c = true <-> (lo <= c /\ c <= hi)%N.
Proof. unfold in_range. rewrite andb_true_iff, !N.leb_le. tauto. Qed.

(** The lower case of a code point is lower case already. *)
Lemma lower_cp_fixed (c d : codepoint) :
  In d (lower_cp c) -> lower_cp d = [d].
Proof.
  unfold lower_cp.
  destruct (isupper_ascii c) eqn:U.
  - apply in_range_spec in U. intros [<-|[]].
    destruct (isupper_ascii (c + 32)) eqn:U'.
    + apply in_range_spec in U'. lia.
    + destruct (N.eqb_spec (c + 32) 0x130); [lia|reflexivity].
  - destruct (N.eqb_spec c 0x130) as [->|Hc].
    + intros [<-|[<-|[]]]; reflexivity.
    + intros [<-|[]]. rewrite U.
      destruct (N.eqb_spec c 0x130); [contradiction|reflexivity].
Qed.

Lemma str_lower_fixed (s : pystr) :
  (forall d, In d s -> lower_cp d = [d]) -> str_lower s = s.
Proof.
  induction s as [|c s IH]; intros H; simpl; [reflexivity|].
  rewrite (H c (or_introl eq_refl)). simpl. f_equal.
  apply IH. intros d Hd. apply H. right; exact Hd.
Qed.

(** [s.lower().lower() == s.lower()] *)
Lemma str_lower_idem (s : pystr) : str_lower (str_lower s) = str_lower s.
Proof.
  apply str_lower_fixed. intros d Hd.
  apply in_flat_map in Hd. destruct Hd as [c [_ Hd]].
  exact (lower_cp_fixed c d Hd).
Qed.

Lemma truthy_true (s : pystr) : truthy s = true <-> s <> [].
Proof. destruct s; simpl; split; congruence. Qed.

(** ** Dictionaries *)

Lemma dict_get_In {V} (d : list (pystr * V)) (k : pystr) (v : V) :
  dict_get d k = Some v -> In (k, v) d.
Proof.
  induction d as [|[k' v'] d IH]; simpl; [discriminate|].
  destruct (str_eqb k' k) eqn:E.
  - apply str_eqb_eq in E. intros H; inversion H; subst. left; reflexivity.
  - intros H. right. exact (IH H).
Qed.


Lemma dict_get_set_other {V} (d : list (pystr * V)) (k k' : pystr) (v : V) :
  k <> k' -> dict_get (dict_set d k v) k' = dict_get d k'.
Proof.
  intros Hk. induction d as [|[k0 v0] d IH]; simpl.
  - apply str_eqb_neq in Hk. rewrite Hk. reflexivity.
  - destruct (str_eqb k0 k) eqn:E; simpl.
    + apply str_eqb_eq in E. subst k0. apply str_eqb_neq in Hk.
      rewrite Hk. reflexivity.
    + rewrite IH. reflexivity.
Qed.

Lemma update_get_other (d e : Row) (c : pystr) :
  ~ In c (map fst e) -> dict_get (update d e) c = dict_get d c.
Proof.
  unfold update. revert d. induction e as [|[k v] e IH]; intros d H; simpl.
  - reflexivity.
  - rewrite IH by (intros Hin; apply H; right; exact Hin).
    apply dict_get_set_other. intros ->. apply H. left; reflexivity.
Qed.


Lemma add_cols_NoDup : NoDup add_cols.
Proof.
  unfold add_cols.
  repeat (constructor;
          [simpl; intros H;
           repeat (destruct H as [H|H]; [vm_compute in H; discriminate H|]);
           exact H|]).
  constructor.
Qed.

(** ** The quality-upgrade resolver *)

Lemma setdefault_append_ok ts d q t :
  Forall (group_ok ts) d -> In t ts -> q <> [] ->
  str_lower (or_empty (t_quality t)) = q ->
  Forall (group_ok ts) (setdefault_append d q t).
Proof.
  intros Hd Ht Hq Hl. induction Hd as [|[k arr] d Hk Hd IH]; simpl.
  - constructor; [|constructor]. split; [discriminate|]. split; [exact Hq|].
    simpl. intros t' [<-|[]]. split; assumption.
  - destruct (str_eqb k q) eqn:E.
    + apply str_eqb_eq in E. subst k. constructor; [|exact Hd].
      destruct Hk as (_ & Hk2 & Hk3). split; [|split; [exact Hk2|]]; simpl.
      * intros H. apply app_eq_nil in H. destruct H as [_ H]. discriminate.
      * intros t' Ht'. apply in_app_or in Ht'. destruct Ht' as [Ht'|[<-|[]]].
        -- exact (Hk3 t' Ht').
        -- split; assumption.
    + constructor; assumption.
Qed.

Lemma group_by_quality_ok_gen ts0 ts d :
  incl ts ts0 -> Forall (group_ok ts0) d ->
  Forall (group_ok ts0)
    (fold_left
       (fun d t =>
          let q := str_lower (or_empty (t_quality t)) in
          if truthy q then setdefault_append d q t else d) ts d).
Proof.
  revert d. induction ts as [|t ts IH]; intros d Hi Hd; simpl; [exact Hd|].
  apply IH.
  - intros x Hx. apply Hi. right; exact Hx.
  - destruct (truthy (str_lower (or_empty (t_quality t)))) eqn:E; [|exact Hd].
    apply setdefault_append_ok; auto.
    + apply Hi. left; reflexivity.
    + apply truthy_true. exact E.
Qed.

Lemma insert_by_key_In {A} (key : A -> nat) (x y : A) (l : list A) :
  In y (insert_by_key key x l) <-> y = x \/ In y l.
Proof.
  induction l as [|z l IH]; simpl.
  - intuition.
  - destruct (Nat.leb (key x) (key z)); simpl; rewrite ?IH; intuition.
Qed.

Lemma sort_by_key_In {A} (key : A -> nat) (y : A) (l : list A) :
  In y (sort_by_key key l) <-> In y l.
Proof.
  induction l as [|x l IH]; simpl; [tauto|].
  rewrite insert_by_key_In, IH. intuition.
Qed.

Lemma sort_by_key_nonempty {A} (key : A -> nat) (l : list A) :
  l <> [] -> sort_by_key key l <> [].
Proof.
  destruct l as [|x l]; [congruence|]. intros _ H.
  assert (Hx : In x (sort_by_key key (x :: l)))
    by (apply sort_by_key_In; left; reflexivity).
  rewrite H in Hx. exact Hx.
Qed.

Lemma by_quality_ok (ts : list Torrent) :
  Forall (group_ok ts) (sort_groups (group_by_quality ts)).
Proof.
  assert (H : Forall (group_ok ts) (group_by_quality ts))
    by (apply group_by_quality_ok_gen; [apply incl_refl|constructor]).
  unfold sort_groups. induction H as [|[k arr] d (H1 & H2 & H3) _ IH]; simpl.
  - constructor.
  - constructor; [|exact IH]. split; [|split; [exact H2|]]; simpl in *.
    + apply sort_by_key_nonempty. exact H1.
    + intros t Ht. apply H3. apply sort_by_key_In in Ht. exact Ht.
Qed.

(** [by_quality[qk][0]] exists whenever [qk in by_quality]. *)
Lemma first_of_group ts d qk :
  Forall (group_ok ts) d -> dict_mem d qk = true ->
  exists t, first_of d qk = Some t /\ In t ts
            /\ str_lower (or_empty (t_quality t)) = qk.
Proof.
  intros Hd. unfold dict_mem, first_of.
  destruct (dict_get d qk) as [arr|] eqn:E; [intros _|discriminate].
  apply dict_get_In in E. rewrite Forall_forall in Hd.
  destruct (Hd _ E) as (H1 & _ & H3). simpl in *.
  destruct arr as [|t arr]; [congruence|].
  exists t. split; [reflexivity|]. apply H3. left; reflexivity.
Qed.

Lemma ladder_Some pref d r want tor :
  ladder pref d r = Some (want, tor) ->
  In want pref /\ r < quality_rank (str_lower want)
  /\ dict_mem d (str_lower want) = true /\ tor = first_of d (str_lower want).
Proof.
  induction pref as [|w pref IH]; simpl; [discriminate|].
  destruct (Qgtb (quality_rank (str_lower w)) r
            && dict_mem d (str_lower w))%bool eqn:E.
  - intros H; inversion H; subst. apply andb_true_iff in E. destruct E as [E1 E2].
    apply Qgtb_lt in E1. auto.
  - intros H. destruct (IH H) as (? & ? & ? & ?). auto.
Qed.

Lemma fallback_candidates_In d r x :
  In x (fallback_candidates d r) ->
  exists qk arr, In (qk, arr) d /\ x = (quality_rank qk, qk, hd_error arr)
                 /\ r < quality_rank qk.
Proof.
  induction d as [|[qk arr] d IH]; simpl; [intros []|].
  destruct (Qgtb (quality_rank qk) r) eqn:E.
  - intros [<-|H].
    + exists qk, arr. apply Qgtb_lt in E. auto.
    + destruct (IH H) as (q & a & ? & ? & ?). exists q, a. auto.
  - intros H. destruct (IH H) as (q & a & ? & ? & ?). exists q, a. auto.
Qed.

Lemma insert_desc_In x y l : In y (insert_desc x l) <-> y = x \/ In y l.
Proof.
  induction l as [|z l IH]; simpl.
  - intuition.
  - destruct (cand_ltb x z); simpl; rewrite ?IH; intuition.
Qed.

Lemma sort_desc_In y l : In y (sort_desc l) <-> In y l.
Proof.
  induction l as [|x l IH]; simpl; [tauto|].
  rewrite insert_desc_In, IH. intuition.
Qed.

(** The labels of the two ladders are lower case and known to
    [QUALITY_RANK]. *)
Lemma pref_labels m want :
  In want (if Qle_bool RATING_UHD_THRESHOLD (rating m)
           then PREF_QUALITIES_HIGH else PREF_QUALITIES_DEFAULT) ->
  str_lower want = want /\ truthy want = true.
Proof.
  destruct (Qle_bool RATING_UHD_THRESHOLD (rating m)); simpl;
    intros H; repeat (destruct H as [<-|H]; [split; reflexivity|]);
    destruct H.
Qed.

(** C1 (upgrade only).  For every movie and every current rank,
    [_choose_next_quality] returns either the empty label and no variant,
    or a label whose rank in [QUALITY_RANK] is strictly greater than the
    current rank. *)
Theorem choose_next_quality_exceeds_rank (m : YTSMovie) (cur_rank : Q) :
  (fst (_choose_next_quality m cur_rank) = []
   /\ snd (_choose_next_quality m cur_rank) = None)
  \/ cur_rank < quality_rank (fst (_choose_next_quality m cur_rank)).
Proof.
  unfold _choose_next_quality.
  set (d := sort_groups (group_by_quality (torrents m))).
  set (pref := if Qle_bool RATING_UHD_THRESHOLD (rating m)
               then PREF_QUALITIES_HIGH else PREF_QUALITIES_DEFAULT).
  destruct (ladder pref d cur_rank) as [[want tor]|] eqn:L.
  - right. apply ladder_Some in L. destruct L as (Hin & Hr & _).
    apply pref_labels in Hin. destruct Hin as [Hl _].
    simpl. rewrite Hl in Hr. exact Hr.
  - destruct (sort_desc (fallback_candidates d cur_rank))
      as [|[[rk qk] tor] rest] eqn:S.
    + left. split; reflexivity.
    + right. simpl.
      assert (Hin : In (rk, qk, tor) (fallback_candidates d cur_rank)).
      { apply sort_desc_In. rewrite S. left; reflexivity. }
      apply fallback_candidates_In in Hin.
      destruct Hin as (q & a & _ & Heq & Hr). inversion Heq; subst.
      exact Hr.
Qed.

(** C6 (the two scenarios).  For the movie rated 8.0 with the variants
    1080p/web, 2160p/bluray and 720p/web: at current rank 1 the result is
    the label ["2160p"] with the 2160p bluray variant; at current rank 3
    it is the empty label and no variant. *)
Theorem choose_next_quality_scenarios :
  _choose_next_quality scenario_movie 1
  = (lit "2160p", Some (mk_torrent "2160p" "bluray"))
  /\ _choose_next_quality scenario_movie 3 = ([], None).
Proof. split; vm_compute; reflexivity. Qed.

(** C10 (the variant belongs to the label).  For every movie and every
    current rank: when [_choose_next_quality] returns a variant, the
    variant is one of the movie's torrents, its quality lower-cased is the
    returned label lower-cased, and the label is not empty; when it
    returns no variant, the label is empty. *)
Theorem choose_next_quality_variant (m : YTSMovie) (cur_rank : Q) :
  match _choose_next_quality m cur_rank with
  | (label, Some t) =>
      In t (torrents m)
      /\ str_lower (or_empty (t_quality t)) = str_lower label
      /\ truthy label = true
  | (label, None) => label = []
  end.
Proof.
  unfold _choose_next_quality.
  pose proof (by_quality_ok (torrents m)) as Hd.
  set (d := sort_groups (group_by_quality (torrents m))) in *.
  set (pref := if Qle_bool RATING_UHD_THRESHOLD (rating m)
               then PREF_QUALITIES_HIGH else PREF_QUALITIES_DEFAULT).
  destruct (ladder pref d cur_rank) as [[want tor]|] eqn:L.
  - apply ladder_Some in L. destruct L as (Hin & _ & Hm & ->).
    destruct (first_of_group _ Hd Hm) as (t & -> & Ht & Hq).
    apply pref_labels in Hin. destruct Hin as [_ Hw]. auto.
  - destruct (sort_desc (fallback_candidates d cur_rank))
      as [|[[rk qk] tor] rest] eqn:S; [reflexivity|].
    assert (Hin : In (rk, qk, tor) (fallback_candidates d cur_rank)).
    { apply sort_desc_In. rewrite S. left; reflexivity. }
    apply fallback_candidates_In in Hin.
    destruct Hin as (q & a & Hqa & Heq & _). inversion Heq; subst.
    rewrite Forall_forall in Hd. destruct (Hd _ Hqa) as (H1 & H2 & H3).
    simpl in *. destruct a as [|t a]; [congruence|]. simpl.
    destruct (H3 t (or_introl eq_refl)) as [Ht Hq].
    split; [exact Ht|]. split.
    + rewrite <- Hq. symmetry. apply str_lower_idem.
    + apply truthy_true. exact H2.
Qed.

(** ** The candidate selector *)

Lemma first_imdb_match_first movies imdb_id pre m post :
  movies = pre ++ m :: post -> same_id m imdb_id ->
  (forall m', In m' pre -> ~ same_id m' imdb_id) ->
  first_imdb_match movies imdb_id = Some m.
Proof.
  intros -> Hm. induction pre as [|x pre IH]; intros Hpre; simpl.
  - unfold same_id in Hm. rewrite Hm, str_eqb_refl. reflexivity.
  - destruct (str_eqb (str_lower (imdb_code x)) (str_lower imdb_id)) eqn:E.
    + apply str_eqb_eq in E. exfalso. apply (Hpre x); [left; reflexivity|exact E].
    + apply IH. intros m' Hm'. apply Hpre. right; exact Hm'.
Qed.

Lemma first_imdb_match_none movies imdb_id :
  (forall m, In m movies -> ~ same_id m imdb_id) ->
  first_imdb_match movies imdb_id = None.
Proof.
  induction movies as [|x movies IH]; intros H; simpl; [reflexivity|].
  destruct (str_eqb (str_lower (imdb_code x)) (str_lower imdb_id)) eqn:E.
  - apply str_eqb_eq in E. exfalso. apply (H x); [left; reflexivity|exact E].
  - apply IH. intros m Hm. apply H. right; exact Hm.
Qed.

(** C2 (an exact identifier wins).  For every world (so for every rating
    and every title similarity), every candidate list and every non-empty
    identifier: when a candidate carries the identifier up to case, both
    drivers select the first such candidate of the list, and
    [yts_lookup_from_jf_csv] does so even when the year it would hand to
    [_best_match] does not parse; when no candidate carries it, both
    select what [_best_match] selects. *)
Theorem exact_id_match_dominates (W : World) (movies : list YTSMovie)
  (title_ : pystr) (year_ : option Z) (imdb_id : pystr) :
  truthy imdb_id = true ->
  (forall pre m post,
      movies = pre ++ m :: post -> same_id m imdb_id ->
      (forall m', In m' pre -> ~ same_id m' imdb_id) ->
      task_select W movies title_ year_ (Some imdb_id) = Some m
      /\ forall year_jf,
          jf_select W movies title_ year_jf imdb_id = Ok (Some m))
  /\ ((forall m, In m movies -> ~ same_id m imdb_id) ->
      task_select W movies title_ year_ (Some imdb_id)
      = _best_match W movies title_ year_
      /\ forall year_jf,
          jf_select W movies title_ year_jf imdb_id
          = (y <- year_jf ;; Ok (_best_match W movies title_ y))).
Proof.
  intros Hid. unfold task_select, jf_select. simpl. rewrite Hid. split.
  - intros pre m post Hm Hs Hpre.
    rewrite (@first_imdb_match_first movies imdb_id pre m post Hm Hs Hpre). auto.
  - intros Hnone. rewrite (@first_imdb_match_none movies imdb_id Hnone). auto.
Qed.

Lemma exact_id_match_dominates_witness :
  task_select silent_world three_candidates (lit "The Matrix") (Some 1999%Z)
              (Some (lit "tt0133093"))
  = Some (mk_movie 2 "Matrix" 1999 1 "TT0133093" []).
Proof.
  refine (proj1 (proj1 (@exact_id_match_dominates silent_world three_candidates
            (lit "The Matrix") (Some 1999%Z) (lit "tt0133093") _)
            [mk_movie 1 "The Matrix Revisited" 2001 9 "tt0295432" []]
            (mk_movie 2 "Matrix" 1999 1 "TT0133093" [])
            [mk_movie 3 "The Matrix" 1999 (87 # 10) "tt0133093" []] _ _ _)).
  - reflexivity.
  - reflexivity.
  - reflexivity.
  - intros m' [<-|[]]. vm_compute. discriminate.
Defined.

(** ** The resilient search client *)

Section SearchClientFacts.
Variable fetch : pystr -> Z -> outcome.
Variable retries : Z.
Variable slow_after : Q.

Let loop := attempt_loop fetch retries slow_after.

Lemma attempt_loop_S fuel base attempt backoff :
  loop (S fuel) base attempt backoff =
  let attempt := (attempt + 1)%Z in
  let again :=
    let '(x, tr) := loop fuel base attempt (backoff * 2) in
    (x, Get base attempt :: Sleep base attempt backoff :: tr) in
  match fetch base attempt with
  | Interrupted => (KeyboardInterrupt, [Get base attempt])
  | NotJson => (Break, [Get base attempt])
  | Json movies elapsed =>
      if (Qle_bool slow_after elapsed && (attempt <=? retries)%Z)%bool
      then again
      else (Return_ movies, [Get base attempt])
  | Failed e =>
      if _is_dns_error e then (Break, [Get base attempt])
      else if (attempt <=? retries)%Z then again
      else (Break, [Get base attempt])
  end.
Proof. reflexivity. Qed.

(** The loop on one mirror ends within [retries + 1] iterations: more
    fuel than that changes nothing. *)
Lemma attempt_loop_fuel fuel base attempt backoff :
  (Z.to_nat (retries - attempt) < fuel)%nat ->
  loop fuel base attempt backoff = loop (S fuel) base attempt backoff.
Proof.
  revert attempt backoff.
  induction fuel as [|fuel IH]; intros attempt backoff Hf; [lia|].
  rewrite (attempt_loop_S (S fuel)), (attempt_loop_S fuel). cbv zeta.
  assert (Hagain : (attempt + 1 <=? retries)%Z = true ->
                   loop fuel base (attempt + 1)%Z (backoff * 2)
                   = loop (S fuel) base (attempt + 1)%Z (backoff * 2)).
  { intros Hle. apply Z.leb_le in Hle. apply IH. lia. }
  destruct (fetch base (attempt + 1)%Z) as [e| |movies elapsed|];
    try reflexivity.
  - destruct (_is_dns_error e); [reflexivity|].
    destruct (attempt + 1 <=? retries)%Z; [|reflexivity].
    rewrite Hagain by reflexivity. reflexivity.
  - destruct (Qle_bool slow_after elapsed); simpl; [|reflexivity].
    destruct (attempt + 1 <=? retries)%Z; [|reflexivity].
    rewrite Hagain by reflexivity. reflexivity.
Qed.

(** A name-resolution failure leaves the mirror after one request. *)
Lemma attempt_loop_dns fuel base attempt backoff e :
  fetch base (attempt + 1)%Z = Failed e -> _is_dns_error e = true ->
  loop (S fuel) base attempt backoff = (Break, [Get base (attempt + 1)%Z]).
Proof.
  intros Hf He. rewrite attempt_loop_S. cbv zeta. rewrite Hf, He. reflexivity.
Qed.

(** The invariant of the loop: [backoff] is [0.75 * 2^attempt]. *)
Lemma attempt_loop_sleeps fuel base attempt backoff b k d :
  (0 <= attempt)%Z -> backoff == (3 # 4) * 2 ^ attempt ->
  In (Sleep b k d) (snd (loop fuel base attempt backoff)) ->
  b = base /\ (attempt < k <= retries)%Z /\ d == (3 # 4) * 2 ^ (k - 1).
Proof.
  revert attempt backoff.
  induction fuel as [|fuel IH]; intros attempt backoff Ha Hb; [intros []|].
  rewrite attempt_loop_S. cbv zeta.
  assert (Hagain :
    (attempt + 1 <=? retries)%Z = true ->
    In (Sleep b k d)
       (snd (let '(x, tr) := loop fuel base (attempt + 1)%Z (backoff * 2) in
             (x, Get base (attempt + 1)%Z
                   :: Sleep base (attempt + 1)%Z backoff :: tr))) ->
    b = base /\ (attempt < k <= retries)%Z /\ d == (3 # 4) * 2 ^ (k - 1)).
  { intros Hle. apply Z.leb_le in Hle.
    specialize (IH (attempt + 1)%Z (backoff * 2)).
    destruct (loop fuel base (attempt + 1)%Z (backoff * 2)) as [x tr].
    simpl. intros [H|[H|H]]; [discriminate| |].
    - inversion H; subst. split; [reflexivity|]. split; [lia|].
      replace (attempt + 1 - 1)%Z with attempt by lia. exact Hb.
    - destruct IH as (? & ? & ?); [lia| |exact H|].
      + rewrite Hb, Qpower_plus by discriminate.
        change (2 ^ 1) with 2. ring.
      + split; [assumption|]. split; [lia|assumption]. }
  destruct (fetch base (attempt + 1)%Z) as [e| |movies elapsed|];
    try (simpl; intros [H|[]]; discriminate).
  - destruct (_is_dns_error e); [simpl; intros [H|[]]; discriminate|].
    destruct (attempt + 1 <=? retries)%Z;
      [apply Hagain; reflexivity | simpl; intros [H|[]]; discriminate].
  - destruct (Qle_bool slow_after elapsed); simpl;
      [|intros [H|[]]; discriminate].
    destruct (attempt + 1 <=? retries)%Z;
      [apply Hagain; reflexivity | simpl; intros [H|[]]; discriminate].
Qed.

Lemma backoff_double (attempt : Z) :
  (0 <= attempt)%Z ->
  Qmake (3 * 2 ^ attempt) 4 * 2 = Qmake (3 * 2 ^ (attempt + 1)) 4.
Proof.
  intros H. unfold Qmult. cbn [Qnum Qden].
  change (4 * 1)%positive with 4%positive. f_equal.
  rewrite Z.pow_add_r, Z.pow_1_r by lia. ring.
Qed.

(** The whole trace of one mirror: attempts numbered from 1, a sleep of
    [0.75 * 2^(k-1)] seconds after attempt [k], at most [retries]
    retries. *)
Lemma attempt_loop_paced fuel base attempt :
  (0 <= attempt)%Z -> (Z.to_nat (retries - attempt) < fuel)%nat ->
  exists n,
    snd (loop fuel base attempt (Qmake (3 * 2 ^ attempt) 4))
    = paced_attempts base attempt n
    /\ (Z.of_nat n <= Z.max 0 (retries - attempt))%Z.
Proof.
  revert attempt. induction fuel as [|fuel IH]; intros attempt Ha Hf; [lia|].
  rewrite attempt_loop_S. cbv zeta.
  assert (Hagain :
    (attempt + 1 <=? retries)%Z = true ->
    exists n,
      snd (let '(x, tr) :=
             loop fuel base (attempt + 1)%Z (Qmake (3 * 2 ^ attempt) 4 * 2) in
           (x, Get base (attempt + 1)%Z
                 :: Sleep base (attempt + 1)%Z (Qmake (3 * 2 ^ attempt) 4)
                 :: tr))
      = paced_attempts base attempt n
      /\ (Z.of_nat n <= Z.max 0 (retries - attempt))%Z).
  { intros Hle. apply Z.leb_le in Hle. rewrite backoff_double by exact Ha.
    destruct (IH (attempt + 1)%Z) as (n & Hn & Hb); [lia|lia|].
    destruct (loop fuel base (attempt + 1)%Z _) as [x tr]. simpl in Hn.
    exists (S n). split; [simpl; rewrite Hn; reflexivity|lia]. }
  assert (Hstop :
    exists n,
      [Get base (attempt + 1)%Z] = paced_attempts base attempt n
      /\ (Z.of_nat n <= Z.max 0 (retries - attempt))%Z).
  { exists O. split; [reflexivity|lia]. }
  destruct (fetch base (attempt + 1)%Z) as [e| |movies elapsed|];
    try exact Hstop.
  - destruct (_is_dns_error e); [exact Hstop|].
    destruct (attempt + 1 <=? retries)%Z; [apply Hagain; reflexivity|].
    exact Hstop.
  - destruct (Qle_bool slow_after elapsed); cbn [andb]; [|exact Hstop].
    destruct (attempt + 1 <=? retries)%Z; [apply Hagain; reflexivity|].
    exact Hstop.
Qed.

Lemma mirror_loop_paced bases :
  exists ns,
    snd (mirror_loop fetch retries slow_after bases) = paced_search bases ns
    /\ (List.length ns <= List.length bases)%nat
    /\ Forall (fun n => (Z.of_nat n <= Z.max 0 retries)%Z) ns.
Proof.
  induction bases as [|base bases (ns & Hns & Hl & Hb)].
  - exists []. split; [reflexivity|]. split; [apply Nat.le_refl|constructor].
  - cbn [mirror_loop]. fold loop.
    destruct (@attempt_loop_paced (S (Z.to_nat retries)) base 0%Z)
      as (n & Hn & Hn'); [lia|lia|].
    change (Qmake (3 * 2 ^ 0) 4) with (3 # 4) in Hn.
    assert (Hn'' : (Z.of_nat n <= Z.max 0 retries)%Z) by lia.
    destruct (loop (S (Z.to_nat retries)) base 0%Z (3 # 4)) as [x tr].
    cbn [snd] in Hn. subst tr.
    assert (Hone : exists ns0,
      paced_attempts base 0 n = paced_search (base :: bases) ns0
      /\ (List.length ns0 <= List.length (base :: bases))%nat
      /\ Forall (fun n => (Z.of_nat n <= Z.max 0 retries)%Z) ns0).
    { exists [n]. split; [|split].
      - cbn [paced_search]. destruct bases; symmetry; apply app_nil_r.
      - simpl. lia.
      - constructor; [exact Hn''|constructor]. }
    destruct x; try exact Hone.
    destruct (mirror_loop fetch retries slow_after bases) as [r tr'].
    cbn [snd] in *. subst tr'. exists (n :: ns). split; [reflexivity|].
    split; [simpl; lia|]. constructor; assumption.
Qed.

Lemma mirror_loop_sleeps bases b k d :
  In (Sleep b k d) (snd (mirror_loop fetch retries slow_after bases)) ->
  In b bases /\ (1 <= k <= retries)%Z /\ d == (3 # 4) * 2 ^ (k - 1).
Proof.
  induction bases as [|base bases IH]; [intros []|].
  cbn [mirror_loop].
  pose proof (@attempt_loop_sleeps (S (Z.to_nat retries)) base 0%Z (3 # 4)
                b k d) as Hone.
  fold loop.
  destruct (loop (S (Z.to_nat retries)) base 0%Z (3 # 4)) as [x tr].
  assert (Htr : In (Sleep b k d) tr ->
                In b (base :: bases) /\ (1 <= k <= retries)%Z
                /\ d == (3 # 4) * 2 ^ (k - 1)).
  { intros H. destruct Hone as (-> & ? & ?);
      [lia|simpl; ring|exact H|].
    split; [left; reflexivity|]. split; [lia|assumption]. }
  destruct x; try exact Htr.
  destruct (mirror_loop fetch retries slow_after bases) as [r tr'].
  cbn [snd] in *. intros H. apply in_app_or in H. destruct H as [H|H].
  - exact (Htr H).
  - destruct (IH H) as (? & ? & ?).
    split; [right; assumption|]. split; assumption.
Qed.

Lemma mirror_loop_all_dns bases :
  (forall base k, exists e, fetch base k = Failed e /\ _is_dns_error e = true) ->
  mirror_loop fetch retries slow_after bases
  = (Ok [], map (fun base => Get base 1%Z) bases).
Proof.
  intros Hdns. induction bases as [|base bases IH]; [reflexivity|].
  cbn [mirror_loop map].
  destruct (Hdns base (0 + 1)%Z) as (e & Hf & He).
  fold loop.
  rewrite (@attempt_loop_dns (Z.to_nat retries) base 0%Z (3 # 4) e Hf He), IH.
  reflexivity.
Qed.
End SearchClientFacts.

(** ** The mirror registry *)

Lemma filter_twice {A} (p q : A -> bool) (l : list A) :
  filter p (filter q l) = filter (fun x => (q x && p x)%bool) l.
Proof.
  induction l as [|x l IH]; simpl; [reflexivity|].
  destruct (q x); simpl; [destruct (p x)|]; rewrite IH; reflexivity.
Qed.

Lemma mem_In (b : pystr) (l : list pystr) : mem b l = true <-> In b l.
Proof.
  unfold mem. rewrite existsb_exists. split.
  - intros (x & Hx & E). apply str_eqb_eq in E. subst. exact Hx.
  - intros H. exists b. split; [exact H|apply str_eqb_refl].
Qed.

Lemma keep_first_In (x : pystr) (l : list pystr) :
  In x (keep_first l) <-> In x l.
Proof.
  induction l as [|y l IH]; simpl; [tauto|].
  rewrite filter_In, IH, negb_true_iff, str_eqb_neq.
  destruct (list_eq_dec N.eq_dec y x); intuition.
Qed.

Lemma keep_first_NoDup (l : list pystr) : NoDup (keep_first l).
Proof.
  induction l as [|y l IH]; simpl; constructor.
  - rewrite filter_In, negb_true_iff, str_eqb_neq. tauto.
  - apply NoDup_filter. exact IH.
Qed.

Lemma keep_first_app (a b : list pystr) :
  keep_first (a ++ b)
  = keep_first a ++ filter (fun d => negb (mem d a)) (keep_first b).
Proof.
  induction a as [|x a IH]; simpl.
  - symmetry. apply filter_true.
  - f_equal. rewrite IH, filter_app, filter_twice. f_equal.
    apply filter_ext. intros y. unfold mem. simpl.
    rewrite negb_orb. apply andb_comm.
Qed.

Lemma dedup_loop_keep_first (l seen uniq : list pystr) :
  dedup_loop l seen uniq
  = uniq ++ filter (fun b => negb (mem b seen)) (keep_first l).
Proof.
  revert seen uniq. induction l as [|x l IH]; intros seen uniq; simpl.
  - symmetry. apply app_nil_r.
  - fold (mem x seen). destruct (mem x seen) eqn:E; simpl; rewrite IH.
    + f_equal. rewrite filter_twice. apply filter_ext. intros y.
      destruct (str_eqb y x) eqn:Ey; simpl; [|reflexivity].
      apply str_eqb_eq in Ey. subst y. rewrite E. reflexivity.
    + rewrite <- app_assoc. simpl. do 2 f_equal.
      rewrite filter_twice. apply filter_ext. intros y.
      unfold mem. simpl. rewrite negb_orb. reflexivity.
Qed.

Lemma configured_loop_map (raws bases : list pystr) :
  configured_loop raws bases
  = bases ++ map normalize_base (filter truthy (map str_strip raws)).
Proof.
  revert bases. induction raws as [|raw raws IH]; intros bases; simpl.
  - symmetry. apply app_nil_r.
  - destruct (truthy (str_strip raw)); rewrite IH; [|reflexivity].
    rewrite <- app_assoc. reflexivity.
Qed.

Lemma startswith_app (p s : pystr) : startswith (p ++ s) p = true.
Proof.
  induction p as [|x p IH]; simpl; [destruct s; reflexivity|].
  rewrite N.eqb_refl. exact IH.
Qed.

(** A string that ends with ["/api/v2"] has no slash to strip. *)
Lemma rstrip_slash_after_segment (b : pystr) :
  endswith b api_segment = true -> rstrip_by is_slash b = b.
Proof.
  unfold endswith, rstrip_by. intros H.
  destruct (rev b) as [|c r] eqn:E; [discriminate H|].
  change (rev api_segment) with [50; 118; 47; 105; 112; 97; 47]%N in H.
  cbn [startswith] in H. apply andb_true_iff in H. destruct H as [H _].
  apply N.eqb_eq in H. subst c. cbn [dropwhile].
  change (is_slash 50) with false. cbv iota.
  rewrite <- E. apply rev_involutive.
Qed.

Lemma normalize_base_ends (b : pystr) :
  endswith (normalize_base b) api_segment = true.
Proof.
  unfold normalize_base. destruct (endswith b api_segment) eqn:E.
  - rewrite (rstrip_slash_after_segment _ E). exact E.
  - unfold endswith. rewrite rev_app_distr. apply startswith_app.
Qed.

Lemma yts_bases_keep_first (getenv : option pystr) :
  _yts_bases getenv
  = keep_first (map normalize_base (configured_roots getenv)
                ++ _YTS_DEFAULT_BASES).
Proof.
  unfold _yts_bases, configured_roots.
  rewrite dedup_loop_keep_first. cbn [app].
  rewrite (filter_ext (fun b => negb (mem b [])) (fun _ => true))
    by reflexivity.
  rewrite filter_true. f_equal. f_equal.
  destruct (str_strip (or_empty getenv)) as [|c env] eqn:E.
  - reflexivity.
  - cbn [truthy]. rewrite configured_loop_map. reflexivity.
Qed.

Lemma yts_bases_NoDup (getenv : option pystr) : NoDup (_yts_bases getenv).
Proof. rewrite yts_bases_keep_first. apply keep_first_NoDup. Qed.

(** C5 (the mirror registry).  For every value of the environment
    variable, the registry is the configured roots, normalized, in their
    order and without repetitions, followed by the built-in mirrors that
    are not among them; it has no duplicates and is the keep-first
    de-duplication of the configured roots followed by the built-in
    mirrors.  A normalized root ends with ["/api/v2"] and has no trailing
    slash; a root that ends with ["/api/v2"] is left as it is, any other
    root loses its trailing slashes and gets the segment appended. *)
Theorem yts_bases_registry (getenv : option pystr) :
  let configured := map normalize_base (configured_roots getenv) in
  _yts_bases getenv
  = keep_first configured
    ++ filter (fun d => negb (mem d configured)) _YTS_DEFAULT_BASES
  /\ _yts_bases getenv = keep_first (configured ++ _YTS_DEFAULT_BASES)
  /\ NoDup (_yts_bases getenv)
  /\ forall b,
      endswith (normalize_base b) api_segment = true
      /\ rstrip_by is_slash (normalize_base b) = normalize_base b
      /\ normalize_base b
         = if endswith b api_segment then b
           else rstrip_by is_slash b ++ api_segment.
Proof.
  intros configured. split; [|split; [|split]].
  - rewrite yts_bases_keep_first. fold configured. rewrite keep_first_app.
    reflexivity.
  - apply yts_bases_keep_first.
  - apply yts_bases_NoDup.
  - intros b. split; [apply normalize_base_ends|]. split.
    + apply rstrip_slash_after_segment, normalize_base_ends.
    + unfold normalize_base. destruct (endswith b api_segment) eqn:E.
      * apply rstrip_slash_after_segment. exact E.
      * reflexivity.
Qed.

(** C3 (every mirror fails to resolve).  When every request of a search
    raises an exception that [_is_dns_error] recognises, [yts_search]
    returns the empty list, nothing is raised, and the requests made are
    exactly one first attempt per mirror of the registry, in registry
    order, with no sleep between them; the mirrors of the registry are
    distinct. *)
Theorem all_mirrors_dns_failure (W : World) (retries : Z) (slow_after : Q)
  (title_ : pystr) (year_ : option Z) :
  (forall url q k,
      exists e, http_get W url q k = Failed e /\ _is_dns_error e = true) ->
  yts_search W retries slow_after title_ year_
  = (Ok [], map (fun base => Get base 1%Z) (_yts_bases (YTS_API_BASE W)))
  /\ NoDup (_yts_bases (YTS_API_BASE W)).
Proof.
  intros Hdns. split; [|apply yts_bases_NoDup].
  unfold yts_search. apply mirror_loop_all_dns.
  intros base k. apply Hdns.
Qed.

Lemma all_mirrors_dns_failure_witness :
  yts_search no_dns_world 3 4 (lit "Heat") (Some 1995%Z)
  = (Ok [], map (fun base => Get base 1%Z)
                (_yts_bases (YTS_API_BASE no_dns_world)))
  /\ NoDup (_yts_bases (YTS_API_BASE no_dns_world)).
Proof.
  apply (@all_mirrors_dns_failure no_dns_world 3 4 (lit "Heat")
           (Some 1995%Z)).
  intros url q k. eexists. split; reflexivity.
Defined.

(** C4 (back-off).  The trace of a search is, mirror after mirror in
    registry order, the attempts on that mirror numbered from 1, each
    retry preceded by one sleep, and the sleep before the [k]-th retry
    lasts [0.75 * 2^(k-1)] seconds, whether the attempt before it failed
    or answered slowly; the numbering and the back-off start again on
    every mirror, and no mirror gets more than [retries] retries.  Hence
    every sleep that follows an attempt [k] lasts [0.75 * 2^(k-1)]
    seconds. *)
Theorem backoff_doubles_and_resets (W : World) (retries : Z) (slow_after : Q)
  (title_ : pystr) (year_ : option Z) :
  (exists ns,
      snd (yts_search W retries slow_after title_ year_)
      = paced_search (_yts_bases (YTS_API_BASE W)) ns
      /\ (List.length ns <= List.length (_yts_bases (YTS_API_BASE W)))%nat
      /\ Forall (fun n => (Z.of_nat n <= Z.max 0 retries)%Z) ns)
  /\ forall b k d,
      In (Sleep b k d) (snd (yts_search W retries slow_after title_ year_)) ->
      In b (_yts_bases (YTS_API_BASE W))
      /\ (1 <= k <= retries)%Z
      /\ d == (3 # 4) * 2 ^ (k - 1).
Proof.
  unfold yts_search. split.
  - apply mirror_loop_paced.
  - intros b k d. apply mirror_loop_sleeps.
Qed.

Lemma backoff_doubles_and_resets_witness :
  In (lit "https://www.yts-official.to/api/v2")
     (_yts_bases (YTS_API_BASE flaky_world))
  /\ (1 <= 3 <= 3)%Z
  /\ (3 # 4) * 2 * 2 == (3 # 4) * 2 ^ (3 - 1).
Proof.
  apply (proj2 (@backoff_doubles_and_resets flaky_world 3 5 (lit "Heat")
                  None)).
  vm_compute. do 5 right. left. reflexivity.
Defined.

(** ** The title normalizer *)

(** Case analysis on the character tables. *)
Ltac tables :=
  unfold isword, isalnum, isdigit, isupper_ascii, isspace,
    is_dot_or_underscore, in_range in *;
  repeat
    match goal with
    | H : _ /\ _ |- _ => destruct H
    | H : context [(_ || _)%bool = true] |- _ => rewrite orb_true_iff in H
    | H : context [(_ && _)%bool = true] |- _ => rewrite andb_true_iff in H
    | H : context [(_ || _)%bool = false] |- _ => rewrite orb_false_iff in H
    | H : context [(_ && _)%bool = false] |- _ => rewrite andb_false_iff in H
    | H : context [N.leb _ _ = true] |- _ => rewrite N.leb_le in H
    | H : context [N.leb _ _ = false] |- _ => rewrite N.leb_gt in H
    | H : context [N.eqb _ _ = true] |- _ => rewrite N.eqb_eq in H
    | H : context [N.eqb _ _ = false] |- _ => rewrite N.eqb_neq in H
    | |- context [(_ || _)%bool = true] => rewrite orb_true_iff
    | |- context [(_ && _)%bool = true] => rewrite andb_true_iff
    | |- context [(_ || _)%bool = false] => rewrite orb_false_iff
    | |- context [(_ && _)%bool = false] => rewrite andb_false_iff
    | |- context [N.leb _ _ = true] => rewrite N.leb_le
    | |- context [N.leb _ _ = false] => rewrite N.leb_gt
    | |- context [N.eqb _ _ = true] => rewrite N.eqb_eq
    | |- context [N.eqb _ _ = false] => rewrite N.eqb_neq
    end;
  try lia.



Lemma lower1_space c : isspace (lower1 c) = isspace c.
Proof.
  unfold lower1. destruct (isupper_ascii c) eqn:U; [|reflexivity].
  assert (H1 : isspace c = false) by tables.
  assert (H2 : isspace (c + 32) = false) by tables.
  congruence.
Qed.

Lemma lower1_kept c : kept c -> settled (lower1 c) /\ lower_cp c = [lower1 c].
Proof.
  unfold kept, settled, lower1, lower_cp. intros [->|[Ha Hn]].
  - split; [left|]; reflexivity.
  - destruct (isupper_ascii c) eqn:U.
    + split; [|reflexivity]. right. tables.
    + apply N.eqb_neq in Hn. rewrite Hn. split; [|reflexivity].
      right. apply N.eqb_neq in Hn. auto.
Qed.


Lemma str_lower_kept s : Forall kept s -> str_lower s = map lower1 s.
Proof.
  induction 1 as [|c s Hc _ IH]; simpl; [reflexivity|].
  destruct (lower1_kept Hc) as [_ ->]. simpl. f_equal. exact IH.
Qed.

(** *** The substitutions *)

Lemma sub_runs_chars p b s :
  Forall (fun c => c = 32%N \/ (In c s /\ p c = false)) (sub_runs p b s).
Proof.
  revert b. induction s as [|c s IH]; intros b; simpl; [constructor|].
  assert (Hw : forall b',
    Forall (fun x => x = 32%N \/ (c = x \/ In x s) /\ p x = false)
           (sub_runs p b' s)).
  { intros b'. eapply Forall_impl; [|apply IH]. simpl. intuition. }
  destruct (p c) eqn:E.
  - destruct b; [apply Hw|]. constructor; [left; reflexivity|apply Hw].
  - constructor; [right; auto|apply Hw].
Qed.


Lemma sub_runs_map p b f s :
  (forall c, p (f c) = p c) -> f 32%N = 32%N ->
  sub_runs p b (map f s) = map f (sub_runs p b s).
Proof.
  intros Hp H32. revert b. induction s as [|c s IH]; intros b; simpl.
  - reflexivity.
  - rewrite Hp. destruct (p c); [destruct b|]; simpl; rewrite ?IH, ?H32;
      reflexivity.
Qed.

Lemma sub_paren_year_cons c t :
  sub_paren_year (c :: t) = c :: sub_paren_year t
  \/ exists d1 d2 d3 d4 r rest,
      t = d1 :: d2 :: d3 :: d4 :: r :: rest
      /\ c = 40%N /\ sub_paren_year (c :: t) = sub_paren_year rest.
Proof.
  destruct t as [|d1 [|d2 [|d3 [|d4 [|r rest]]]]]; try (left; reflexivity).
  cbn [sub_paren_year].
  destruct (N.eqb c 40 && isdigit d1 && isdigit d2 && isdigit d3
            && isdigit d4 && N.eqb r 41)%bool eqn:E.
  - right. exists d1, d2, d3, d4, r, rest. split; [reflexivity|].
    split; [|reflexivity]. repeat (apply andb_true_iff in E; destruct E as [E _]).
    apply N.eqb_eq. exact E.
  - left. reflexivity.
Qed.

Lemma sub_paren_year_Forall (P : codepoint -> Prop) s :
  Forall P s -> Forall P (sub_paren_year s).
Proof.
  assert (H : forall n s, (List.length s <= n)%nat ->
                          Forall P s -> Forall P (sub_paren_year s)).
  { induction n as [|n IH]; intros [|c t] Hl Hs; simpl in Hl; try constructor;
      try lia.
    inversion Hs as [|? ? Hc Ht]; subst.
    destruct (sub_paren_year_cons c t)
      as [->|(d1 & d2 & d3 & d4 & r & rest & -> & _ & ->)].
    - constructor; [exact Hc|]. apply IH; [lia|exact Ht].
    - apply IH; [simpl in Hl; lia|].
      do 5 (inversion Ht as [|? ? _ Ht']; subst; clear Ht; rename Ht' into Ht).
      exact Ht. }
  apply (H (List.length s)). apply Nat.le_refl.
Qed.


(** *** White space *)

Lemma sub_runs_single_spaced b s :
  single_spaced b (sub_runs isspace b s) = true.
Proof.
  revert b. induction s as [|c s IH]; intros b; simpl; [reflexivity|].
  destruct (isspace c) eqn:E.
  - destruct b; [apply IH|]. simpl. apply IH.
  - simpl. rewrite E. apply IH.
Qed.

Lemma single_spaced_id b s :
  single_spaced b s = true -> sub_runs isspace b s = s.
Proof.
  revert b. induction s as [|c s IH]; intros b; simpl; [reflexivity|].
  destruct (isspace c) eqn:E.
  - intros H. apply andb_true_iff in H. destruct H as [H Hs].
    apply andb_true_iff in H. destruct H as [Hc Hb].
    apply N.eqb_eq in Hc. apply negb_true_iff in Hb. subst.
    rewrite (IH true Hs). reflexivity.
  - intros H. rewrite (IH false H). reflexivity.
Qed.

Lemma single_spaced_weaken b s :
  single_spaced b s = true -> single_spaced false s = true.
Proof.
  destruct s as [|c s]; simpl; [reflexivity|].
  destruct (isspace c); [|tauto].
  rewrite !andb_true_iff. intuition.
Qed.

Lemma single_spaced_dropwhile b s :
  single_spaced b s = true -> single_spaced true (dropwhile isspace s) = true.
Proof.
  revert b. induction s as [|c s IH]; intros b; simpl; [reflexivity|].
  destruct (isspace c) eqn:E.
  - rewrite !andb_true_iff. intros [_ H]. exact (IH true H).
  - intros H. simpl. rewrite E. exact H.
Qed.

Lemma single_spaced_prefix b x y :
  single_spaced b (x ++ y) = true -> single_spaced b x = true.
Proof.
  revert b. induction x as [|c x IH]; intros b; simpl; [reflexivity|].
  destruct (isspace c).
  - rewrite !andb_true_iff. intros [H1 H2]. split; [exact H1|]. exact (IH _ H2).
  - apply IH.
Qed.

Lemma dropwhile_split p s :
  exists pre, s = pre ++ dropwhile p s /\ forallb p pre = true.
Proof.
  induction s as [|c s (pre & Hs & Hp)]; simpl.
  - exists []. split; reflexivity.
  - destruct (p c) eqn:E.
    + exists (c :: pre). simpl. rewrite E, Hp. split; [f_equal; exact Hs|reflexivity].
    + exists []. split; reflexivity.
Qed.

Lemma rstrip_by_split p s :
  exists suf, s = rstrip_by p s ++ suf /\ forallb p suf = true.
Proof.
  unfold rstrip_by. destruct (dropwhile_split p (rev s)) as (pre & Hs & Hp).
  exists (rev pre). split.
  - rewrite <- rev_app_distr, <- Hs. symmetry. apply rev_involutive.
  - rewrite forallb_forall in *. intros x Hx. apply Hp. apply in_rev. exact Hx.
Qed.

Lemma dropwhile_idem p s : dropwhile p (dropwhile p s) = dropwhile p s.
Proof.
  induction s as [|c s IH]; simpl; [reflexivity|].
  destruct (p c) eqn:E; [exact IH|]. simpl. rewrite E. reflexivity.
Qed.

Lemma rstrip_by_idem p s : rstrip_by p (rstrip_by p s) = rstrip_by p s.
Proof.
  unfold rstrip_by. rewrite rev_involutive, dropwhile_idem. reflexivity.
Qed.

Lemma dropwhile_length p s :
  (List.length (dropwhile p s) <= List.length s)%nat.
Proof.
  induction s as [|c s IH]; simpl; [lia|].
  destruct (p c); simpl; lia.
Qed.

(** Stripping on the right leaves a front that is not white space
    where it is. *)
Lemma rstrip_by_front p s :
  dropwhile p s = s -> dropwhile p (rstrip_by p s) = rstrip_by p s.
Proof.
  intros Hs. destruct (rstrip_by_split p s) as (suf & Hsplit & Hsuf).
  destruct (rstrip_by p s) as [|c r] eqn:E; [reflexivity|].
  rewrite Hsplit in Hs. simpl in *.
  destruct (p c); [|reflexivity].
  exfalso. pose proof (dropwhile_length p (r ++ suf)) as Hl.
  rewrite Hs in Hl. simpl in Hl. lia.
Qed.

Lemma str_strip_idem s : str_strip (str_strip s) = str_strip s.
Proof.
  unfold str_strip.
  rewrite (@rstrip_by_front isspace (dropwhile isspace s))
    by apply dropwhile_idem.
  apply rstrip_by_idem.
Qed.

Lemma dropwhile_map p f s :
  (forall c, p (f c) = p c) ->
  dropwhile p (map f s) = map f (dropwhile p s).
Proof.
  intros Hp. induction s as [|c s IH]; simpl; [reflexivity|].
  rewrite Hp. destruct (p c); [exact IH|reflexivity].
Qed.

Lemma str_strip_map f s :
  (forall c, isspace (f c) = isspace c) ->
  str_strip (map f s) = map f (str_strip s).
Proof.
  intros Hp. unfold str_strip, rstrip_by.
  rewrite dropwhile_map, <- map_rev, dropwhile_map, map_rev by exact Hp.
  reflexivity.
Qed.

Lemma Forall_dropwhile (P : codepoint -> Prop) p s :
  Forall P s -> Forall P (dropwhile p s).
Proof.
  induction 1 as [|c s Hc Hs IH]; simpl; [constructor|].
  destruct (p c); [exact IH|constructor; assumption].
Qed.

Lemma Forall_str_strip (P : codepoint -> Prop) s :
  Forall P s -> Forall P (str_strip s).
Proof.
  intros H. unfold str_strip, rstrip_by.
  apply Forall_rev, Forall_dropwhile, Forall_rev, Forall_dropwhile, H.
Qed.

(** *** Idempotence *)

Lemma sanitize_title_prepared s : _sanitize_title s = str_lower (prepared s).
Proof. reflexivity. Qed.

Lemma prepared_kept (s : pystr) :
  Forall (fun c => c <> 0x130%N) s -> Forall kept (prepared s).
Proof.
  intros Hs. unfold prepared. apply Forall_str_strip.
  eapply Forall_impl; [|apply sub_runs_chars].
  intros c [->|[Hin Hsp]]; [left; reflexivity|].
  unfold sub_punct in Hin. apply in_map_iff in Hin.
  destruct Hin as (x & Hx & Hin).
  assert (Hq : x <> 0x130%N /\ is_dot_or_underscore x = false).
  { clear Hx. revert x Hin. apply Forall_forall. apply sub_paren_year_Forall.
    eapply Forall_impl; [|apply sub_runs_chars].
    intros y [->|[Hy Hd]]; [split; [discriminate|reflexivity]|].
    split; [|exact Hd]. rewrite Forall_forall in Hs. exact (Hs y Hy). }
  destruct Hq as [Hn Hd].
  destruct (isword x || isspace x)%bool eqn:E; subst c.
  - right. split; [|exact Hn]. tables.
  - discriminate Hsp.
Qed.

Lemma prepared_single_spaced s : single_spaced false (prepared s) = true.
Proof.
  unfold prepared, str_strip.
  set (x := sub_runs isspace false _).
  assert (Hx : single_spaced false (dropwhile isspace x) = true).
  { apply single_spaced_weaken with (b := true).
    apply single_spaced_dropwhile with (b := false).
    apply sub_runs_single_spaced. }
  destruct (rstrip_by_split isspace (dropwhile isspace x)) as (suf & Hs & _).
  rewrite Hs in Hx. exact (single_spaced_prefix _ _ _ Hx).
Qed.

Lemma prepared_stripped s : str_strip (prepared s) = prepared s.
Proof. apply str_strip_idem. Qed.

Lemma settled_title (s : pystr) :
  Forall (fun c => c <> 0x130%N) s ->
  Forall settled (_sanitize_title s)
  /\ sub_runs isspace false (_sanitize_title s) = _sanitize_title s
  /\ str_strip (_sanitize_title s) = _sanitize_title s.
Proof.
  intros Hs. pose proof (prepared_kept Hs) as Hk.
  rewrite sanitize_title_prepared, (str_lower_kept Hk).
  split; [|split].
  - apply Forall_map. eapply Forall_impl; [|exact Hk].
    intros c Hc. exact (proj1 (lower1_kept Hc)).
  - rewrite sub_runs_map by (try apply lower1_space; reflexivity).
    rewrite (single_spaced_id _ _ (prepared_single_spaced s)). reflexivity.
  - rewrite str_strip_map by apply lower1_space.
    rewrite prepared_stripped. reflexivity.
Qed.





(** ** The available qualities *)

Lemma str_ltb_irrefl (a : pystr) : str_ltb a a = false.
Proof.
  induction a as [|x a IH]; simpl; [reflexivity|].
  rewrite N.ltb_irrefl, N.eqb_refl, IH. reflexivity.
Qed.

Lemma str_ltb_trans (a b c : pystr) :
  str_ltb a b = true -> str_ltb b c = true -> str_ltb a c = true.
Proof.
  revert b c. induction a as [|x a IH]; intros [|y b] [|z c]; simpl;
    try discriminate; try reflexivity.
  rewrite !orb_true_iff, !andb_true_iff, !N.ltb_lt, !N.eqb_eq.
  intros [H1|[H1 H1']] [H2|[H2 H2']].
  - left. lia.
  - left. lia.
  - left. lia.
  - right. split; [lia|]. exact (IH b c H1' H2').
Qed.

Lemma str_ltb_total (a b : pystr) :
  a <> b -> str_ltb a b = true \/ str_ltb b a = true.
Proof.
  revert b. induction a as [|x a IH]; intros [|y b] H; simpl; auto;
    try (exfalso; apply H; reflexivity).
  rewrite !orb_true_iff, !andb_true_iff, !N.ltb_lt, !N.eqb_eq.
  destruct (N.lt_trichotomy x y) as [Hlt|[->|Hgt]]; auto.
  assert (Hab : a <> b) by (intros E; apply H; rewrite E; reflexivity).
  destruct (IH b Hab); auto.
Qed.

Lemma insert_str_In x y l : In y (insert_str x l) <-> y = x \/ In y l.
Proof.
  induction l as [|z l IH]; simpl.
  - intuition.
  - destruct (str_ltb z x); simpl; rewrite ?IH; intuition.
Qed.

Lemma insert_str_sorted x l :
  ~ In x l -> StronglySorted str_lt l -> StronglySorted str_lt (insert_str x l).
Proof.
  intros Hx Hl. induction Hl as [|z l Hl IH Hz]; simpl.
  - constructor; constructor.
  - destruct (str_ltb z x) eqn:E.
    + constructor.
      * apply IH. intros H. apply Hx. right; exact H.
      * apply Forall_forall. intros y Hy. apply insert_str_In in Hy.
        destruct Hy as [->|Hy]; [exact E|].
        rewrite Forall_forall in Hz. exact (Hz y Hy).
    + assert (Hxz : str_lt x z).
      { destruct (@str_ltb_total x z) as [H|H]; [|exact H|].
        - intros ->. apply Hx. left; reflexivity.
        - unfold str_lt. congruence. }
      constructor; [constructor; assumption|].
      constructor; [exact Hxz|].
      eapply Forall_impl; [|exact Hz].
      intros y Hy. exact (str_ltb_trans _ _ _ Hxz Hy).
Qed.

Lemma set_of_In x l : In x (set_of l) <-> In x l.
Proof.
  induction l as [|y l IH]; simpl; [tauto|].
  destruct (existsb (str_eqb y) l) eqn:E.
  - rewrite IH. split; [auto|]. intros [<-|H]; [|exact H].
    apply mem_In. exact E.
  - simpl. rewrite IH. tauto.
Qed.

Lemma set_of_NoDup l : NoDup (set_of l).
Proof.
  induction l as [|y l IH]; simpl; [constructor|].
  destruct (existsb (str_eqb y) l) eqn:E; [exact IH|].
  constructor; [|exact IH]. rewrite set_of_In. intros H.
  apply mem_In in H. unfold mem in H. congruence.
Qed.

Lemma sorted_set_In x l : In x (sorted_set l) <-> In x l.
Proof.
  unfold sorted_set. rewrite <- (set_of_In x l).
  induction (set_of l) as [|y s IH]; simpl; [tauto|].
  rewrite insert_str_In, IH. intuition.
Qed.

Lemma sorted_set_sorted l : StronglySorted str_lt (sorted_set l).
Proof.
  unfold sorted_set. pose proof (set_of_NoDup l) as H.
  induction H as [|y s Hy _ IH]; simpl; [constructor|].
  apply insert_str_sorted; [|exact IH].
  intros Hin. apply Hy. clear -Hin.
  induction s as [|z s IH]; simpl in *; [exact Hin|].
  apply insert_str_In in Hin. destruct Hin as [->|Hin]; auto.
Qed.

(** Two strictly ascending lists with the same elements are equal. *)
Lemma sorted_unique (l1 l2 : list pystr) :
  StronglySorted str_lt l1 -> StronglySorted str_lt l2 ->
  (forall x, In x l1 <-> In x l2) -> l1 = l2.
Proof.
  intros H1. revert l2.
  induction H1 as [|a l1 H1 IH Ha]; intros l2 H2 Heq.
  - destruct l2 as [|b l2]; [reflexivity|].
    exfalso. apply (proj2 (Heq b)). left; reflexivity.
  - destruct H2 as [|b l2 H2 Hb].
    + exfalso. apply (proj1 (Heq a)). left; reflexivity.
    + rewrite Forall_forall in Ha, Hb.
      assert (Hab : a = b).
      { destruct (proj1 (Heq a) (or_introl eq_refl)) as [E|Hin]; [auto|].
        destruct (proj2 (Heq b) (or_introl eq_refl)) as [E|Hin']; [auto|].
        pose proof (str_ltb_trans _ _ _ (Hb a Hin) (Ha b Hin')) as Hbb.
        rewrite str_ltb_irrefl in Hbb. discriminate. }
      subst b. f_equal. apply IH; [exact H2|].
      intros x. split; intros Hx.
      * destruct (proj1 (Heq x) (or_intror Hx)) as [<-|H]; [|exact H].
        pose proof (Ha _ Hx) as Hc. unfold str_lt in Hc.
        rewrite str_ltb_irrefl in Hc. discriminate.
      * destruct (proj2 (Heq x) (or_intror Hx)) as [<-|H]; [|exact H].
        pose proof (Hb _ Hx) as Hc. unfold str_lt in Hc.
        rewrite str_ltb_irrefl in Hc. discriminate.
Qed.

(** [sorted(set(l))] depends on the elements of [l] only, not on their
    order or their repetitions. *)
Lemma sorted_set_ext (l l' : list pystr) :
  (forall x, In x l <-> In x l') -> sorted_set l = sorted_set l'.
Proof.
  intros H. apply sorted_unique; try apply sorted_set_sorted.
  intros x. rewrite !sorted_set_In. apply H.
Qed.

Section BatchFacts.
Variable W : World.
Variable retries : Z.
Variable slow_after : Q.
Variable pre_match : pystr.
Variable tmdb_key : pystr.
Variable omdb_key : option pystr.

Let run_task := task W retries slow_after pre_match tmdb_key omdb_key.
Let run_one :=
  process_one W retries slow_after pre_match tmdb_key omdb_key.

Lemma torrents_loop_all_q mtitle cur_rank ts all_q kept_q kept_mag a k g :
  torrents_loop mtitle cur_rank ts all_q kept_q kept_mag = Ok (a, k, g) ->
  a = all_q ++ map quality_label ts.
Proof.
  revert all_q kept_q kept_mag.
  induction ts as [|t ts IH]; intros all_q kept_q kept_mag; simpl.
  - intros H. inversion H. symmetry. apply app_nil_r.
  - destruct (Qgtb (quality_rank (str_lower (or_empty (t_quality t))))
                   cur_rank).
    + destruct (magnet_from_torrent mtitle t) as [mag| |]; simpl;
        try discriminate.
      intros H. rewrite (IH _ _ _ H), <- app_assoc. reflexivity.
    + intros H. rewrite (IH _ _ _ H), <- app_assoc. reflexivity.
Qed.

(** In [yts_lookup_from_csv] the column of available qualities is the
    ["|"]-joined ascending list of the distinct [quality.type] labels of
    the matched movie's torrents. *)
Lemma process_one_available_qualities row m combined :
  run_task row = Ok (Some m) -> run_one row = Ok combined ->
  nth 4 combined []
  = join (lit "|") (sorted_set (map quality_label (torrents m))).
Proof.
  intros Ht. unfold run_one, process_one. fold run_task.
  rewrite Ht.
  destruct (torrents_loop (title m) _ (torrents m) [] [] [])
    as [[[a k] g]| |] eqn:E; simpl; try discriminate.
  apply torrents_loop_all_q in E. simpl in E. subst a.
  destruct (_choose_next_quality m _) as [next_q next_t].
  destruct (match next_t with
            | Some t => magnet_from_torrent (title m) t
            | None => Ok []
            end) as [mag| |]; simpl; try discriminate.
  intros H. inversion H. reflexivity.
Qed.

(** *** Errors in a row *)





End BatchFacts.

(** C8, at the failing input.  For a movie with two 1080p web encodes,
    [yts_lookup_from_jf_csv] writes the labels with the repetition and in
    torrent order, so two orders of the same torrents give two values;
    [yts_lookup_from_csv] writes the distinct labels in ascending order
    for both. *)
Theorem jf_available_qualities_not_a_set :
  column "yts_quality_available"
    (yts_lookup_from_jf_csv (world_returning two_encodes) 3 4 [jf_heat_row])
  = [Some (lit "1080p.web,720p.web,1080p.web")]
  /\ column "yts_quality_available"
       (yts_lookup_from_jf_csv (world_returning two_encodes_reordered) 3 4
          [jf_heat_row])
     = [Some (lit "720p.web,1080p.web,1080p.web")]
  /\ column "yts_quality_available"
       (yts_lookup_from_csv (world_returning two_encodes) 3 4 (lit "tmdb")
          [] None false [csv_heat_row])
     = [Some (lit "1080p.web|720p.web")]
  /\ column "yts_quality_available"
       (yts_lookup_from_csv (world_returning two_encodes_reordered) 3 4
          (lit "tmdb") [] None false [csv_heat_row])
     = [Some (lit "1080p.web|720p.web")].
Proof. repeat split; vm_compute; reflexivity. Qed.




(** ** Worked examples *)

Example sanitize_title_example :
  _sanitize_title (lit "The.Matrix_(1999) [1080p] -- X")
  = lit "the matrix 1080p x".
Proof. reflexivity. Qed.

(** The scan does not go back: the parenthesis in front of a dropped
    year stays, and becomes a space in the next step. *)
Example sanitize_title_nested_year :
  _sanitize_title (lit "((1999)2000) A__B..c") = lit "2000 a b c".
Proof. reflexivity. Qed.

Example yts_bases_example :
  _yts_bases (Some (lit " https://a.example/ , b.example/api/v2 ,, https://yts.mx "))
  = [lit "https://a.example/api/v2"; lit "b.example/api/v2";
     lit "https://yts.mx/api/v2";
     lit "https://www.yts-official.to/api/v2"; lit "https://yts.rs/api/v2";
     lit "https://yts.lt/api/v2"; lit "https://yts.pm/api/v2";
     lit "https://yts.ag/api/v2"; lit "https://yts.am/api/v2"].
Proof. vm_compute. reflexivity. Qed.

(** The test for the segment comes before the slashes are stripped: a
    root written with a slash behind the segment does not end with it. *)
Example yts_bases_slash_behind_segment :
  endswith (lit "https://yts.mx/api/v2/") api_segment = false
  /\ normalize_base (lit "https://yts.mx/api/v2/")
     = lit "https://yts.mx/api/v2/api/v2".
Proof. split; reflexivity. Qed.

Example flaky_trace :
  yts_search flaky_world 3 5 (lit "Heat") None
  = (Ok [],
     paced_attempts (lit "https://www.yts-official.to/api/v2") 0 3).
Proof. vm_compute. reflexivity. Qed.

Example magnet_example :
  magnet_from_torrent (lit "The Matrix")
    {| t_quality := Some (lit "1080p"); t_type := Some (lit "bluray");
       t_size := None; t_seeds := None; t_peers := None;
       t_hash := Some (lit "ABCDEF") |}
  = Ok (lit "magnet:?xt=urn:btih:ABCDEF&dn=The%20Matrix.1080p.bluray").
Proof. reflexivity. Qed.

(** The fallback: a quality outside the ladder is offered when nothing
    of the ladder is an upgrade. *)
Example fallback_example :
  _choose_next_quality
    (mk_movie 4 "Heat" 1995 5 "tt0113277"
       [mk_torrent "1440P" "web"; mk_torrent "720p" "bluray"]) 2
  = (lit "1440p", Some (mk_torrent "1440P" "web")).
Proof. vm_compute. reflexivity. Qed.

(* ================================================================== *)
(** * Part III. Further properties *)
(* ================================================================== *)

(** ** The groups of the resolver *)

Lemma str_eqb_sym (a b : pystr) : str_eqb a b = str_eqb b a.
Proof.
  destruct (str_eqb a b) eqn:E; symmetry.
  - apply str_eqb_eq in E. subst. apply str_eqb_refl.
  - apply str_eqb_neq. apply str_eqb_neq in E. congruence.
Qed.

Lemma dict_get_setdefault_append d q t k :
  dict_get (setdefault_append d q t) k
  = if str_eqb q k
    then Some (match dict_get d q with Some arr => arr ++ [t] | None => [t] end)
    else dict_get d k.
Proof.
  induction d as [|[k0 arr0] d IH]; simpl.
  - reflexivity.
  - destruct (str_eqb k0 q) eqn:E0; simpl.
    + apply str_eqb_eq in E0. subst k0. destruct (str_eqb q k); reflexivity.
    + rewrite IH. destruct (str_eqb q k) eqn:Eq; [|reflexivity].
      apply str_eqb_eq in Eq. subst k. rewrite E0. reflexivity.
Qed.

Lemma group_fold_get ts d k :
  dict_get
    (fold_left
       (fun d t =>
          let q := str_lower (or_empty (t_quality t)) in
          if truthy q then setdefault_append d q t else d) ts d) k
  = match dict_get d k with
    | Some arr => Some (arr ++ group_of ts k)
    | None => match group_of ts k with [] => None | g => Some g end
    end.
Proof.
  revert d. induction ts as [|t ts IH]; intros d; simpl.
  - destruct (dict_get d k); [rewrite app_nil_r|]; reflexivity.
  - rewrite IH. unfold group_of at 3 4 5. simpl. fold (group_of ts k).
    unfold lowered_quality.
    destruct (truthy (str_lower (or_empty (t_quality t)))) eqn:Et; simpl.
    + rewrite dict_get_setdefault_append.
      destruct (str_eqb (str_lower (or_empty (t_quality t))) k) eqn:Ek.
      * apply str_eqb_eq in Ek. rewrite Ek.
        destruct (dict_get d k); [rewrite <- app_assoc|]; reflexivity.
      * reflexivity.
    + reflexivity.
Qed.

(** [by_quality[k]] before the sort is the sublist of the torrents of
    quality [k]. *)
Lemma group_by_quality_get ts k :
  dict_get (group_by_quality ts) k
  = match group_of ts k with [] => None | g => Some g end.
Proof. unfold group_by_quality. rewrite group_fold_get. reflexivity. Qed.

Lemma sort_groups_get d k :
  dict_get (sort_groups d) k
  = option_map (sort_by_key bluray_key) (dict_get d k).
Proof.
  induction d as [|[k0 arr] d IH]; simpl; [reflexivity|].
  destruct (str_eqb k0 k); [reflexivity|exact IH].
Qed.

Lemma bluray_key_val (t : Torrent) :
  bluray_key t = if is_bluray t then 0%nat else 1%nat.
Proof. reflexivity. Qed.

Lemma insert_bluray x (A B : list Torrent) :
  Forall (fun t => is_bluray t = true) A ->
  Forall (fun t => is_bluray t = false) B ->
  insert_by_key bluray_key x (A ++ B)
  = if is_bluray x then x :: A ++ B else A ++ x :: B.
Proof.
  intros HA HB. induction HA as [|a A Ha HA IH].
  - destruct B as [|b B]; cbn [app insert_by_key].
    + destruct (is_bluray x); reflexivity.
    + inversion HB as [|? ? Hb _]; subst.
      rewrite !bluray_key_val, Hb. destruct (is_bluray x); reflexivity.
  - cbn [app insert_by_key]. rewrite !bluray_key_val, Ha.
    destruct (is_bluray x) eqn:Ex; cbn [Nat.leb]; [reflexivity|].
    f_equal. rewrite <- IH. reflexivity.
Qed.

(** The stable sort on the bluray key puts the bluray torrents in front
    and keeps the list order in both parts. *)
Lemma sort_bluray_first (g : list Torrent) :
  sort_by_key bluray_key g = bluray_first g.
Proof.
  unfold bluray_first. induction g as [|x g IH]; simpl; [reflexivity|].
  fold (sort_by_key bluray_key g). rewrite IH, insert_bluray.
  - destruct (is_bluray x); reflexivity.
  - apply Forall_forall. intros t Ht. apply filter_In in Ht. tauto.
  - apply Forall_forall. intros t Ht. apply filter_In in Ht.
    destruct Ht as [_ Ht]. apply negb_true_iff. exact Ht.
Qed.

Lemma bluray_first_nil g : bluray_first g = [] -> g = [].
Proof.
  destruct g as [|x g]; [reflexivity|]. unfold bluray_first. simpl.
  destruct (is_bluray x); simpl; [discriminate|].
  intros H. apply app_eq_nil in H. destruct H as [_ H]. discriminate.
Qed.

(** The lookups of [_choose_next_quality] in terms of the torrents. *)
Lemma by_quality_mem ts k :
  dict_mem (sort_groups (group_by_quality ts)) k
  = match group_of ts k with [] => false | _ => true end.
Proof.
  unfold dict_mem. rewrite sort_groups_get, group_by_quality_get.
  destruct (group_of ts k); reflexivity.
Qed.

Lemma by_quality_first ts k :
  first_of (sort_groups (group_by_quality ts)) k
  = hd_error (bluray_first (group_of ts k)).
Proof.
  unfold first_of. rewrite sort_groups_get, group_by_quality_get.
  destruct (group_of ts k) as [|t g] eqn:E; [reflexivity|].
  cbn [option_map]. rewrite sort_bluray_first. reflexivity.
Qed.

Lemma setdefault_append_keys d q t :
  map fst (setdefault_append d q t)
  = if dict_mem d q then map fst d else map fst d ++ [q].
Proof.
  unfold dict_mem. induction d as [|[k0 arr0] d IH]; simpl; [reflexivity|].
  destruct (str_eqb k0 q) eqn:E; simpl; [reflexivity|].
  rewrite IH. destruct (dict_get d q); reflexivity.
Qed.

Lemma dict_mem_In_key {V} (d : list (pystr * V)) (k : pystr) :
  dict_mem d k = true <-> In k (map fst d).
Proof.
  unfold dict_mem. induction d as [|[k0 v] d IH]; simpl.
  - split; [discriminate|tauto].
  - destruct (str_eqb k0 k) eqn:E.
    + apply str_eqb_eq in E. split; auto.
    + rewrite IH. apply str_eqb_neq in E. split; [auto|].
      intros [H|H]; [contradiction|exact H].
Qed.

Lemma group_by_quality_keys_NoDup ts :
  NoDup (map fst (group_by_quality ts)).
Proof.
  unfold group_by_quality.
  assert (H : forall d, NoDup (map fst d) ->
    NoDup (map fst
      (fold_left
         (fun d t =>
            let q := str_lower (or_empty (t_quality t)) in
            if truthy q then setdefault_append d q t else d) ts d))).
  { induction ts as [|t ts IH]; intros d Hd; simpl; [exact Hd|].
    apply IH.
    destruct (truthy (str_lower (or_empty (t_quality t)))); [|exact Hd].
    rewrite setdefault_append_keys.
    destruct (dict_mem d (str_lower (or_empty (t_quality t)))) eqn:E;
      [exact Hd|].
    apply NoDup_app; [exact Hd|constructor; [intros []|constructor]|].
    intros x Hx [<-|[]]. apply dict_mem_In_key in Hx. congruence. }
  apply H. constructor.
Qed.

Lemma dict_get_unique {V} (d : list (pystr * V)) (k : pystr) (v : V) :
  NoDup (map fst d) -> In (k, v) d -> dict_get d k = Some v.
Proof.
  induction d as [|[k0 v0] d IH]; simpl; intros Hn Hin; [destruct Hin|].
  inversion Hn as [|? ? Hk Hn']; subst.
  destruct Hin as [E|Hin].
  - inversion E; subst. rewrite str_eqb_refl. reflexivity.
  - destruct (str_eqb k0 k) eqn:E.
    + apply str_eqb_eq in E. subst k0. exfalso. apply Hk.
      apply in_map_iff. exists (k, v). auto.
    + exact (IH Hn' Hin).
Qed.

(** An entry of [by_quality] is a quality some torrent has, with the
    torrents of that quality, bluray first. *)
Lemma by_quality_entry ts k arr :
  In (k, arr) (sort_groups (group_by_quality ts)) ->
  group_of ts k <> [] /\ arr = bluray_first (group_of ts k).
Proof.
  intros Hin.
  assert (Hg : dict_get (sort_groups (group_by_quality ts)) k = Some arr).
  { apply dict_get_unique; [|exact Hin].
    unfold sort_groups. rewrite map_map. simpl.
    apply group_by_quality_keys_NoDup. }
  rewrite sort_groups_get, group_by_quality_get in Hg.
  destruct (group_of ts k) as [|t g]; [discriminate|].
  split; [discriminate|]. cbn [option_map] in Hg.
  rewrite sort_bluray_first in Hg. congruence.
Qed.

Lemma group_of_nonempty_mem ts k :
  group_of ts k <> [] ->
  dict_mem (sort_groups (group_by_quality ts)) k = true.
Proof.
  intros H. rewrite by_quality_mem. destruct (group_of ts k); congruence.
Qed.

Lemma by_quality_mem_nonempty ts k :
  dict_mem (sort_groups (group_by_quality ts)) k = true ->
  group_of ts k <> [].
Proof.
  rewrite by_quality_mem. destruct (group_of ts k); [discriminate|].
  intros _. discriminate.
Qed.

(** The ladder loop in terms of the torrents. *)
Lemma ladder_spec pref ts r :
  match ladder pref (sort_groups (group_by_quality ts)) r with
  | Some (want, tor) =>
      exists pre post,
        pref = pre ++ want :: post
        /\ (forall w, In w pre ->
              ~ (r < quality_rank (str_lower w)
                 /\ group_of ts (str_lower w) <> []))
        /\ r < quality_rank (str_lower want)
        /\ group_of ts (str_lower want) <> []
        /\ tor = hd_error (bluray_first (group_of ts (str_lower want)))
  | None =>
      forall w, In w pref ->
        ~ (r < quality_rank (str_lower w) /\ group_of ts (str_lower w) <> [])
  end.
Proof.
  induction pref as [|w pref IH]; simpl; [intros w []|].
  destruct (Qgtb (quality_rank (str_lower w)) r
            && dict_mem (sort_groups (group_by_quality ts)) (str_lower w))%bool
    eqn:E.
  - apply andb_true_iff in E. destruct E as [E1 E2].
    apply Qgtb_lt in E1. apply by_quality_mem_nonempty in E2.
    exists [], pref. split; [reflexivity|]. split; [intros ? []|].
    split; [exact E1|]. split; [exact E2|]. apply by_quality_first.
  - assert (Hw : ~ (r < quality_rank (str_lower w)
                    /\ group_of ts (str_lower w) <> [])).
    { intros [H1 H2]. apply Qgtb_lt in H1.
      apply group_of_nonempty_mem in H2. rewrite H1, H2 in E. discriminate. }
    destruct (ladder pref (sort_groups (group_by_quality ts)) r)
      as [[want tor]|].
    + destruct IH as (pre & post & -> & Hpre & H1 & H2 & H3).
      exists (w :: pre), post. split; [reflexivity|].
      split; [|auto]. intros x [<-|Hx]; [exact Hw|exact (Hpre x Hx)].
    + intros x [<-|Hx]; [exact Hw|exact (IH x Hx)].
Qed.

Lemma fallback_candidates_complete d r k arr :
  In (k, arr) d -> r < quality_rank k ->
  In (quality_rank k, k, hd_error arr) (fallback_candidates d r).
Proof.
  intros Hin Hr. induction d as [|[k0 arr0] d IH]; simpl; [destruct Hin|].
  destruct Hin as [E|Hin].
  - inversion E; subst. apply Qgtb_lt in Hr. rewrite Hr. left; reflexivity.
  - destruct (Qgtb (quality_rank k0) r); [right|]; exact (IH Hin).
Qed.

(** The first element of the descending sort has the greatest rank. *)
Lemma sort_desc_head_max l x rest :
  sort_desc l = x :: rest ->
  forall y, In y l -> fst (fst y) <= fst (fst x).
Proof.
  assert (Hins : forall a s,
    (forall h t, s = h :: t -> forall y, In y s -> fst (fst y) <= fst (fst h)) ->
    forall h t, insert_desc a s = h :: t ->
    forall y, In y (insert_desc a s) -> fst (fst y) <= fst (fst h)).
  { intros a s Hs h t Hh y Hy. destruct s as [|b s]; simpl in *.
    - inversion Hh; subst. destruct Hy as [<-|[]]. apply Qle_refl.
    - specialize (Hs b s eq_refl).
      destruct a as [[ra qa] ta], b as [[rb qb] tb].
      unfold cand_ltb in *. simpl in Hs.
      destruct (Qgtb rb ra || Qeq_bool ra rb && str_ltb qa qb)%bool eqn:E.
      + inversion Hh; subst. simpl fst.
        assert (Hab : ra <= rb).
        { apply orb_true_iff in E. destruct E as [E|E].
          - apply Qgtb_lt in E. apply Qlt_le_weak. exact E.
          - apply andb_true_iff in E. destruct E as [E _].
            apply Qeq_bool_iff in E. rewrite E. apply Qle_refl. }
        destruct Hy as [<-|Hy]; [apply Qle_refl|].
        apply insert_desc_In in Hy. destruct Hy as [->|Hy]; [exact Hab|].
        exact (Hs y (or_intror Hy)).
      + inversion Hh; subst. simpl fst.
        assert (Hba : rb <= ra).
        { apply orb_false_iff in E. destruct E as [E _].
          unfold Qgtb in E. apply negb_false_iff in E.
          apply Qle_bool_iff in E. exact E. }
        destruct Hy as [<-|Hy]; [apply Qle_refl|].
        apply Qle_trans with rb; [|exact Hba]. exact (Hs y Hy). }
  revert x rest. induction l as [|a l IH]; intros x rest Hx y Hy.
  - destruct Hy.
  - simpl in Hx. fold (sort_desc l) in Hx.
    apply (Hins a (sort_desc l)) with (t := rest); [|exact Hx|].
    + intros h t Hs z Hz. apply (IH h t Hs). apply sort_desc_In. exact Hz.
    + apply insert_desc_In. destruct Hy as [<-|Hy]; [left; reflexivity|].
      right. apply sort_desc_In. exact Hy.
Qed.

Lemma group_of_key ts k t :
  In t (group_of ts k) ->
  In t ts /\ lowered_quality t = k /\ truthy k = true.
Proof.
  unfold group_of. rewrite filter_In, andb_true_iff, str_eqb_eq.
  intros (H1 & H2 & H3). subst k. auto.
Qed.

Lemma group_of_lowered ts k : group_of ts k <> [] -> str_lower k = k.
Proof.
  destruct (group_of ts k) as [|t g] eqn:E; [congruence|]. intros _.
  destruct (@group_of_key ts k t) as (_ & <- & _).
  { rewrite E. left; reflexivity. }
  apply str_lower_idem.
Qed.

(** What [_choose_next_quality] returns, in terms of the torrents: an
    entry of the ladder that no earlier entry beats, or else the best
    ranked quality on offer, each with the first bluray torrent of that
    quality (the first torrent when none is bluray); or nothing, when no
    quality is on offer. *)
Lemma choose_next_quality_spec (m : YTSMovie) (r : Q) :
  (exists k,
      _choose_next_quality m r
      = (k, hd_error (bluray_first (group_of (torrents m) k)))
      /\ offers m r k /\ str_lower k = k
      /\ ((exists pre post,
              ladder_of m = pre ++ k :: post
              /\ forall w, In w pre -> ~ offers m r w)
          \/ ((forall w, In w (ladder_of m) -> ~ offers m r w)
              /\ forall k', offers m r k' ->
                            quality_rank k' <= quality_rank k)))
  \/ (_choose_next_quality m r = ([], None)
      /\ forall k, ~ offers m r k).
Proof.
  unfold _choose_next_quality. fold (ladder_of m).
  pose proof (ladder_spec (ladder_of m) (torrents m) r) as HL.
  assert (Hlow : forall w, In w (ladder_of m) -> str_lower w = w).
  { intros w Hw. exact (proj1 (@pref_labels m w Hw)). }
  destruct (ladder (ladder_of m) (sort_groups (group_by_quality (torrents m))) r)
    as [[want tor]|].
  - left. destruct HL as (pre & post & Hp & Hpre & H1 & H2 & ->).
    assert (Hw : str_lower want = want).
    { apply Hlow. rewrite Hp. apply in_or_app. right. left. reflexivity. }
    rewrite Hw in *. exists want. split; [reflexivity|].
    split; [split; assumption|]. split; [exact Hw|]. left.
    exists pre, post. split; [exact Hp|]. intros w Hin [Ho1 Ho2].
    assert (Hw' : str_lower w = w).
    { apply Hlow. rewrite Hp. apply in_or_app. left. exact Hin. }
    apply (Hpre w Hin). rewrite Hw'. split; assumption.
  - assert (Hnone : forall w, In w (ladder_of m) -> ~ offers m r w).
    { intros w Hin [Ho1 Ho2]. apply (HL w Hin).
      rewrite (Hlow w Hin). split; assumption. }
    destruct (sort_desc
                (fallback_candidates
                   (sort_groups (group_by_quality (torrents m))) r))
      as [|[[rk qk] tor] rest] eqn:S.
    + right. split; [reflexivity|]. intros k [Ho1 Ho2].
      apply group_of_nonempty_mem in Ho2. unfold dict_mem in Ho2.
      destruct (dict_get (sort_groups (group_by_quality (torrents m))) k)
        as [arr|] eqn:G; [|discriminate].
      apply dict_get_In in G.
      pose proof (@fallback_candidates_complete _ r _ _ G Ho1) as Hc.
      apply sort_desc_In in Hc. rewrite S in Hc. exact Hc.
    + left. exists qk.
      assert (Hin : In (rk, qk, tor)
                       (fallback_candidates
                          (sort_groups (group_by_quality (torrents m))) r)).
      { apply sort_desc_In. rewrite S. left; reflexivity. }
      apply fallback_candidates_In in Hin.
      destruct Hin as (q & a & Hqa & Heq & Hr). inversion Heq; subst.
      apply by_quality_entry in Hqa. destruct Hqa as [Hne ->].
      split; [reflexivity|]. split; [split; assumption|].
      split; [exact (group_of_lowered _ _ Hne)|]. right.
      split; [exact Hnone|]. intros k' [Ho1 Ho2].
      apply group_of_nonempty_mem in Ho2. unfold dict_mem in Ho2.
      destruct (dict_get (sort_groups (group_by_quality (torrents m))) k')
        as [arr|] eqn:G; [|discriminate].
      apply dict_get_In in G.
      pose proof (@fallback_candidates_complete _ r _ _ G Ho1) as Hc.
      exact (@sort_desc_head_max _ _ _ S _ Hc).
Qed.

Lemma group_of_In ts t :
  In t ts -> truthy (lowered_quality t) = true ->
  In t (group_of ts (lowered_quality t)).
Proof.
  intros Hin Ht. unfold group_of. apply filter_In. split; [exact Hin|].
  rewrite Ht, str_eqb_refl. reflexivity.
Qed.

Lemma group_of_empty_label ts : group_of ts [] = [].
Proof.
  destruct (group_of ts []) as [|t g] eqn:E; [reflexivity|].
  destruct (@group_of_key ts [] t) as (_ & _ & H); [|discriminate H].
  rewrite E. left; reflexivity.
Qed.

Lemma first_candidate_unique {A} (P : A -> Prop) pre k post pre' k' post' :
  pre ++ k :: post = pre' ++ k' :: post' ->
  P k -> P k' ->
  (forall w, In w pre -> ~ P w) -> (forall w, In w pre' -> ~ P w) ->
  k = k'.
Proof.
  revert pre'. induction pre as [|a pre IH]; intros [|a' pre'] E Hk Hk' H H';
    simpl in E; injection E as E1 E2.
  - exact E1.
  - exfalso. apply (H' a'); [left; reflexivity|]. rewrite <- E1. exact Hk.
  - exfalso. apply (H a); [left; reflexivity|]. rewrite E1. exact Hk'.
  - apply (IH pre'); auto.
    + intros w Hw. apply H. right; exact Hw.
    + intros w Hw. apply H'. right; exact Hw.
Qed.

(** ** The resolver: further properties *)

(** X1.  No upgrade is reported exactly when there is none: the result of
    [_choose_next_quality] is the empty label with no variant if and only
    if every torrent of the movie that names a quality has a rank in
    [QUALITY_RANK] (0 for an unlisted quality) that does not exceed the
    current rank. *)
Theorem choose_next_quality_none_iff (m : YTSMovie) (cur_rank : Q) :
  _choose_next_quality m cur_rank = ([], None)
  <-> forall t, In t (torrents m) ->
        truthy (lowered_quality t) = true ->
        quality_rank (lowered_quality t) <= cur_rank.
Proof.
  destruct (choose_next_quality_spec m cur_rank)
    as [(k & E & [Hr Hg] & _ & _)|[E Hno]]; rewrite E; split.
  - intros H. inversion H as [[Hk Ht]]. subst k.
    rewrite group_of_empty_label in Hg. congruence.
  - intros H. exfalso.
    destruct (group_of (torrents m) k) as [|t g] eqn:G; [congruence|].
    destruct (@group_of_key (torrents m) k t) as (Hin & Hq & Ht).
    { rewrite G. left; reflexivity. }
    subst k. apply (Qlt_not_le _ _ Hr). exact (H t Hin Ht).
  - intros _ t Hin Ht. apply Qnot_lt_le. intros Hr.
    apply (Hno (lowered_quality t)). split; [exact Hr|].
    intros Hnil. pose proof (@group_of_In _ _ Hin Ht) as Hg.
    rewrite Hnil in Hg. destruct Hg.
  - reflexivity.
Qed.

(** X2.  Which variant is returned: among the movie's torrents whose quality,
    lower-cased, is the returned label, the first one of type bluray in
    the movie's order, and the first one of that quality when none is
    bluray ([bluray_first] lists the bluray torrents before the others,
    each part in the movie's order). *)
Theorem choose_next_quality_bluray_first (m : YTSMovie) (cur_rank : Q) :
  snd (_choose_next_quality m cur_rank)
  = hd_error
      (bluray_first
         (group_of (torrents m) (fst (_choose_next_quality m cur_rank)))).
Proof.
  destruct (choose_next_quality_spec m cur_rank)
    as [(k & E & _)|[E _]]; rewrite E; simpl fst; simpl snd.
  - reflexivity.
  - rewrite group_of_empty_label. reflexivity.
Qed.

(** X3.  The ladder is a priority list: the first entry of the movie's ladder
    (the high ladder from rating 7 on, the default ladder below) that is
    on offer, that is, ranks above the current rank and is the quality of
    some torrent, is the label returned, whatever better ranked qualities
    the movie has. *)
Theorem choose_next_quality_ladder_first (m : YTSMovie) (cur_rank : Q)
  (pre post : list pystr) (k : pystr) :
  ladder_of m = pre ++ k :: post ->
  offers m cur_rank k ->
  (forall w, In w pre -> ~ offers m cur_rank w) ->
  fst (_choose_next_quality m cur_rank) = k.
Proof.
  intros Hp Hk Hpre.
  destruct (choose_next_quality_spec m cur_rank)
    as [(k' & E & Ho & _ & [(pre' & post' & Hp' & Hpre')|[Hnone _]])
       |[_ Hno]].
  - rewrite E. simpl. symmetry. rewrite Hp in Hp'.
    exact (@first_candidate_unique _ (offers m cur_rank) _ _ _ _ _ _
             Hp' Hk Ho Hpre Hpre').
  - exfalso. apply (Hnone k); [|exact Hk].
    rewrite Hp. apply in_or_app. right. left. reflexivity.
  - exfalso. exact (Hno k Hk).
Qed.

Lemma choose_next_quality_ladder_first_witness :
  fst (_choose_next_quality two_encodes 0) = lit "1080p".
Proof.
  apply (@choose_next_quality_ladder_first two_encodes 0 [lit "2160p"]
           [lit "720p"] (lit "1080p")).
  - reflexivity.
  - split; [reflexivity|vm_compute; discriminate].
  - intros w [<-|[]] [_ Hg]. apply Hg. reflexivity.
Defined.

(** X4.  Outside the ladder the best rank wins: when no entry of the movie's
    ladder is on offer, no quality on offer outranks the label returned
    (so a movie rated below 7 with a 1440p and a 2160p encode, at a
    current rank of 2 or more, is pointed at 2160p). *)
Theorem choose_next_quality_fallback_best (m : YTSMovie) (cur_rank : Q)
  (k : pystr) :
  (forall w, In w (ladder_of m) -> ~ offers m cur_rank w) ->
  offers m cur_rank k ->
  offers m cur_rank (fst (_choose_next_quality m cur_rank))
  /\ quality_rank k <= quality_rank (fst (_choose_next_quality m cur_rank)).
Proof.
  intros Hnone Hk.
  destruct (choose_next_quality_spec m cur_rank)
    as [(k' & E & Ho & _ & [(pre' & post' & Hp' & _)|[_ Hmax]])
       |[_ Hno]].
  - exfalso. apply (Hnone k'); [|exact Ho].
    rewrite Hp'. apply in_or_app. right. left. reflexivity.
  - rewrite E. simpl. split; [exact Ho|exact (Hmax k Hk)].
  - exfalso. exact (Hno k Hk).
Qed.

Lemma choose_next_quality_fallback_best_witness :
  offers low_rated_movie 2 (fst (_choose_next_quality low_rated_movie 2))
  /\ quality_rank (lit "1440p")
     <= quality_rank (fst (_choose_next_quality low_rated_movie 2)).
Proof.
  apply (@choose_next_quality_fallback_best low_rated_movie 2 (lit "1440p")).
  - intros w [<-|[<-|[]]] [Hr _]; vm_compute in Hr; discriminate.
  - split; [reflexivity|vm_compute; discriminate].
Defined.

(** ** The candidate selector: further properties *)

Lemma tuple_ltb_cons_false x a y b :
  tuple_ltb (x :: a) (y :: b) = false
  <-> y < x \/ (x == y /\ tuple_ltb a b = false).
Proof.
  simpl. destruct (Qeq_bool x y) eqn:E.
  - apply Qeq_bool_iff in E. split; [auto|].
    intros [H|[_ H]]; [|exact H]. rewrite E in H.
    exfalso. exact (Qlt_irrefl _ H).
  - apply Qeq_bool_neq in E. unfold Qgtb. rewrite negb_false_iff.
    rewrite Qle_bool_iff. split.
    + intros H. left. apply Qle_lteq in H. destruct H as [H|H]; [exact H|].
      exfalso. apply E. symmetry. exact H.
    + intros [H|[H _]]; [apply Qlt_le_weak; exact H|contradiction].
Qed.

Lemma tuple_ltb_cons_true x a y b :
  tuple_ltb (x :: a) (y :: b) = true
  <-> x < y \/ (x == y /\ tuple_ltb a b = true).
Proof.
  simpl. destruct (Qeq_bool x y) eqn:E.
  - apply Qeq_bool_iff in E. split; [auto|].
    intros [H|[_ H]]; [|exact H]. rewrite E in H.
    exfalso. exact (Qlt_irrefl _ H).
  - apply Qeq_bool_neq in E. rewrite Qgtb_lt. split; [auto|].
    intros [H|[H _]]; [exact H|contradiction].
Qed.

(** The order of tuples is a total preorder: [tuple_ltb a b = false]
    reads [b <= a]. *)
Lemma tuple_ge_trans a : forall b c,
  tuple_ltb a b = false -> tuple_ltb b c = false -> tuple_ltb a c = false.
Proof.
  induction a as [|x a IH]; intros [|y b] [|z c]; try (simpl; congruence).
  rewrite !tuple_ltb_cons_false.
  intros [H1|[E1 H1]] [H2|[E2 H2]].
  - left. apply Qlt_trans with y; assumption.
  - left. rewrite <- E2. exact H1.
  - left. rewrite E1. exact H2.
  - right. split; [rewrite E1; exact E2|]. exact (IH b c H1 H2).
Qed.

Lemma tuple_ltb_asym a : forall b,
  tuple_ltb a b = true -> tuple_ltb b a = false.
Proof.
  induction a as [|x a IH]; intros [|y b]; try (simpl; congruence).
  rewrite tuple_ltb_cons_true, tuple_ltb_cons_false.
  intros [H|[E H]]; [left; exact H|].
  right. split; [symmetry; exact E|]. exact (IH b H).
Qed.

Lemma tuple_ltb_irrefl a : tuple_ltb a a = false.
Proof.
  induction a as [|x a IH]; [reflexivity|].
  apply tuple_ltb_cons_false. right. split; [reflexivity|exact IH].
Qed.

Lemma max_from_In {A} (key : A -> list Q) (l : list A) : forall best,
  In (max_from key best l) (best :: l).
Proof.
  induction l as [|x l IH]; intros best; simpl; [left; reflexivity|].
  destruct (tuple_ltb (key best) (key x)).
  - right. exact (IH x).
  - destruct (IH best) as [H|H]; [left; exact H|right; right; exact H].
Qed.

(** [max] returns an element that no element of the list beats. *)
Lemma max_from_greatest {A} (key : A -> list Q) (l : list A) : forall best x,
  In x (best :: l) ->
  tuple_ltb (key (max_from key best l)) (key x) = false.
Proof.
  induction l as [|y l IH]; intros best x Hx; simpl.
  - destruct Hx as [<-|[]]. apply tuple_ltb_irrefl.
  - destruct (tuple_ltb (key best) (key y)) eqn:E.
    + destruct Hx as [<-|Hx]; [|exact (IH y x Hx)].
      apply tuple_ge_trans with (key y);
        [apply IH; left; reflexivity|apply tuple_ltb_asym; exact E].
    + destruct Hx as [<-|[<-|Hx]].
      * apply IH. left; reflexivity.
      * apply tuple_ge_trans with (key best);
          [apply IH; left; reflexivity|exact E].
      * apply IH. right; exact Hx.
Qed.

Lemma py_max_spec {A} (key : A -> list Q) (l : list A) :
  l <> [] ->
  exists b, py_max key l = Some b /\ In b l
            /\ forall x, In x l -> tuple_ltb (key b) (key x) = false.
Proof.
  destruct l as [|a l]; [congruence|]. intros _. simpl.
  exists (max_from key a l). split; [reflexivity|].
  split; [apply max_from_In|]. intros x Hx. apply max_from_greatest. exact Hx.
Qed.

Lemma filter_none {A} (l : list A) : filter (fun _ => false) l = [].
Proof. induction l as [|a l IH]; simpl; [reflexivity|exact IH]. Qed.

Lemma best_match_same_year W movies title_ year_ :
  _best_match W movies title_ year_
  = match filter (wanted_year year_) movies with
    | [] => py_max (score W title_ year_) movies
    | same_year =>
        py_max (fun m => [rating m; _title_similarity W title_ (title m)])
               same_year
    end.
Proof.
  unfold _best_match. destruct movies as [|m movies]; [reflexivity|].
  assert (E : filter (wanted_year year_) (m :: movies)
              = match year_ with
                | Some y =>
                    if year_truthy year_
                    then filter (fun m => (year m =? y)%Z) (m :: movies)
                    else []
                | None => []
                end).
  { unfold wanted_year. destruct year_ as [y|]; [|apply filter_none].
    destruct (year_truthy (Some y)); [reflexivity|apply filter_none]. }
  rewrite E.
  destruct (match year_ with
            | Some y =>
                if year_truthy year_
                then filter (fun m => (year m =? y)%Z) (m :: movies)
                else []
            | None => []
            end); reflexivity.
Qed.

Lemma key_ge_rating (r1 s1 r2 s2 : Q) (k1 k2 : list Q) :
  tuple_ltb (r1 :: s1 :: k1) (r2 :: s2 :: k2) = false ->
  r2 <= r1 /\ (r2 == r1 -> s2 <= s1).
Proof.
  rewrite tuple_ltb_cons_false. intros [H|[E H]].
  - split; [apply Qlt_le_weak; exact H|].
    intros E. rewrite E in H. exfalso. exact (Qlt_irrefl _ H).
  - split; [rewrite E; apply Qle_refl|]. intros _.
    apply tuple_ltb_cons_false in H. destruct H as [H|[E' _]].
    + apply Qlt_le_weak; exact H.
    + rewrite E'. apply Qle_refl.
Qed.

(** X5.  The year comes first: when a target year is given and some candidate
    has it, [_best_match] returns a candidate of that year, and among the
    candidates of that year one of the highest rating, the title
    similarity deciding between equal ratings; a better rated candidate
    of another year does not win. *)
Theorem best_match_prefers_year (W : World) (movies : list YTSMovie)
  (title_ : pystr) (year_ : option Z) (c : YTSMovie) :
  In c movies -> wanted_year year_ c = true ->
  exists b,
    _best_match W movies title_ year_ = Some b
    /\ In b movies /\ wanted_year year_ b = true
    /\ forall c', In c' movies -> wanted_year year_ c' = true ->
         rating c' <= rating b
         /\ (rating c' == rating b ->
             _title_similarity W title_ (title c')
             <= _title_similarity W title_ (title b)).
Proof.
  intros Hc Hy. rewrite best_match_same_year.
  assert (Hin : In c (filter (wanted_year year_) movies)).
  { apply filter_In. auto. }
  destruct (filter (wanted_year year_) movies) as [|a same_year] eqn:F;
    [destruct Hin|].
  destruct (@py_max_spec _
              (fun m => [rating m; _title_similarity W title_ (title m)])
              (a :: same_year)) as (b & -> & Hb & Hmax); [discriminate|].
  exists b. split; [reflexivity|].
  rewrite <- F in Hb. apply filter_In in Hb. destruct Hb as [Hb1 Hb2].
  split; [exact Hb1|]. split; [exact Hb2|].
  intros c' Hc' Hy'. apply (@key_ge_rating _ _ _ _ [] []).
  apply Hmax. rewrite <- F. apply filter_In. auto.
Qed.

Lemma best_match_prefers_year_witness :
  exists b,
    _best_match silent_world three_candidates (lit "The Matrix") (Some 1999%Z)
    = Some b
    /\ In b three_candidates /\ wanted_year (Some 1999%Z) b = true
    /\ forall c', In c' three_candidates ->
         wanted_year (Some 1999%Z) c' = true ->
         rating c' <= rating b
         /\ (rating c' == rating b ->
             _title_similarity silent_world (lit "The Matrix") (title c')
             <= _title_similarity silent_world (lit "The Matrix") (title b)).
Proof.
  apply (@best_match_prefers_year silent_world three_candidates
           (lit "The Matrix") (Some 1999%Z)
           (mk_movie 2 "Matrix" 1999 1 "TT0133093" [])).
  - right. left. reflexivity.
  - reflexivity.
Defined.

(** X6.  Otherwise the rating decides: when the list is not empty and no
    candidate has the target year (or none was given), [_best_match]
    returns a candidate of the highest rating of the whole list, the
    title similarity deciding between equal ratings. *)
Theorem best_match_highest_rating (W : World) (movies : list YTSMovie)
  (title_ : pystr) (year_ : option Z) :
  movies <> [] ->
  (forall c, In c movies -> wanted_year year_ c = false) ->
  exists b,
    _best_match W movies title_ year_ = Some b
    /\ In b movies
    /\ forall c, In c movies ->
         rating c <= rating b
         /\ (rating c == rating b ->
             _title_similarity W title_ (title c)
             <= _title_similarity W title_ (title b)).
Proof.
  intros Hne Hno. rewrite best_match_same_year.
  destruct (filter (wanted_year year_) movies) as [|a same_year] eqn:F.
  - destruct (@py_max_spec _ (score W title_ year_) movies Hne)
      as (b & -> & Hb & Hmax).
    exists b. split; [reflexivity|]. split; [exact Hb|].
    intros c Hc. specialize (Hmax c Hc). unfold score in Hmax.
    exact (@key_ge_rating _ _ _ _ _ _ Hmax).
  - exfalso. assert (H : In a (filter (wanted_year year_) movies)).
    { rewrite F. left; reflexivity. }
    apply filter_In in H. destruct H as [H1 H2].
    rewrite (Hno a H1) in H2. discriminate.
Qed.

Lemma best_match_highest_rating_witness :
  exists b,
    _best_match silent_world three_candidates (lit "The Matrix") None = Some b
    /\ In b three_candidates
    /\ forall c, In c three_candidates ->
         rating c <= rating b
         /\ (rating c == rating b ->
             _title_similarity silent_world (lit "The Matrix") (title c)
             <= _title_similarity silent_world (lit "The Matrix") (title b)).
Proof.
  apply (@best_match_highest_rating silent_world three_candidates
           (lit "The Matrix") None).
  - discriminate.
  - intros c _. reflexivity.
Defined.

(** ** The search client: further properties *)

Section SearchClientMore.
Variable fetch : pystr -> Z -> outcome.
Variable retries : Z.
Variable slow_after : Q.

Let loop := attempt_loop fetch retries slow_after.

(** Every request of the loop on one mirror is the first one, or follows
    a retryable outcome within the allowed retries. *)
Lemma attempt_loop_gets fuel base : forall attempt backoff b j,
  In (Get b j) (snd (loop fuel base attempt backoff)) ->
  b = base
  /\ (j = attempt + 1
      \/ (attempt + 1 < j /\ j - 1 <= retries
          /\ retryable slow_after (fetch base (j - 1)) = true))%Z.
Proof.
  induction fuel as [|fuel IH]; intros attempt backoff b j; [intros []|].
  unfold loop. rewrite attempt_loop_S. fold loop. cbv zeta.
  assert (Hstop : In (Get b j) [Get base (attempt + 1)%Z] ->
    b = base
    /\ (j = attempt + 1
        \/ (attempt + 1 < j /\ j - 1 <= retries
            /\ retryable slow_after (fetch base (j - 1)) = true))%Z).
  { intros [H|[]]. inversion H; subst. auto. }
  assert (Hagain :
    (attempt + 1 <=? retries)%Z = true ->
    retryable slow_after (fetch base (attempt + 1)%Z) = true ->
    In (Get b j)
       (snd (let '(x, tr) := loop fuel base (attempt + 1)%Z (backoff * 2) in
             (x, Get base (attempt + 1)%Z
                   :: Sleep base (attempt + 1)%Z backoff :: tr))) ->
    b = base
    /\ (j = attempt + 1
        \/ (attempt + 1 < j /\ j - 1 <= retries
            /\ retryable slow_after (fetch base (j - 1)) = true))%Z).
  { intros Hle Hre. apply Z.leb_le in Hle.
    specialize (IH (attempt + 1)%Z (backoff * 2) b j).
    destruct (loop fuel base (attempt + 1)%Z (backoff * 2)) as [x tr].
    cbn [snd]. intros [H|[H|H]]; [|discriminate|].
    - inversion H; subst. auto.
    - destruct (IH H) as [-> [->|(H1 & H2 & H3)]]; (split; [reflexivity|]).
      + right. replace (attempt + 1 + 1 - 1)%Z with (attempt + 1)%Z by lia.
        split; [lia|]. split; [exact Hle|exact Hre].
      + right. split; [lia|]. split; assumption. }
  destruct (fetch base (attempt + 1)%Z) as [e| |movies elapsed|] eqn:F;
    try exact Hstop.
  - destruct (_is_dns_error e) eqn:D; [exact Hstop|].
    destruct (attempt + 1 <=? retries)%Z eqn:L; [|exact Hstop].
    apply Hagain; [reflexivity|]. simpl. rewrite D. reflexivity.
  - destruct (Qle_bool slow_after elapsed) eqn:Sl; cbn [andb];
      [|exact Hstop].
    destruct (attempt + 1 <=? retries)%Z eqn:L; [|exact Hstop].
    apply Hagain; [reflexivity|]. simpl. exact Sl.
Qed.

Lemma mirror_loop_gets bases b j :
  In (Get b j) (snd (mirror_loop fetch retries slow_after bases)) ->
  In b bases
  /\ (j = 1
      \/ (1 < j /\ j - 1 <= retries
          /\ retryable slow_after (fetch b (j - 1)) = true))%Z.
Proof.
  induction bases as [|base bases IH]; [intros []|].
  cbn [mirror_loop]. fold loop.
  pose proof (@attempt_loop_gets (S (Z.to_nat retries)) base 0%Z (3 # 4) b j)
    as Hone.
  destruct (loop (S (Z.to_nat retries)) base 0%Z (3 # 4)) as [x tr].
  cbn [snd] in Hone.
  assert (Htr : In (Get b j) tr ->
    In b (base :: bases)
    /\ (j = 1
        \/ (1 < j /\ j - 1 <= retries
            /\ retryable slow_after (fetch b (j - 1)) = true))%Z).
  { intros H. destruct (Hone H) as [-> Hj]. split; [left; reflexivity|].
    exact Hj. }
  destruct x; try exact Htr.
  destruct (mirror_loop fetch retries slow_after bases) as [r tr'].
  cbn [snd] in *. intros H. apply in_app_or in H. destruct H as [H|H].
  - exact (Htr H).
  - destruct (IH H) as [H1 H2]. split; [right; exact H1|exact H2].
Qed.

(** What the loop on one mirror returns is the body of its last request,
    and that answer was fast or the retries were used up. *)
Lemma attempt_loop_return fuel base : forall attempt backoff movies,
  fst (loop fuel base attempt backoff) = Return_ movies ->
  exists k elapsed tr0,
    snd (loop fuel base attempt backoff) = tr0 ++ [Get base k]
    /\ (attempt < k)%Z
    /\ fetch base k = Json movies elapsed
    /\ (Qle_bool slow_after elapsed = false \/ (retries < k)%Z).
Proof.
  induction fuel as [|fuel IH]; intros attempt backoff movies;
    [discriminate|].
  unfold loop. rewrite attempt_loop_S. fold loop. cbv zeta.
  assert (Hagain :
    fst (let '(x, tr) := loop fuel base (attempt + 1)%Z (backoff * 2) in
         (x, Get base (attempt + 1)%Z
               :: Sleep base (attempt + 1)%Z backoff :: tr))
    = Return_ movies ->
    exists k elapsed tr0,
      snd (let '(x, tr) := loop fuel base (attempt + 1)%Z (backoff * 2) in
           (x, Get base (attempt + 1)%Z
                 :: Sleep base (attempt + 1)%Z backoff :: tr))
      = tr0 ++ [Get base k]
      /\ (attempt < k)%Z
      /\ fetch base k = Json movies elapsed
      /\ (Qle_bool slow_after elapsed = false \/ (retries < k)%Z)).
  { specialize (IH (attempt + 1)%Z (backoff * 2) movies).
    destruct (loop fuel base (attempt + 1)%Z (backoff * 2)) as [x tr].
    cbn [fst snd] in *. intros H.
    destruct (IH H) as (k & elapsed & tr0 & -> & Hk & Hf & Hs).
    exists k, elapsed,
      (Get base (attempt + 1)%Z :: Sleep base (attempt + 1)%Z backoff :: tr0).
    split; [reflexivity|]. split; [lia|]. split; assumption. }
  destruct (fetch base (attempt + 1)%Z) as [e| |ms elapsed|] eqn:F;
    try discriminate.
  - destruct (_is_dns_error e); [discriminate|].
    destruct (attempt + 1 <=? retries)%Z; [exact Hagain|discriminate].
  - destruct (Qle_bool slow_after elapsed) eqn:Sl; cbn [andb].
    + destruct (attempt + 1 <=? retries)%Z eqn:L; [exact Hagain|].
      cbn [fst snd]. intros H. inversion H; subst.
      exists (attempt + 1)%Z, elapsed, []. split; [reflexivity|].
      split; [lia|]. split; [exact F|]. right.
      apply Z.leb_gt in L. exact L.
    + cbn [fst snd]. intros H. inversion H; subst.
      exists (attempt + 1)%Z, elapsed, []. split; [reflexivity|].
      split; [lia|]. split; [exact F|]. left. exact Sl.
Qed.

Lemma mirror_loop_return bases movies :
  fst (mirror_loop fetch retries slow_after bases) = Ok movies ->
  movies = []
  \/ exists base k elapsed tr0,
       snd (mirror_loop fetch retries slow_after bases)
       = tr0 ++ [Get base k]
       /\ In base bases /\ (1 <= k)%Z
       /\ fetch base k = Json movies elapsed
       /\ (Qle_bool slow_after elapsed = false \/ (retries < k)%Z).
Proof.
  induction bases as [|base bases IH].
  - simpl. intros H. left. congruence.
  - cbn [mirror_loop]. fold loop.
    pose proof (@attempt_loop_return (S (Z.to_nat retries)) base 0%Z (3 # 4))
      as Hone.
    destruct (loop (S (Z.to_nat retries)) base 0%Z (3 # 4)) as [x tr].
    cbn [fst snd] in Hone. destruct x as [ms| |].
    + cbn [fst snd]. intros H. inversion H; subst. right.
      destruct (Hone movies eq_refl) as (k & elapsed & tr0 & -> & Hk & Hf & Hs).
      exists base, k, elapsed, tr0. split; [reflexivity|].
      split; [left; reflexivity|]. split; [lia|]. split; assumption.
    + destruct (mirror_loop fetch retries slow_after bases) as [r tr'].
      cbn [fst snd] in *. intros H.
      destruct (IH H) as [->|(b & k & elapsed & tr0 & -> & Hb & Hk & Hf & Hs)];
        [left; reflexivity|].
      right. exists b, k, elapsed, (tr ++ tr0).
      split; [apply app_assoc|]. split; [right; exact Hb|].
      split; [exact Hk|]. split; assumption.
    + discriminate.
Qed.




End SearchClientMore.

(** X7.  A mirror is asked again only for a reason: a request numbered [k + 1]
    to a mirror is made only when the request numbered [k] to it raised
    an exception other than a name-resolution failure, or was answered in
    [slow_after] seconds or more, and [k] is within [retries]; the mirror
    is one of the registry.  So a name-resolution failure, a response that
    is not JSON and a fast answer are never followed by a retry. *)
Theorem yts_search_retry_reason (W : World) (retries : Z) (slow_after : Q)
  (title_ : pystr) (year_ : option Z) (b : pystr) (k : Z) :
  In (Get b (k + 1)) (snd (yts_search W retries slow_after title_ year_)) ->
  (1 <= k)%Z ->
  In b (_yts_bases (YTS_API_BASE W))
  /\ (k <= retries)%Z
  /\ retryable slow_after
       (http_get W (b ++ lit "/list_movies.json")
          (_build_query (_sanitize_title title_) year_) k) = true.
Proof.
  unfold yts_search. intros Hin Hk.
  apply mirror_loop_gets in Hin. destruct Hin as [Hb [Hj|(_ & Hr & Hre)]];
    [lia|].
  replace (k + 1 - 1)%Z with k in * by lia. auto.
Qed.

Lemma yts_search_retry_reason_witness :
  In (lit "https://www.yts-official.to/api/v2")
     (_yts_bases (YTS_API_BASE flaky_world))
  /\ (1 <= 3)%Z
  /\ retryable 5
       (http_get flaky_world
          (lit "https://www.yts-official.to/api/v2" ++ lit "/list_movies.json")
          (_build_query (_sanitize_title (lit "Heat")) None) 1) = true.
Proof.
  apply (@yts_search_retry_reason flaky_world 3 5 (lit "Heat") None
           (lit "https://www.yts-official.to/api/v2") 1).
  - vm_compute. right. right. left. reflexivity.
  - lia.
Defined.

(** X8.  Where the movies come from: a non-empty result of [yts_search] is the
    body of the last request of the search, made to a mirror of the
    registry, and that answer either came in less than [slow_after]
    seconds or was the one after the last allowed retry; nothing is
    requested after it. *)
Theorem yts_search_result_origin (W : World) (retries : Z) (slow_after : Q)
  (title_ : pystr) (year_ : option Z) (movies : list YTSMovie) :
  fst (yts_search W retries slow_after title_ year_) = Ok movies ->
  movies <> [] ->
  exists b k elapsed tr0,
    snd (yts_search W retries slow_after title_ year_) = tr0 ++ [Get b k]
    /\ In b (_yts_bases (YTS_API_BASE W)) /\ (1 <= k)%Z
    /\ http_get W (b ++ lit "/list_movies.json")
         (_build_query (_sanitize_title title_) year_) k
       = Json movies elapsed
    /\ (elapsed < slow_after \/ (retries < k)%Z).
Proof.
  unfold yts_search. intros H Hne.
  apply mirror_loop_return in H.
  destruct H as [->|(b & k & elapsed & tr0 & Htr & Hb & Hk & Hf & Hs)];
    [congruence|].
  exists b, k, elapsed, tr0. split; [exact Htr|]. split; [exact Hb|].
  split; [exact Hk|]. split; [exact Hf|].
  destruct Hs as [Hs|Hs]; [left|right; exact Hs].
  apply Qnot_le_lt. intros Hle. apply Qle_bool_iff in Hle. congruence.
Qed.

Lemma yts_search_result_origin_witness :
  exists b k elapsed tr0,
    snd (yts_search (world_returning two_encodes) 3 5 (lit "Heat") None)
    = tr0 ++ [Get b k]
    /\ In b (_yts_bases (YTS_API_BASE (world_returning two_encodes)))
    /\ (1 <= k)%Z
    /\ http_get (world_returning two_encodes) (b ++ lit "/list_movies.json")
         (_build_query (_sanitize_title (lit "Heat")) None) k
       = Json [two_encodes] elapsed
    /\ (elapsed < 5 \/ (3 < k)%Z).
Proof.
  apply (@yts_search_result_origin (world_returning two_encodes) 3 5
           (lit "Heat") None [two_encodes]).
  - vm_compute. reflexivity.
  - discriminate.
Defined.


(** ** The current quality and the resolver *)

Lemma first_token_ge tokens (s tok : pystr) (rk : Q) :
  StronglySorted (fun a b : pystr * Q => snd b <= snd a) tokens ->
  In (tok, rk) tokens -> contains s tok = true ->
  rk <= first_token tokens s.
Proof.
  induction tokens as [|[t0 r0] rest IH]; intros Hs Hin Hc; [destruct Hin|].
  inversion Hs as [|? ? Hs' Hall]; subst. cbn [first_token].
  destruct (contains s t0) eqn:C.
  - destruct Hin as [E|Hin]; [inversion E; apply Qle_refl|].
    rewrite Forall_forall in Hall. exact (Hall (tok, rk) Hin).
  - destruct Hin as [E|Hin]; [inversion E; subst; congruence|].
    exact (IH Hs' Hin Hc).
Qed.

Lemma first_token_nonneg tokens (s : pystr) :
  Forall (fun a : pystr * Q => 0 <= snd a) tokens ->
  0 <= first_token tokens s.
Proof.
  induction tokens as [|[t0 r0] rest IH]; intros H; [apply Qle_refl|].
  inversion H; subst. cbn [first_token].
  destruct (contains s t0); [assumption|auto].
Qed.

Lemma QUALITY_TOKENS_sorted :
  StronglySorted (fun a b : pystr * Q => snd b <= snd a) QUALITY_TOKENS.
Proof.
  unfold QUALITY_TOKENS.
  repeat (constructor; [|repeat constructor; cbn [snd]; discriminate]).
  constructor.
Qed.

Lemma QUALITY_TOKENS_nonneg :
  Forall (fun a : pystr * Q => 0 <= snd a) QUALITY_TOKENS.
Proof. repeat constructor; cbn [snd]; discriminate. Qed.

(** Every label of [QUALITY_RANK] is a token of
    [_detect_current_quality], with the same rank. *)
Lemma QUALITY_RANK_tokens k r :
  In (k, r) QUALITY_RANK -> In (k, r) QUALITY_TOKENS.
Proof.
  unfold QUALITY_RANK, QUALITY_TOKENS.
  intros H. repeat (destruct H as [H|H]; [rewrite <- H; simpl; tauto|]).
  destruct H.
Qed.

Lemma quality_rank_max k : quality_rank k <= 3.
Proof.
  unfold quality_rank, dict_get_or.
  destruct (dict_get QUALITY_RANK k) as [r|] eqn:G; [|discriminate].
  apply dict_get_In in G. unfold QUALITY_RANK in G.
  repeat (destruct G as [G|G]; [inversion G; discriminate|]). destruct G.
Qed.

(** X10.  The resolver never points at what the file already is: when the
    current rank is read off a file name by [_detect_current_quality], as
    [process_one] does, the label returned by [_choose_next_quality], if
    any, does not occur in the lower-cased name. *)
Theorem next_quality_not_in_name (m : YTSMovie) (name : pystr) :
  truthy (fst (_choose_next_quality m (_detect_current_quality name))) = true ->
  contains (str_lower name)
           (fst (_choose_next_quality m (_detect_current_quality name)))
  = false.
Proof.
  destruct (choose_next_quality_spec m (_detect_current_quality name))
    as [(k & E & [Hr _] & _)|[E _]]; rewrite E; cbn [fst];
    [intros _|discriminate].
  destruct (contains (str_lower name) k) eqn:C; [exfalso|reflexivity].
  apply (Qlt_not_le _ _ Hr). unfold quality_rank, dict_get_or.
  destruct (dict_get QUALITY_RANK k) as [r|] eqn:G.
  - apply dict_get_In, QUALITY_RANK_tokens in G.
    exact (@first_token_ge _ _ _ _ QUALITY_TOKENS_sorted G C).
  - apply first_token_nonneg, QUALITY_TOKENS_nonneg.
Qed.

Lemma next_quality_not_in_name_witness :
  contains (str_lower (lit "/movies/Example (2020)/Example.720p.WEB.mkv"))
    (fst (_choose_next_quality scenario_movie
            (_detect_current_quality
               (lit "/movies/Example (2020)/Example.720p.WEB.mkv"))))
  = false.
Proof.
  apply (@next_quality_not_in_name scenario_movie
           (lit "/movies/Example (2020)/Example.720p.WEB.mkv")).
  vm_compute. reflexivity.
Defined.

(** X11.  Nothing above the top: for a library item whose height is 2160 or
    more, as [yts_lookup_from_jf_csv] ranks it with [_rank_from_height],
    [_choose_next_quality] returns no upgrade, whatever torrents the movie
    has. *)
Theorem no_upgrade_from_2160 (m : YTSMovie) (h : Z) :
  (2160 <= h)%Z ->
  _choose_next_quality m (_rank_from_height (Some h)) = ([], None).
Proof.
  intros Hh.
  assert (Hr : _rank_from_height (Some h) = 3).
  { unfold _rank_from_height. destruct (Z.eqb_spec h 0); [lia|].
    destruct (Z.leb_spec 2160 h); [reflexivity|lia]. }
  rewrite Hr.
  destruct (choose_next_quality_spec m 3)
    as [(k & _ & [Hk _] & _)|[E _]]; [exfalso|exact E].
  exact (Qlt_not_le _ _ Hk (quality_rank_max k)).
Qed.

Lemma no_upgrade_from_2160_witness :
  _choose_next_quality scenario_movie (_rank_from_height (Some 2160%Z))
  = ([], None).
Proof. apply (@no_upgrade_from_2160 scenario_movie 2160). lia. Defined.

(** ** The locator *)

Lemma url_safe_intro (c : codepoint) :
  (48 <= c <= 57 \/ 65 <= c <= 90 \/ 97 <= c <= 122 \/ c = 95 \/ c = 46
   \/ c = 45 \/ c = 126 \/ c = 47 \/ c = 37)%N ->
  url_safe c = true.
Proof.
  unfold url_safe, isdigit, isupper_ascii, in_range.
  rewrite !orb_true_iff, !andb_true_iff, !N.leb_le, !N.eqb_eq. tauto.
Qed.

Lemma hex_digit_safe (n : N) : (n < 16)%N -> url_safe (hex_digit n) = true.
Proof.
  intros Hn. apply url_safe_intro. unfold hex_digit.
  destruct (N.ltb_spec n 10); lia.
Qed.

Lemma quote_byte_safe (b : N) :
  (b < 256)%N -> Forall (fun c => url_safe c = true) (quote_byte b).
Proof.
  intros Hb. unfold quote_byte.
  destruct (isdigit b || isupper_ascii b || in_range 97 122 b || N.eqb b 95
            || N.eqb b 46 || N.eqb b 45 || N.eqb b 126 || N.eqb b 47)%bool
    eqn:E.
  - constructor; [|constructor]. unfold url_safe. rewrite E. reflexivity.
  - repeat constructor.
    + apply hex_digit_safe. apply N.Div0.div_lt_upper_bound. lia.
    + apply hex_digit_safe. apply N.mod_lt. lia.
Qed.

Lemma utf8_encode_cp_spec (c : codepoint) :
  if is_surrogate c
  then utf8_encode_cp c
       = Raise (Exn UnicodeEncodeError (lit "surrogates not allowed")
                    None None)
  else exists bs, utf8_encode_cp c = Ok bs
                  /\ ((c < 0x110000)%N -> Forall (fun b => (b < 256)%N) bs).
Proof.
  unfold is_surrogate, utf8_encode_cp.
  destruct (in_range 0xD800 0xDFFF c) eqn:S.
  - apply in_range_spec in S.
    destruct (N.ltb_spec c 0x80); [lia|].
    destruct (N.ltb_spec c 0x800); [lia|].
    destruct (N.ltb_spec c 0x10000); [reflexivity|lia].
  - destruct (N.ltb_spec c 0x80);
      [eexists; split; [reflexivity|]; intros _; repeat constructor; lia|].
    destruct (N.ltb_spec c 0x800).
    { eexists; split; [reflexivity|]. intros _.
      assert (c / 64 < 32)%N by (apply N.Div0.div_lt_upper_bound; lia).
      assert (c mod 64 < 64)%N by (apply N.mod_lt; lia).
      repeat constructor; lia. }
    destruct (N.ltb_spec c 0x10000).
    { eexists; split; [reflexivity|]. intros _.
      assert (c / 4096 < 16)%N by (apply N.Div0.div_lt_upper_bound; lia).
      assert ((c / 64) mod 64 < 64)%N by (apply N.mod_lt; lia).
      assert (c mod 64 < 64)%N by (apply N.mod_lt; lia).
      repeat constructor; lia. }
    eexists; split; [reflexivity|]. intros Hc.
    assert (c / 262144 < 8)%N by (apply N.Div0.div_lt_upper_bound; lia).
    assert ((c / 4096) mod 64 < 64)%N by (apply N.mod_lt; lia).
    assert ((c / 64) mod 64 < 64)%N by (apply N.mod_lt; lia).
    assert (c mod 64 < 64)%N by (apply N.mod_lt; lia).
    repeat constructor; lia.
Qed.

Lemma utf8_encode_spec (s : pystr) :
  match utf8_encode s with
  | Ok bs =>
      Forall (fun c => is_surrogate c = false) s
      /\ (Forall (fun c => (c < 0x110000)%N) s ->
          Forall (fun b => (b < 256)%N) bs)
  | Raise e =>
      e = Exn UnicodeEncodeError (lit "surrogates not allowed") None None
      /\ Exists (fun c => is_surrogate c = true) s
  | Interrupt => False
  end.
Proof.
  induction s as [|c s IH]; cbn [utf8_encode].
  - split; [constructor|]. intros _. constructor.
  - pose proof (utf8_encode_cp_spec c) as Hc.
    destruct (is_surrogate c) eqn:S.
    + rewrite Hc. cbn [bind]. split; [reflexivity|]. left. exact S.
    + destruct Hc as (b & -> & Hb). cbn [bind].
      destruct (utf8_encode s) as [bs|e|]; cbn [bind].
      * destruct IH as [IH1 IH2]. split; [constructor; assumption|].
        intros H. inversion H; subst. apply Forall_app. auto.
      * destruct IH as [-> IH]. split; [reflexivity|]. right. exact IH.
      * exact IH.
Qed.

Lemma magnet_from_torrent_quote title_ t :
  magnet_from_torrent title_ t
  = dn <- quote (magnet_name title_ t) ;;
    Ok (lit "magnet:?xt=urn:btih:" ++ or_empty (t_hash t) ++ lit "&dn=" ++ dn).
Proof. reflexivity. Qed.

(** X12.  When the locator fails: [magnet_from_torrent] raises exactly when the
    title, the quality or the type of the torrent holds a surrogate code
    point, the exception is a [UnicodeEncodeError], and in every other
    case a locator is returned. *)
Theorem magnet_from_torrent_errors (title_ : pystr) (t : Torrent) :
  match magnet_from_torrent title_ t with
  | Ok _ => Forall (fun c => is_surrogate c = false) (magnet_name title_ t)
  | Raise e =>
      e = Exn UnicodeEncodeError (lit "surrogates not allowed") None None
      /\ Exists (fun c => is_surrogate c = true) (magnet_name title_ t)
  | Interrupt => False
  end.
Proof.
  rewrite magnet_from_torrent_quote. unfold quote.
  pose proof (utf8_encode_spec (magnet_name title_ t)) as H.
  destruct (utf8_encode (magnet_name title_ t)) as [bs|e|]; cbn [bind].
  - exact (proj1 H).
  - exact H.
  - exact H.
Qed.

(** X13.  The shape of a locator: the result of [magnet_from_torrent] is
    [magnet:?xt=urn:btih:], the hash as it is, [&dn=] and the quoted
    name, and the quoted name holds only ASCII letters, digits and
    [_ . - ~ / %]: no space, [&], [=] or [?] of a title reaches the
    locator. *)
Theorem magnet_from_torrent_shape (title_ : pystr) (t : Torrent) (s : pystr) :
  magnet_from_torrent title_ t = Ok s ->
  Forall (fun c => (c < 0x110000)%N) (magnet_name title_ t) ->
  exists dn,
    s = lit "magnet:?xt=urn:btih:" ++ or_empty (t_hash t) ++ lit "&dn=" ++ dn
    /\ Forall (fun c => url_safe c = true) dn.
Proof.
  rewrite magnet_from_torrent_quote. unfold quote.
  pose proof (utf8_encode_spec (magnet_name title_ t)) as H.
  destruct (utf8_encode (magnet_name title_ t)) as [bs|e|]; cbn [bind];
    [|discriminate|discriminate].
  intros E Hc. injection E as <-. eexists. split; [reflexivity|].
  destruct H as [_ H]. specialize (H Hc). clear Hc.
  induction H as [|b bs Hb Hbs IH]; [constructor|].
  cbn [flat_map]. apply Forall_app. split; [|exact IH].
  apply quote_byte_safe. exact Hb.
Qed.

Lemma magnet_from_torrent_shape_witness :
  exists dn,
    lit "magnet:?xt=urn:btih:ABCDEF&dn=The%20Matrix.1080p.bluray"
    = lit "magnet:?xt=urn:btih:"
      ++ or_empty (t_hash {| t_quality := Some (lit "1080p");
                             t_type := Some (lit "bluray");
                             t_size := None; t_seeds := None;
                             t_peers := None;
                             t_hash := Some (lit "ABCDEF") |})
      ++ lit "&dn=" ++ dn
    /\ Forall (fun c => url_safe c = true) dn.
Proof.
  apply (@magnet_from_torrent_shape (lit "The Matrix")
           {| t_quality := Some (lit "1080p"); t_type := Some (lit "bluray");
              t_size := None; t_seeds := None; t_peers := None;
              t_hash := Some (lit "ABCDEF") |}).
  - reflexivity.
  - repeat constructor.
Defined.

(** ** The title normalizer: further properties *)

Lemma no_dotted_I (s : pystr) :
  forallb (fun c => charted c && negb (N.eqb c 0x130))%bool s = true ->
  Forall (fun c => c <> 0x130%N) s.
Proof.
  intros H. apply Forall_forall. intros c Hc. rewrite forallb_forall in H.
  specialize (H c Hc). apply andb_true_iff in H. destruct H as [_ H].
  apply negb_true_iff, N.eqb_neq in H. exact H.
Qed.

Lemma dropwhile_fixed_head (x : pystr) :
  dropwhile isspace x = x -> startswith x (lit " ") = false.
Proof.
  destruct x as [|c t]; [reflexivity|]. cbn [dropwhile].
  destruct (isspace c) eqn:E.
  - intros H. pose proof (dropwhile_length isspace t) as Hl.
    rewrite H in Hl. simpl in Hl. lia.
  - intros _. change (lit " ") with [32%N]. cbn [startswith].
    destruct (N.eqb_spec 32 c) as [<-|]; [discriminate E|reflexivity].
Qed.

Lemma stripped_ends (r : pystr) :
  str_strip r = r ->
  startswith r (lit " ") = false /\ endswith r (lit " ") = false.
Proof.
  intros H. unfold str_strip in H. split.
  - apply dropwhile_fixed_head. rewrite <- H at 1 2.
    apply rstrip_by_front, dropwhile_idem.
  - unfold endswith. change (rev (lit " ")) with (lit " ").
    apply dropwhile_fixed_head. rewrite <- H at 1 2. unfold rstrip_by.
    rewrite rev_involutive. apply dropwhile_idem.
Qed.

Lemma single_spaced_no_double b (r : pystr) :
  single_spaced b r = true -> contains r (lit "  ") = false.
Proof.
  change (lit "  ") with [32%N; 32%N]. revert b.
  induction r as [|c t IH]; intros b H; [reflexivity|].
  cbn [single_spaced] in H. cbn [contains].
  assert (Hs : startswith (c :: t) [32%N; 32%N] = false).
  { cbn [startswith]. destruct (N.eqb_spec 32 c) as [<-|]; [|reflexivity].
    change (isspace 32) with true in H.
    apply andb_true_iff in H. destruct H as [_ H].
    destruct t as [|d t']; [reflexivity|]. cbn [startswith].
    destruct (N.eqb_spec 32 d) as [<-|]; [|reflexivity].
    cbn [single_spaced] in H. change (isspace 32) with true in H.
    rewrite andb_false_r in H. discriminate. }
  rewrite Hs. cbn [orb].
  destruct (isspace c).
  - apply andb_true_iff in H. destruct H as [_ H]. exact (IH true H).
  - exact (IH false H).
Qed.

(** X14.  The shape of a normalized title: for a title of charted code points
    without U+0130, the result of [_sanitize_title] holds only ASCII
    lower-case letters, digits and spaces, no two spaces in a row, and no
    space at either end. *)
Theorem sanitize_title_shape (s : pystr) :
  forallb (fun c => charted c && negb (N.eqb c 0x130))%bool s = true ->
  Forall (fun c => c = 32%N \/ isdigit c = true \/ in_range 97 122 c = true)
         (_sanitize_title s)
  /\ contains (_sanitize_title s) (lit "  ") = false
  /\ startswith (_sanitize_title s) (lit " ") = false
  /\ endswith (_sanitize_title s) (lit " ") = false.
Proof.
  intros H. apply no_dotted_I in H.
  destruct (settled_title H) as (H1 & H2 & H3).
  split; [|split].
  - eapply Forall_impl; [|exact H1].
    intros c [->|(Ha & Hn & Hu)]; [left; reflexivity|right].
    unfold isalnum in Ha. rewrite Hu in Ha.
    destruct (isdigit c); [left; reflexivity|right].
    destruct (in_range 97 122 c); [reflexivity|].
    simpl in Ha. apply N.eqb_eq in Ha. contradiction.
  - apply (@single_spaced_no_double false). rewrite <- H2.
    apply sub_runs_single_spaced.
  - apply stripped_ends. exact H3.
Qed.

Lemma sanitize_title_shape_witness :
  Forall (fun c => c = 32%N \/ isdigit c = true \/ in_range 97 122 c = true)
         (_sanitize_title (lit "The.Matrix_Reloaded (2003) [1080p]"))
  /\ contains (_sanitize_title (lit "The.Matrix_Reloaded (2003) [1080p]"))
              (lit "  ") = false
  /\ startswith (_sanitize_title (lit "The.Matrix_Reloaded (2003) [1080p]"))
                (lit " ") = false
  /\ endswith (_sanitize_title (lit "The.Matrix_Reloaded (2003) [1080p]"))
              (lit " ") = false.
Proof.
  apply (@sanitize_title_shape (lit "The.Matrix_Reloaded (2003) [1080p]")).
  vm_compute. reflexivity.
Defined.

Lemma lower_cp_lower1 c : c <> 0x130%N -> lower_cp c = [lower1 c].
Proof.
  intros Hc. unfold lower_cp, lower1. destruct (isupper_ascii c);
    [reflexivity|].
  destruct (N.eqb_spec c 0x130); [contradiction|reflexivity].
Qed.

Lemma str_lower_map_lower1 (s : pystr) :
  Forall (fun c => c <> 0x130%N) s -> str_lower s = map lower1 s.
Proof.
  induction 1 as [|c s Hc Hs IH]; [reflexivity|].
  unfold str_lower in *. cbn [flat_map map]. rewrite IH, lower_cp_lower1
    by exact Hc. reflexivity.
Qed.

Lemma lower1_idem c : lower1 (lower1 c) = lower1 c.
Proof.
  unfold lower1. destruct (isupper_ascii c) eqn:U; [|rewrite U; reflexivity].
  replace (isupper_ascii (c + 32)) with false; [reflexivity|].
  symmetry. tables.
Qed.

Lemma lower1_dot c : is_dot_or_underscore (lower1 c) = is_dot_or_underscore c.
Proof.
  unfold lower1. destruct (isupper_ascii c) eqn:U; [|reflexivity].
  transitivity false; [|symmetry]; tables.
Qed.

Lemma lower1_digit c : isdigit (lower1 c) = isdigit c.
Proof.
  unfold lower1. destruct (isupper_ascii c) eqn:U; [|reflexivity].
  transitivity false; [|symmetry]; tables.
Qed.

Lemma lower1_word c : isword (lower1 c) = isword c.
Proof.
  unfold lower1. destruct (isupper_ascii c) eqn:U; [|reflexivity].
  transitivity true; [|symmetry]; tables.
Qed.

Lemma lower1_eqb c (k : N) :
  (k < 65)%N -> N.eqb (lower1 c) k = N.eqb c k.
Proof.
  intros Hk. unfold lower1. destruct (isupper_ascii c) eqn:U; [|reflexivity].
  transitivity false; [|symmetry]; tables.
Qed.

Lemma sub_paren_year_long c d1 d2 d3 d4 r rest :
  sub_paren_year (c :: d1 :: d2 :: d3 :: d4 :: r :: rest)
  = if (N.eqb c 40 && isdigit d1 && isdigit d2 && isdigit d3
        && isdigit d4 && N.eqb r 41)%bool
    then sub_paren_year rest
    else c :: sub_paren_year (d1 :: d2 :: d3 :: d4 :: r :: rest).
Proof. reflexivity. Qed.

Lemma sub_paren_year_map (s : pystr) :
  sub_paren_year (map lower1 s) = map lower1 (sub_paren_year s).
Proof.
  assert (H : forall n (s : pystr), (List.length s <= n)%nat ->
    sub_paren_year (map lower1 s) = map lower1 (sub_paren_year s)).
  { induction n as [|n IH]; intros s0 Hl.
    - destruct s0; [reflexivity|simpl in Hl; lia].
    - destruct s0 as [|c [|d1 [|d2 [|d3 [|d4 [|r rest]]]]]];
        try reflexivity.
      cbn [map]. rewrite !sub_paren_year_long.
      rewrite !lower1_digit, !lower1_eqb by lia.
      destruct (N.eqb c 40 && isdigit d1 && isdigit d2 && isdigit d3
                && isdigit d4 && N.eqb r 41)%bool.
      + apply IH. simpl in Hl. lia.
      + cbn [map]. f_equal.
        apply (IH (d1 :: d2 :: d3 :: d4 :: r :: rest)). simpl in *. lia. }
  apply (H (List.length s)). apply Nat.le_refl.
Qed.

Lemma sub_punct_map (s : pystr) :
  sub_punct (map lower1 s) = map lower1 (sub_punct s).
Proof.
  unfold sub_punct. rewrite !map_map. apply map_ext. intros c.
  rewrite lower1_word, lower1_space.
  destruct (isword c || isspace c)%bool; reflexivity.
Qed.

Lemma prepared_map (s : pystr) :
  prepared (map lower1 s) = map lower1 (prepared s).
Proof.
  unfold prepared, codepoint.
  rewrite (@sub_runs_map is_dot_or_underscore false lower1 s lower1_dot eq_refl).
  rewrite sub_paren_year_map, sub_punct_map.
  rewrite (@sub_runs_map isspace false lower1 _ lower1_space eq_refl).
  apply str_strip_map. exact lower1_space.
Qed.

(** X15.  Case does not matter: for a title of charted code points without
    U+0130, [_sanitize_title] gives the same result for the title and for
    its lower case. *)
Theorem sanitize_title_case_insensitive (s : pystr) :
  forallb (fun c => charted c && negb (N.eqb c 0x130))%bool s = true ->
  _sanitize_title (str_lower s) = _sanitize_title s.
Proof.
  intros H. apply no_dotted_I in H.
  rewrite (str_lower_map_lower1 H), !sanitize_title_prepared, prepared_map.
  pose proof (prepared_kept H) as Hk.
  rewrite (str_lower_kept Hk).
  rewrite str_lower_map_lower1.
  - rewrite map_map. apply map_ext. intros c. apply lower1_idem.
  - apply Forall_forall. intros c Hc. apply in_map_iff in Hc.
    destruct Hc as (x & <- & Hx). rewrite Forall_forall in Hk.
    destruct (lower1_kept (Hk x Hx)) as [[E|(_ & Hn & _)] _];
      [rewrite E; discriminate|exact Hn].
Qed.

Lemma sanitize_title_case_insensitive_witness :
  _sanitize_title (str_lower (lit "The.MATRIX (1999)"))
  = _sanitize_title (lit "The.MATRIX (1999)").
Proof.
  apply (@sanitize_title_case_insensitive (lit "The.MATRIX (1999)")).
  vm_compute. reflexivity.
Defined.

(** ** The batch drivers: further properties *)

Lemma existsb_str_eqb_In (c : pystr) (h : list pystr) :
  existsb (str_eqb c) h = true <-> In c h.
Proof.
  rewrite existsb_exists. split.
  - intros (x & Hx & E). apply str_eqb_eq in E. subst x. exact Hx.
  - intros H. exists c. split; [exact H|apply str_eqb_refl].
Qed.

(** The header loop: the columns given, then the missing ones. *)
Lemma header_loop_spec (cols : list pystr) : forall h,
  NoDup cols ->
  fold_left (fun h c => if existsb (str_eqb c) h then h else h ++ [c]) cols h
  = h ++ filter (fun c => negb (existsb (str_eqb c) h)) cols.
Proof.
  induction cols as [|c cols IH]; intros h Hn; simpl;
    [symmetry; apply app_nil_r|].
  inversion Hn as [|? ? Hc Hn']; subst.
  destruct (existsb (str_eqb c) h) eqn:E; simpl; [exact (IH h Hn')|].
  rewrite (IH (h ++ [c]) Hn'), <- app_assoc. simpl. do 2 f_equal.
  apply filter_ext_in. intros x Hx. rewrite existsb_app. simpl.
  rewrite orb_false_r. replace (str_eqb x c) with false;
    [rewrite orb_false_r; reflexivity|].
  symmetry. apply str_eqb_neq. intros ->. contradiction.
Qed.

Lemma make_header_spec (rows : list Row) :
  make_header rows
  = match rows with [] => [] | r :: _ => map fst r end
    ++ filter (fun c => negb (existsb (str_eqb c)
                 match rows with [] => [] | r :: _ => map fst r end))
              add_cols.
Proof. unfold make_header. apply header_loop_spec, add_cols_NoDup. Qed.

Lemma make_header_add_cols (rows : list Row) (c : pystr) :
  In c add_cols -> In c (make_header rows).
Proof.
  intros Hc. rewrite make_header_spec. apply in_or_app.
  destruct (existsb (str_eqb c)
              match rows with [] => [] | r :: _ => map fst r end) eqn:E.
  - left. apply existsb_str_eqb_In. exact E.
  - right. apply filter_In. split; [exact Hc|]. rewrite E. reflexivity.
Qed.

Lemma make_header_NoDup (rows : list Row) :
  NoDup match rows with [] => [] | r :: _ => map fst r end ->
  NoDup (make_header rows).
Proof.
  intros Hn. rewrite make_header_spec. apply NoDup_app.
  - exact Hn.
  - apply NoDup_filter, add_cols_NoDup.
  - intros x Hx Hf. apply filter_In in Hf. destruct Hf as [_ Hf].
    apply negb_true_iff in Hf.
    apply existsb_str_eqb_In in Hx. congruence.
Qed.

Lemma dict_set_new {V} (d : list (pystr * V)) (k : pystr) (v : V) :
  ~ In k (map fst d) -> dict_set d k v = d ++ [(k, v)].
Proof.
  induction d as [|[k0 v0] d IH]; simpl; intros Hn; [reflexivity|].
  destruct (str_eqb k0 k) eqn:E.
  - apply str_eqb_eq in E. exfalso. apply Hn. left. exact E.
  - rewrite IH; [reflexivity|]. intros H. apply Hn. right. exact H.
Qed.

Lemma dict_set_keys {V} (d : list (pystr * V)) (k : pystr) (v : V) :
  In k (map fst d) -> map fst (dict_set d k v) = map fst d.
Proof.
  induction d as [|[k0 v0] d IH]; simpl; intros Hin; [destruct Hin|].
  destruct (str_eqb k0 k) eqn:E; simpl; [reflexivity|].
  f_equal. apply IH. destruct Hin as [H|H]; [|exact H].
  apply str_eqb_neq in E. contradiction.
Qed.

Lemma dict_set_same {V} (d : list (pystr * V)) (k : pystr) (v : V) :
  dict_get d k = Some v -> dict_set d k v = d.
Proof.
  induction d as [|[k0 v0] d IH]; simpl; [discriminate|].
  destruct (str_eqb k0 k) eqn:E.
  - intros H. inversion H. reflexivity.
  - intros H. rewrite (IH H). reflexivity.
Qed.

(** [{k: row.get(k, '') for k in header}] for a header without
    repetitions. *)
Lemma project_spec (header : list pystr) (row : Row) :
  NoDup header ->
  project header row = map (fun k => (k, dict_get_or row k [])) header.
Proof.
  unfold project.
  assert (H : forall (d : Row),
    NoDup header -> (forall k, In k header -> ~ In k (map fst d)) ->
    fold_left (fun d k => dict_set d k (dict_get_or row k [])) header d
    = d ++ map (fun k => (k, dict_get_or row k [])) header).
  { induction header as [|k header IH]; intros d Hn Hd; simpl;
      [symmetry; apply app_nil_r|].
    inversion Hn as [|? ? Hk Hn']; subst.
    rewrite dict_set_new by (apply Hd; left; reflexivity).
    rewrite IH, <- app_assoc; [reflexivity|exact Hn'|].
    intros x Hx. rewrite map_app. intros Hin. apply in_app_or in Hin.
    destruct Hin as [Hin|[<-|[]]].
    - apply (Hd x); [right; exact Hx|exact Hin].
    - contradiction. }
  intros Hn. apply (H [] Hn). intros k _ [].
Qed.

Lemma project_keys (header : list pystr) (row : Row) :
  NoDup header -> map fst (project header row) = header.
Proof.
  intros Hn. rewrite (project_spec row Hn), map_map. simpl. apply map_id.
Qed.

Lemma project_get (header : list pystr) (row : Row) (k : pystr) :
  NoDup header -> In k header ->
  dict_get (project header row) k = Some (dict_get_or row k []).
Proof.
  intros Hn Hk. apply dict_get_unique.
  - rewrite project_keys by exact Hn. exact Hn.
  - rewrite (project_spec row Hn). apply in_map_iff. exists k. auto.
Qed.

(** Projecting a row on its own columns gives the row back. *)
Lemma project_self (row : Row) :
  NoDup (map fst row) -> project (map fst row) row = row.
Proof.
  intros Hn. rewrite (project_spec row Hn), map_map.
  rewrite <- (map_id row) at 2. apply map_ext_in. intros [k v] Hin. simpl.
  unfold dict_get_or. rewrite (dict_get_unique _ _ _ Hn Hin). reflexivity.
Qed.

Lemma update_keys (d e : Row) :
  (forall k, In k (map fst e) -> In k (map fst d)) ->
  map fst (update d e) = map fst d.
Proof.
  unfold update. revert d. induction e as [|[k v] e IH]; intros d He;
    [reflexivity|].
  simpl. rewrite IH.
  - apply dict_set_keys. apply He. left; reflexivity.
  - intros x Hx. rewrite dict_set_keys by (apply He; left; reflexivity).
    apply He. right. exact Hx.
Qed.

Lemma carried_keys (row : Row) : map fst (carried row) = add_cols.
Proof. unfold carried. rewrite map_map. cbn [fst]. apply map_id. Qed.

(** Updating a row with the enrichment it carries changes nothing. *)
Lemma update_carried (row : Row) :
  (forall c, In c add_cols -> In c (map fst row)) ->
  update row (carried row) = row.
Proof.
  unfold update, carried. intros H.
  assert (G : forall cols (d : Row),
    (forall c, In c cols -> In c (map fst d)) ->
    fold_left (fun d kv => dict_set d (fst kv) (snd kv))
              (map (fun c => (c, dict_get_or d c [])) cols) d = d).
  { induction cols as [|c cols IH]; intros d Hd; [reflexivity|].
    cbn [map fold_left fst snd].
    assert (E : dict_set d c (dict_get_or d c []) = d).
    { apply dict_set_same. unfold dict_get_or.
      assert (Hm : dict_mem d c = true).
      { apply dict_mem_In_key. apply Hd. left; reflexivity. }
      unfold dict_mem in Hm. destruct (dict_get d c); [reflexivity|].
      discriminate. }
    rewrite E. apply IH. intros x Hx. apply Hd. right. exact Hx. }
  apply G. exact H.
Qed.

Lemma filter_all_false {A} (f : A -> bool) (l : list A) :
  (forall x, In x l -> f x = false) -> filter f l = [].
Proof.
  induction l as [|a l IH]; intros H; [reflexivity|]. simpl.
  rewrite (H a) by (left; reflexivity). apply IH.
  intros x Hx. apply H. right. exact Hx.
Qed.

Lemma make_header_enriched (rows : list Row) :
  (forall c, In c add_cols -> In c (orig_header rows)) ->
  make_header rows = orig_header rows.
Proof.
  intros H. rewrite make_header_spec. fold (orig_header rows).
  replace (filter (fun c => negb (existsb (str_eqb c) (orig_header rows)))
                  add_cols) with (@nil pystr); [apply app_nil_r|].
  symmetry. apply filter_all_false. intros c Hc.
  apply negb_false_iff, existsb_str_eqb_In. exact (H c Hc).
Qed.

Section BatchMore.
Variable W : World.
Variable retries : Z.
Variable slow_after : Q.
Variable pre_match : pystr.
Variable tmdb_key : pystr.
Variable omdb_key : option pystr.

Let the_task := task W retries slow_after pre_match tmdb_key omdb_key.
Let one := process_one W retries slow_after pre_match tmdb_key omdb_key.
Let row_out := write_row W retries slow_after pre_match tmdb_key omdb_key.
Let loop_out := write_loop W retries slow_after pre_match tmdb_key omdb_key.

(** Whatever branch is taken, the row written is the projection of the
    row on the header, updated with six values for the six enrichment
    columns. *)
Lemma write_row_enriched refresh header row out :
  row_out refresh header row = Ok out ->
  exists enriched,
    map fst enriched = add_cols
    /\ out = update (project header row) enriched.
Proof.
  unfold row_out, write_row. destruct (skips refresh row); cbn [bind].
  - intros H. injection H as <-. exists (carried row).
    split; [apply carried_keys|reflexivity].
  - fold one. destruct (one row) as [combined|e|]; cbn [bind];
      [| |discriminate].
    + intros H. injection H as <-.
      exists [(lit "yts_title", nth 1 combined []);
              (lit "yts_year", nth 2 combined []);
              (lit "yts_url", nth 3 combined []);
              (lit "yts_quality_available", nth 4 combined []);
              (lit "yts_next_quality", nth 5 combined []);
              (lit "magnet", nth 6 combined [])].
      split; reflexivity.
    + intros H. injection H as <-. exists (carried row).
      split; [apply carried_keys|reflexivity].
Qed.

Lemma write_row_skipped refresh (row : Row) :
  NoDup (map fst row) ->
  (forall c, In c add_cols -> In c (map fst row)) ->
  skips refresh row = true ->
  row_out refresh (map fst row) row = Ok row.
Proof.
  intros Hn Hc Hs. unfold row_out, write_row. rewrite Hs. cbn [bind].
  rewrite (@project_self row Hn), (@update_carried row Hc). reflexivity.
Qed.

Lemma write_loop_skipped refresh (ks : list pystr) (rows : list Row) :
  NoDup ks -> (forall c, In c add_cols -> In c ks) ->
  Forall (fun r => map fst r = ks) rows ->
  Forall (fun r => skips refresh r = true) rows ->
  loop_out refresh ks rows = (rows, Ok tt).
Proof.
  intros Hn Hc Hk Hs. induction rows as [|row rows IH]; [reflexivity|].
  apply Forall_cons_iff in Hk. destruct Hk as [Hk1 Hk2].
  apply Forall_cons_iff in Hs. destruct Hs as [Hs1 Hs2].
  unfold loop_out in *. cbn [write_loop]. fold row_out.
  assert (E : row_out refresh ks row = Ok row).
  { rewrite <- Hk1. apply write_row_skipped; [rewrite Hk1; exact Hn| |exact Hs1].
    rewrite Hk1. exact Hc. }
  rewrite E, (IH Hk2 Hs2). reflexivity.
Qed.


(** A match gives a next quality exactly when it gives a locator. *)
Lemma process_one_next row combined :
  one row = Ok combined ->
  List.length combined = 7%nat
  /\ (nth 5 combined [] = [] <-> nth 6 combined [] = []).
Proof.
  unfold one, process_one. fold the_task.
  destruct (the_task row) as [[m|]|e|];
    [|intros H; injection H as <-; split; [reflexivity|tauto]
     |intros H; injection H as <-; split; [reflexivity|tauto]
     |discriminate].
  destruct (torrents_loop _ _ _ _ _ _) as [[[all_q kq] km]|e|];
    cbn [bind]; [|discriminate|discriminate].
  destruct (choose_next_quality_spec m
              (_detect_current_quality
                 (py_or (get row "path") (py_or (get row "folder_path") []))))
    as [(k & E & [_ Hg] & _)|[E _]]; rewrite E.
  - destruct (bluray_first (group_of (torrents m) k)) as [|t g] eqn:B;
      [apply bluray_first_nil in B; contradiction|].
    cbn [hd_error]. rewrite magnet_from_torrent_quote.
    destruct (quote (magnet_name (title m) t)) as [dn|e|]; cbn [bind];
      [|discriminate|discriminate].
    intros H. injection H as <-. split; [reflexivity|].
    cbn [nth]. split; [|discriminate]. intros ->.
    rewrite group_of_empty_label in Hg. contradiction.
  - cbn [bind]. intros H. injection H as <-. split; [reflexivity|].
    cbn [nth]. tauto.
Qed.
End BatchMore.

(** X16.  An enriched file is a fixed point: when every row has the same
    columns, the six enrichment columns among them, and carries a next
    quality, a magnet or a matched title, [yts_lookup_from_csv] without
    [--refresh] writes the rows back exactly as they were read and ends
    normally, in every world: no lookup has a part in it. *)
Theorem enriched_file_round_trip (W : World) (retries : Z) (slow_after : Q)
  (pre_match tmdb_key : pystr) (omdb_key : option pystr)
  (ks : list pystr) (rows : list Row) :
  NoDup ks -> (forall c, In c add_cols -> In c ks) ->
  Forall (fun r => map fst r = ks) rows ->
  Forall (fun r => skips false r = true) rows ->
  yts_lookup_from_csv W retries slow_after pre_match tmdb_key omdb_key
                      false rows
  = (rows, Ok tt).
Proof.
  intros Hn Hc Hk Hs. unfold yts_lookup_from_csv.
  destruct rows as [|r0 rest]; [reflexivity|].
  assert (Hh : make_header (r0 :: rest) = ks).
  { inversion Hk as [|? ? Hk1 _]; subst.
    rewrite make_header_enriched; [reflexivity|exact Hc]. }
  rewrite Hh. apply write_loop_skipped; assumption.
Qed.

Lemma enriched_file_round_trip_witness :
  yts_lookup_from_csv interrupted_world 3 4 (lit "tmdb") [] None false
                      [enriched_row; enriched_row]
  = ([enriched_row; enriched_row], Ok tt).
Proof.
  apply (@enriched_file_round_trip interrupted_world 3 4 (lit "tmdb") [] None
           (map fst enriched_row) [enriched_row; enriched_row]).
  - vm_compute. repeat (constructor; [simpl; intuition discriminate|]).
    constructor.
  - intros c Hc. vm_compute in Hc. vm_compute. tauto.
  - repeat constructor.
  - repeat constructor.
Defined.

(** X17.  The original columns survive: every row that [yts_lookup_from_csv]
    writes has exactly the columns of the header, in its order, and each
    column other than the six enrichment columns holds what the input row
    held (the empty string when the row had no such column). *)
Theorem written_row_keeps_columns (W : World) (retries : Z) (slow_after : Q)
  (pre_match tmdb_key : pystr) (omdb_key : option pystr) (refresh : bool)
  (rows : list Row) (row out : Row) :
  NoDup (orig_header rows) ->
  write_row W retries slow_after pre_match tmdb_key omdb_key refresh
            (make_header rows) row = Ok out ->
  map fst out = make_header rows
  /\ forall k, In k (make_header rows) -> ~ In k add_cols ->
       dict_get out k = Some (dict_get_or row k []).
Proof.
  intros Hn Hw. apply make_header_NoDup in Hn.
  apply write_row_enriched in Hw. destruct Hw as (enriched & He & ->).
  split.
  - rewrite update_keys; [apply project_keys; exact Hn|].
    intros k Hk. rewrite He in Hk. rewrite project_keys by exact Hn.
    apply make_header_add_cols. exact Hk.
  - intros k Hk Hnk. rewrite update_get_other by (rewrite He; exact Hnk).
    apply project_get; assumption.
Qed.

Lemma written_row_keeps_columns_witness :
  map fst (update (project (make_header [csv_heat_row]) csv_heat_row)
                  (carried csv_heat_row))
  = make_header [csv_heat_row]
  /\ forall k, In k (make_header [csv_heat_row]) -> ~ In k add_cols ->
       dict_get (update (project (make_header [csv_heat_row]) csv_heat_row)
                        (carried csv_heat_row)) k
       = Some (dict_get_or csv_heat_row k []).
Proof.
  apply (@written_row_keeps_columns no_dns_world 0 4 (lit "omdb") [] None
           false [csv_heat_row] csv_heat_row).
  - vm_compute. repeat (constructor; [simpl; intuition discriminate|]).
    constructor.
  - vm_compute. reflexivity.
Defined.



(** X19.  The seven fields of [process_one]: a result has seven fields, and
    its next quality is empty exactly when its locator is empty. *)
Theorem next_quality_iff_magnet (W : World) (retries : Z) (slow_after : Q)
  (pre_match tmdb_key : pystr) (omdb_key : option pystr)
  (row : Row) (combined : list pystr) :
  process_one W retries slow_after pre_match tmdb_key omdb_key row
  = Ok combined ->
  List.length combined = 7%nat
  /\ (nth 5 combined [] = [] <-> nth 6 combined [] = []).
Proof. apply process_one_next. Qed.

Lemma next_quality_iff_magnet_witness :
  exists combined,
    process_one (world_returning two_encodes) 3 4 (lit "tmdb") [] None
                csv_heat_row = Ok combined
    /\ List.length combined = 7%nat
    /\ (nth 5 combined [] = [] <-> nth 6 combined [] = []).
Proof.
  eexists. split; [vm_compute; reflexivity|].
  apply (@next_quality_iff_magnet (world_returning two_encodes) 3 4
           (lit "tmdb") [] None csv_heat_row).
  vm_compute. reflexivity.
Defined.

Lemma jf_loop_stops W retries slow_after header (pre post : list Row) row e :
  jf_row W retries slow_after header row = Raise e ->
  snd (jf_loop W retries slow_after header (pre ++ row :: post)) <> Ok tt
  /\ (List.length (fst (jf_loop W retries slow_after header
                          (pre ++ row :: post)))
      <= List.length pre)%nat.
Proof.
  intros Hrow. induction pre as [|r pre IH]; cbn [app jf_loop].
  - rewrite Hrow. split; [discriminate|apply Nat.le_refl].
  - destruct (jf_row W retries slow_after header r) as [out|e'|].
    + destruct (jf_loop W retries slow_after header (pre ++ row :: post))
        as [written res]. cbn [fst snd] in *. destruct IH as [IH1 IH2].
      split; [exact IH1|]. simpl. lia.
    + split; [discriminate|apply Nat.le_0_l].
    + split; [discriminate|apply Nat.le_0_l].
Qed.

(** X20.  Rows that need no upgrade are copied: a row of the library whose
    [max_height] is a number of 720 or more is written by
    [yts_lookup_from_jf_csv] as its projection on the header, every
    column with the value the row had and the empty string for a column
    it had not, in every world: no lookup has a part in it. *)
Theorem jf_copies_rows_from_720 (W : World) (retries : Z) (slow_after : Q)
  (rows : list Row) (row : Row) (h : Z) :
  NoDup (orig_header rows) ->
  height_of row = Some h -> (720 <= h)%Z ->
  jf_row W retries slow_after (make_header rows) row
  = Ok (map (fun k => (k, dict_get_or row k [])) (make_header rows)).
Proof.
  intros Hn Hh Hle. apply make_header_NoDup in Hn.
  unfold jf_row. rewrite Hh.
  replace (720 <=? h)%Z with true by (symmetry; apply Z.leb_le; exact Hle).
  match goal with
  | |- context [filter ?f ?l] => assert (E : filter f l = [])
  end.
  { apply filter_all_false. intros [c v] Hc. apply negb_false_iff.
    apply in_map_iff in Hc. destruct Hc as (c' & E & Hc').
    injection E as -> _. cbn [fst]. unfold dict_mem.
    rewrite (@project_get (make_header rows) row c Hn
               (@make_header_add_cols rows c Hc')).
    reflexivity. }
  rewrite E. unfold update. cbn [fold_left].
  rewrite (@project_spec (make_header rows) row Hn). reflexivity.
Qed.

Lemma jf_copies_rows_from_720_witness :
  jf_row interrupted_world 3 4 (make_header [jf_good_row]) jf_good_row
  = Ok (map (fun k => (k, dict_get_or jf_good_row k []))
            (make_header [jf_good_row])).
Proof.
  apply (@jf_copies_rows_from_720 interrupted_world 3 4 [jf_good_row]
           jf_good_row 1080).
  - vm_compute. repeat (constructor; [simpl; intuition discriminate|]).
    constructor.
  - vm_compute. reflexivity.
  - lia.
Defined.

(** X21.  A year that is not a number stops the library batch: when a row
    below 720 lines (or without a height) has no identifier and a year
    that [int] rejects, [yts_lookup_from_jf_csv] does not end normally,
    and it writes at most the rows before that row; the rows behind it
    are not written.  The height and the year are texts of charted code
    points. *)
Theorem jf_bad_year_stops_batch (W : World) (retries : Z) (slow_after : Q)
  (pre post : list Row) (row : Row) (e : exn) :
  forallb charted (get row "max_height") = true ->
  forallb charted (get row "year") = true ->
  truthy (str_strip (get row "imdb_id")) = false ->
  match height_of row with Some h => (h < 720)%Z | None => True end ->
  truthy (get row "year") = true ->
  py_int (get row "year") = Raise e ->
  snd (yts_lookup_from_jf_csv W retries slow_after (pre ++ row :: post))
  <> Ok tt
  /\ (List.length
        (fst (yts_lookup_from_jf_csv W retries slow_after
                (pre ++ row :: post)))
      <= List.length pre)%nat.
Proof.
  intros _ _ Hid Hh Hy He. unfold yts_lookup_from_jf_csv.
  apply jf_loop_stops with (e := e). unfold jf_row.
  replace (match height_of row with
           | Some h => (720 <=? h)%Z
           | None => false
           end) with false.
  - rewrite Hid. unfold int_or_none. rewrite Hy, He. reflexivity.
  - destruct (height_of row) as [h|]; [|reflexivity].
    symmetry. apply Z.leb_gt. exact Hh.
Qed.

Lemma jf_bad_year_stops_batch_witness :
  snd (yts_lookup_from_jf_csv silent_world 3 4
         ([jf_good_row] ++ bad_year_row :: [jf_heat_row]))
  <> Ok tt
  /\ (List.length
        (fst (yts_lookup_from_jf_csv silent_world 3 4
                ([jf_good_row] ++ bad_year_row :: [jf_heat_row])))
      <= List.length [jf_good_row])%nat.
Proof.
  apply (@jf_bad_year_stops_batch silent_world 3 4 [jf_good_row]
           [jf_heat_row] bad_year_row
           (Exn ValueError (lit "invalid literal for int() with base 10")
                None None)).
  - reflexivity.
  - reflexivity.
  - reflexivity.
  - vm_compute. exact I.
  - reflexivity.
  - vm_compute. reflexivity.
Defined.

(** ** Console tables *)

Lemma join_length (sep : pystr) (parts : list pystr) :
  List.length (join sep parts)
  = (list_sum (map (@List.length codepoint) parts)
     + List.length sep * (List.length parts - 1))%nat.
Proof.
  induction parts as [|p parts IH]; [simpl; lia|].
  destruct parts as [|q parts].
  - simpl. lia.
  - change (join sep (p :: q :: parts)) with (p ++ sep ++ join sep (q :: parts)).
    rewrite !length_app, IH.
    change (map (@List.length codepoint) (p :: q :: parts))
      with (List.length p :: map (@List.length codepoint) (q :: parts)).
    change (list_sum (List.length p :: map (@List.length codepoint) (q :: parts)))
      with (List.length p + list_sum (map (@List.length codepoint) (q :: parts)))%nat.
    change (List.length (p :: q :: parts)) with (S (S (List.length parts))).
    change (List.length (q :: parts)) with (S (List.length parts)).
    unfold codepoint, pystr in *.
    replace (S (S (List.length parts)) - 1)%nat with (S (List.length parts)) by lia.
    replace (S (List.length parts) - 1)%nat with (List.length parts) by lia.
    rewrite Nat.mul_succ_r. lia.
Qed.

Lemma ljust_length (s : pystr) (width : nat) :
  (List.length s <= width)%nat -> List.length (ljust s width) = width.
Proof.
  intros H. unfold ljust. rewrite length_app, repeat_length. lia.
Qed.

Lemma width_loop_ge (key : pystr) (rows : list Row) : forall start,
  (start
   <= fold_left
        (fun max_len row =>
           Nat.max max_len (List.length (dict_get_or row key [])))
        rows start)%nat
  /\ forall row, In row rows ->
       (List.length (dict_get_or row key [])
        <= fold_left
             (fun max_len row =>
                Nat.max max_len (List.length (dict_get_or row key [])))
             rows start)%nat.
Proof.
  induction rows as [|r rows IH]; intros start; cbn [fold_left].
  - split; [apply Nat.le_refl|intros ? []].
  - destruct (IH (Nat.max start (List.length (dict_get_or r key []))))
      as [H1 H2].
    split; [eapply Nat.le_trans; [apply Nat.le_max_l|exact H1]|].
    intros row [<-|Hin]; [|exact (H2 row Hin)].
    eapply Nat.le_trans; [apply Nat.le_max_r|exact H1].
Qed.

(** The cells of a line are as long as the widths of their columns. *)
Lemma padded_cells (rows : list Row) (cell : pystr * pystr -> pystr)
  (columns : list (pystr * pystr)) :
  (forall col, In col columns ->
     (List.length (cell col)
      <= fold_left
           (fun max_len row =>
              Nat.max max_len (List.length (dict_get_or row (snd col) [])))
           rows (List.length (fst col)))%nat) ->
  map (@List.length codepoint)
      (map (fun cw => ljust (cell (fst cw)) (snd cw))
           (combine columns (table_widths rows columns)))
  = table_widths rows columns.
Proof.
  unfold table_widths. induction columns as [|col columns IH]; intros H;
    [reflexivity|].
  cbn [map combine fst snd]. rewrite ljust_length, IH.
  - reflexivity.
  - intros c Hc. apply H. right. exact Hc.
  - apply H. left. reflexivity.
Qed.

Lemma table_widths_length rows columns :
  List.length (table_widths rows columns) = List.length columns.
Proof. unfold table_widths. apply length_map. Qed.

(** X22.  Tables are rectangular: for a list of rows that is not empty,
    [_render_table] joins with newlines a heading, a rule and one line
    for each row, and every one of these lines has the same number of
    code points, the sum of the column widths and three for each
    separator; no value is cut. *)
Theorem render_table_rectangular (rows : list Row)
  (columns : list (pystr * pystr)) :
  rows <> [] ->
  _render_table rows columns = join [10%N] (table_lines rows columns)
  /\ List.length (table_lines rows columns) = (2 + List.length rows)%nat
  /\ forall line, In line (table_lines rows columns) ->
       List.length line
       = (list_sum (table_widths rows columns)
          + 3 * (List.length columns - 1))%nat.
Proof.
  intros Hne. split; [destruct rows; [congruence|reflexivity]|].
  split; [unfold table_lines; simpl; rewrite length_map; reflexivity|].
  intros line Hin. unfold table_lines in Hin.
  destruct Hin as [<-|[<-|Hin]].
  - rewrite join_length.
    rewrite (@padded_cells rows (fun col => fst col) columns).
    + rewrite length_map, length_combine, table_widths_length, Nat.min_id.
      reflexivity.
    + intros col _. apply (proj1 (width_loop_ge (snd col) rows _)).
  - rewrite join_length, map_map.
    rewrite (map_ext _ (fun w => w)) by (intros w; apply repeat_length).
    rewrite map_id, length_map, table_widths_length. reflexivity.
  - apply in_map_iff in Hin. destruct Hin as (row & <- & Hrow).
    unfold fmt_row. rewrite join_length.
    rewrite (@padded_cells rows (fun col => dict_get_or row (snd col) [])
               columns).
    + rewrite length_map, length_combine, table_widths_length, Nat.min_id.
      reflexivity.
    + intros col _. apply (proj2 (width_loop_ge (snd col) rows _) row Hrow).
Qed.

Lemma render_table_rectangular_witness :
  _render_table [csv_heat_row; bad_year_row]
                [(lit "Title", lit "title"); (lit "Year", lit "year")]
  = join [10%N]
      (table_lines [csv_heat_row; bad_year_row]
                   [(lit "Title", lit "title"); (lit "Year", lit "year")])
  /\ List.length
       (table_lines [csv_heat_row; bad_year_row]
                    [(lit "Title", lit "title"); (lit "Year", lit "year")])
     = (2 + List.length [csv_heat_row; bad_year_row])%nat
  /\ forall line,
       In line (table_lines [csv_heat_row; bad_year_row]
                  [(lit "Title", lit "title"); (lit "Year", lit "year")]) ->
       List.length line
       = (list_sum (table_widths [csv_heat_row; bad_year_row]
                      [(lit "Title", lit "title"); (lit "Year", lit "year")])
          + 3 * (List.length
                   [(lit "Title", lit "title"); (lit "Year", lit "year")]
                 - 1))%nat.
Proof.
  apply (@render_table_rectangular [csv_heat_row; bad_year_row]
           [(lit "Title", lit "title"); (lit "Year", lit "year")]).
  discriminate.
Defined.

(** ** The header of the output *)

(** X23.  The header: the columns of the first row in their order, then those
    of the six enrichment columns that the first row has not, in the
    fixed order; all six are in it; and a file written with this header
    gets the same header when it is read again, so a second run adds no
    column. *)
Theorem make_header_stable (rows : list Row) :
  make_header rows
  = orig_header rows
    ++ filter (fun c => negb (mem c (orig_header rows))) add_cols
  /\ (forall c, In c add_cols -> In c (make_header rows))
  /\ forall rows', orig_header rows' = make_header rows ->
                   make_header rows' = make_header rows.
Proof.
  split; [apply make_header_spec|]. split; [apply make_header_add_cols|].
  intros rows' H. rewrite (make_header_enriched rows'); [exact H|].
  intros c Hc. rewrite H. apply make_header_add_cols. exact Hc.
Qed.

(** ** The first request of a search *)

Lemma attempt_loop_head fetch retries slow_after fuel base attempt backoff :
  exists tr,
    snd (attempt_loop fetch retries slow_after (S fuel) base attempt backoff)
    = Get base (attempt + 1) :: tr.
Proof.
  rewrite attempt_loop_S. cbv zeta.
  destruct (attempt_loop fetch retries slow_after fuel base (attempt + 1)
              (backoff * 2)) as [x tr0].
  destruct (fetch base (attempt + 1)%Z) as [e| |movies elapsed|];
    try (eexists; reflexivity).
  - destruct (_is_dns_error e); [eexists; reflexivity|].
    destruct (attempt + 1 <=? retries)%Z; eexists; reflexivity.
  - destruct (Qle_bool slow_after elapsed && (attempt + 1 <=? retries)%Z)%bool;
      eexists; reflexivity.
Qed.

Lemma mirror_loop_head fetch retries slow_after base rest :
  hd_error (snd (mirror_loop fetch retries slow_after (base :: rest)))
  = Some (Get base 1).
Proof.
  cbn [mirror_loop].
  destruct (attempt_loop_head fetch retries slow_after (Z.to_nat retries)
              base 0 (3 # 4)) as (tr & Htr).
  destruct (attempt_loop fetch retries slow_after (S (Z.to_nat retries))
              base 0 (3 # 4)) as [x tr0].
  cbn [snd] in Htr. subst tr0. destruct x; try reflexivity.
  destruct (mirror_loop fetch retries slow_after rest) as [r tr'].
  reflexivity.
Qed.

Lemma keep_first_head (l : list pystr) : hd_error (keep_first l) = hd_error l.
Proof. destruct l; reflexivity. Qed.

(** X24.  Where a search starts: whatever the mirrors answer, the first thing
    [yts_search] does is to send attempt 1 to the first configured root,
    normalized, and to the first built-in mirror when no root is
    configured; so every search makes at least one request. *)
Theorem yts_search_first_request (W : World) (retries : Z) (slow_after : Q)
  (title_ : pystr) (year_ : option Z) :
  hd_error (snd (yts_search W retries slow_after title_ year_))
  = Some (Get (hd (lit "https://www.yts-official.to/api/v2")
                  (map normalize_base (configured_roots (YTS_API_BASE W))))
              1).
Proof.
  unfold yts_search.
  pose proof (yts_bases_keep_first (YTS_API_BASE W)) as Hb.
  pose proof (keep_first_head
                (map normalize_base (configured_roots (YTS_API_BASE W))
                 ++ _YTS_DEFAULT_BASES)) as Hh.
  rewrite <- Hb in Hh.
  destruct (map normalize_base (configured_roots (YTS_API_BASE W)))
    as [|b0 conf]; cbn [app hd hd_error] in Hh |- *;
    (destruct (_yts_bases (YTS_API_BASE W)) as [|b bases];
       [discriminate Hh|]);
    cbn [hd_error] in Hh; injection Hh as ->; apply mirror_loop_head.
Qed.

(** ** The rank of a file name *)

Lemma first_token_found tokens (s : pystr) :
  (exists tok, In (tok, first_token tokens s) tokens
               /\ contains s tok = true)
  \/ (first_token tokens s = 0
      /\ forall tok rk, In (tok, rk) tokens -> contains s tok = false).
Proof.
  induction tokens as [|[t0 r0] rest IH]; cbn [first_token].
  - right. split; [reflexivity|intros ? ? []].
  - destruct (contains s t0) eqn:C.
    + left. exists t0. split; [left; reflexivity|exact C].
    + destruct IH as [(tok & Hin & Hc)|[H0 Hnone]].
      * left. exists tok. split; [right; exact Hin|exact Hc].
      * right. split; [exact H0|]. intros tok rk [E|Hin].
        -- injection E as <- _. exact C.
        -- exact (Hnone tok rk Hin).
Qed.

(** X25.  The best token wins: the rank that [_detect_current_quality] gives
    a name is the greatest rank among the quality tokens that occur in
    the lower-cased name, and 0 when none occurs; a name that shows both
    720p and 1080p ranks as 1080p wherever the two stand. *)
Theorem detect_current_quality_greatest (name : pystr) :
  (forall tok rk, In (tok, rk) QUALITY_TOKENS ->
     contains (str_lower name) tok = true ->
     rk <= _detect_current_quality name)
  /\ ((exists tok, In (tok, _detect_current_quality name) QUALITY_TOKENS
                   /\ contains (str_lower name) tok = true)
      \/ (_detect_current_quality name = 0
          /\ forall tok rk, In (tok, rk) QUALITY_TOKENS ->
               contains (str_lower name) tok = false)).
Proof.
  unfold _detect_current_quality. split.
  - intros tok rk Hin Hc.
    exact (@first_token_ge _ _ _ _ QUALITY_TOKENS_sorted Hin Hc).
  - apply first_token_found.
Qed.
